(** * stl-tool: the geometric kernel of [StlReader] (src/src/stl_reader.h)

    A shallow embedding of the indexed mesh model, the Moeller-Trumbore
    intersector, the even-hit classifier, the boundary capper, the mesh
    cleaner and the watertightness and volume auditor, followed by the
    theorems that relate them to the design document.

    Modelling conventions.
    - [float] is IEEE-754 binary32, [double] is binary64, both through
      the reference semantics of [SpecFloat]: every C++ operator is one
      correctly rounded operation (round to nearest, ties to even), with
      no contraction of a product and a sum into a fused operation.
    - [size_t] and [int] counters are [nat]; no mesh reaches 2^31 facets.
    - [std::vector] is [list]; [v[i]] is [nth i v d].  The source indexes
      without a bounds check, so the theorems that read a vertex assume
      the mesh is well formed ([mesh_wf]), which [removeDuplicateVertices]
      establishes.
    - [std::map] with integer keys is an association list kept sorted by
      key, so that iteration visits the keys in increasing order as the
      source does.  [std::map<Vec3,size_t>] is searched but never
      iterated: it is an association list whose lookup returns the entry
      equivalent to the key under [operator<].  On positions without a
      NaN coordinate [operator<] is a strict weak order, at most one
      entry is equivalent to a key, and this is [std::map::find]; for
      keys with a NaN the standard does not fix what [std::map] does.
    - [std::set] is the list of the inserted elements with membership.
    - A loop that the source leaves when its work is done is a function
      with fuel, [None] when the fuel runs out; the theorems on the
      tracing show that it never does.
    - [std::ostream] output is the [string] written. *)

From Stdlib Require Import String Ascii DecimalString.
From Stdlib Require Import ZArith List Bool Arith Lia Permutation Sorted.
From Stdlib Require Import Floats.SpecFloat.
Import ListNotations.

Set Implicit Arguments.

(* ================================================================== *)
(** * Floating point: binary32 and binary64 *)
(* ================================================================== *)

Module F32.
Definition prec : Z := 24.
Definition emax : Z := 128.

Definition add : spec_float -> spec_float -> spec_float := SFadd prec emax.
Definition sub : spec_float -> spec_float -> spec_float := SFsub prec emax.
Definition mul : spec_float -> spec_float -> spec_float := SFmul prec emax.
Definition div : spec_float -> spec_float -> spec_float := SFdiv prec emax.
Definition sqrt : spec_float -> spec_float := SFsqrt prec emax.
Definition opp : spec_float -> spec_float := SFopp.

(** The six comparison operators of C++; each is false on NaN except [!=]. *)
Definition lt (a b : spec_float) : bool := SFltb a b.
Definition le (a b : spec_float) : bool := SFleb a b.
Definition gt (a b : spec_float) : bool := SFltb b a.
Definition ge (a b : spec_float) : bool := SFleb b a.
Definition eq (a b : spec_float) : bool := SFeqb a b.
Definition ne (a b : spec_float) : bool := negb (SFeqb a b).

(** Conversion of an integer, [(float)n], and of a decimal literal
    [p / 10^k] whose denominator is exact in binary32 (k <= 10). *)
Definition of_Z (z : Z) : spec_float := binary_normalize prec emax z 0 false.
Definition of_nat (n : nat) : spec_float := of_Z (Z.of_nat n).
Definition decimal (p : Z) (k : nat) : spec_float :=
  div (of_Z p) (of_Z (10 ^ Z.of_nat k)).

Definition zero : spec_float := S754_zero false.      (* 0.f   *)
Definition one : spec_float := of_Z 1.                (* 1.f   *)
Definition three : spec_float := of_Z 3.              (* 3.f   *)
Definition c1em2 : spec_float := decimal 1 2.         (* 1e-2f *)
Definition c1em4 : spec_float := decimal 1 4.         (* 1e-4f *)
Definition c1em6 : spec_float := decimal 1 6.         (* 1e-6f *)
Definition c1em10 : spec_float := decimal 1 10.       (* 1e-10f *)
Definition cm1e30 : spec_float := of_Z (- 10 ^ 30).   (* -1e30f *)

Definition is_nan (a : spec_float) : bool :=
  match a with S754_nan => true | _ => false end.
End F32.

Module F64.
Definition prec : Z := 53.
Definition emax : Z := 1024.

Definition add : spec_float -> spec_float -> spec_float := SFadd prec emax.
Definition div : spec_float -> spec_float -> spec_float := SFdiv prec emax.
Definition opp : spec_float -> spec_float := SFopp.
Definition lt (a b : spec_float) : bool := SFltb a b.
Definition of_Z (z : Z) : spec_float := binary_normalize prec emax z 0 false.
Definition zero : spec_float := S754_zero false.
Definition six : spec_float := of_Z 6.

(** Promotion of a [float] to [double]: exact, the value is renormalised
    to a 53-bit significand. *)
Definition of_float (a : spec_float) : spec_float :=
  match a with
  | S754_finite s m e => binary_round prec emax s m e
  | _ => a
  end.
End F64.

Declare Scope f32_scope.
Delimit Scope f32_scope with f32.
Infix "+" := F32.add : f32_scope.
Infix "-" := F32.sub : f32_scope.
Infix "*" := F32.mul : f32_scope.
Infix "/" := F32.div : f32_scope.
Notation "- x" := (F32.opp x) : f32_scope.

Definition float : Set := spec_float.
Definition double : Set := spec_float.

(* ================================================================== *)
(** * Data model *)
(* ================================================================== *)

Record Vec3 := mkVec3 { x : float; y : float; z : float }.

Record Triangle := mkTriangle { normal : Vec3; v0 : Vec3; v1 : Vec3; v2 : Vec3 }.

(** The fields of [IndexedTri] are v0, v1, v2 in the source; they are
    [i0], [i1], [i2] here, the names v0, v1, v2 being those of [Triangle]. *)
Record IndexedTri := mkIndexedTri { i0 : nat; i1 : nat; i2 : nat }.

(** [Vec3::operator<]: lexicographic, written with [!=] and [<]. *)
Definition Vec3_lt (a o : Vec3) : bool :=
  if F32.ne (x a) (x o) then F32.lt (x a) (x o)
  else if F32.ne (y a) (y o) then F32.lt (y a) (y o)
  else F32.lt (z a) (z o).

(** Two keys are the same key of a [std::map] when neither is less than
    the other. *)
Definition Vec3_equiv (a b : Vec3) : bool :=
  negb (Vec3_lt a b) && negb (Vec3_lt b a).

Definition vzero : Vec3 := mkVec3 F32.zero F32.zero F32.zero.

Definition Vec3_neg (v : Vec3) : Vec3 :=
  mkVec3 (- x v)%f32 (- y v)%f32 (- z v)%f32.

(** The private state of an [StlReader]. *)
Record StlReader := mkStlReader {
  header_ : string;
  triangles_ : list Triangle;
  vertices_ : list Vec3;
  indexedTriangles_ : list IndexedTri;
  originalFacetNormals_ : list Vec3
}.

Definition triangleCount (r : StlReader) : nat := length (indexedTriangles_ r).

Definition vertexAt (r : StlReader) (i : nat) : Vec3 := nth i (vertices_ r) vzero.

Definition triAt (r : StlReader) (i : nat) : IndexedTri :=
  nth i (indexedTriangles_ r) (mkIndexedTri 0 0 0).

(** Every index triple refers into the vertex table. *)
Definition tri_wf (r : StlReader) (t : IndexedTri) : Prop :=
  i0 t < length (vertices_ r) /\ i1 t < length (vertices_ r) /\ i2 t < length (vertices_ r).

Definition mesh_wf (r : StlReader) : Prop := Forall (tri_wf r) (indexedTriangles_ r).

(** [edgeKey]: the canonical undirected edge. *)
Definition edgeKey (a b : nat) : nat * nat := (Nat.min a b, Nat.max a b).

(* ================================================================== *)
(** * Containers of the standard library *)
(* ================================================================== *)

(** [std::map<K,V>] for an ordered key: a list sorted by key.  [upd k f m]
    is [m[k] = f(m[k])], where a missing entry is value-initialised by
    [f None]. *)
Section OrdMap.
Variables (K V : Type) (cmp : K -> K -> comparison).

Fixpoint upd (k : K) (f : option V -> V) (m : list (K * V)) : list (K * V) :=
  match m with
  | [] => [(k, f None)]
  | (k', v) :: rest =>
      match cmp k k' with
      | Lt => (k, f None) :: m
      | Eq => (k', f (Some v)) :: rest
      | Gt => (k', v) :: upd k f rest
      end
  end.

Fixpoint lookup (k : K) (m : list (K * V)) : option V :=
  match m with
  | [] => None
  | (k', v) :: rest =>
      match cmp k k' with
      | Eq => Some v
      | _ => lookup k rest
      end
  end.
End OrdMap.

(** [operator<] of [std::pair<size_t,size_t>] as a three-way comparison. *)
Definition pair_compare (a b : nat * nat) : comparison :=
  match Nat.compare (fst a) (fst b) with
  | Eq => Nat.compare (snd a) (snd b)
  | c => c
  end.

Definition pair_eqb (a b : nat * nat) : bool :=
  Nat.eqb (fst a) (fst b) && Nat.eqb (snd a) (snd b).

(** [std::set<std::pair<size_t,size_t>>]: the inserted pairs, most recent
    first; [count] is membership. *)
Definition pset_count (e : nat * nat) (s : list (nat * nat)) : bool :=
  existsb (pair_eqb e) s.

(** [std::array<size_t,3>], its [std::sort] and a [std::set] of them. *)
Definition Key3 : Type := nat * nat * nat.

Definition key3_eqb (a b : Key3) : bool :=
  let '(a0, a1, a2) := a in
  let '(b0, b1, b2) := b in
  Nat.eqb a0 b0 && Nat.eqb a1 b1 && Nat.eqb a2 b2.

Definition sort3 (k : Key3) : Key3 :=
  let '(a, b, c) := k in
  if a <=? b then
    if b <=? c then (a, b, c)
    else if a <=? c then (a, c, b) else (c, a, b)
  else
    if a <=? c then (b, a, c)
    else if b <=? c then (b, c, a) else (c, b, a).

Definition kset_mem (k : Key3) (s : list Key3) : bool := existsb (key3_eqb k) s.

(** [std::map<Vec3,size_t>]: [vfind] is [find], the entry whose key is
    equivalent to [v].  The map never holds two equivalent keys when
    [operator<] is a strict weak order on them, that is when no key has
    a NaN coordinate ([vec_ok] below), and [vfind] is [find] on such
    keys; a theorem that needs the lookup to find every equivalent entry
    assumes it. *)
Definition VMap : Type := list (Vec3 * nat).

Definition vfind (v : Vec3) (m : VMap) : option nat :=
  match find (fun kv => Vec3_equiv (fst kv) v) m with
  | Some kv => Some (snd kv)
  | None => None
  end.

Definition newline : string := String (ascii_of_nat 10) EmptyString.

Definition show (n : nat) : string := NilEmpty.string_of_uint (Nat.to_uint n).

(* ================================================================== *)
(** * The indexed mesh model *)
(* ================================================================== *)

Local Open Scope f32_scope.

(** The cross product [(b - a) x (c - a)] as the source writes it out in
    [getTriangle], [cleanMesh] and [checkWatertight]. *)
Definition edgeCross (a b c : Vec3) : Vec3 :=
  let ex := x b - x a in let ey := y b - y a in let ez := z b - z a in
  let fx := x c - x a in let fy := y c - y a in let fz := z c - z a in
  mkVec3 (ey * fz - ez * fy) (ez * fx - ex * fz) (ex * fy - ey * fx).

Definition norm2 (n : Vec3) : float := x n * x n + y n * y n + z n * z n.

Definition vlen (n : Vec3) : float := F32.sqrt (norm2 n).

Definition vscale_inv (n : Vec3) (len : float) : Vec3 :=
  mkVec3 (x n / len) (y n / len) (z n / len).

Definition dot3 (a b : Vec3) : float := x a * x b + y a * y b + z a * z b.

(** [StlReader::getTriangle]: positions and the normal recomputed from
    the geometry; a zero-length cross product is left unnormalised. *)
Definition getTriangle (r : StlReader) (i : nat) : Triangle :=
  let id := triAt r i in
  let a := vertexAt r (i0 id) in
  let b := vertexAt r (i1 id) in
  let c := vertexAt r (i2 id) in
  let n := edgeCross a b c in
  let len := vlen n in
  mkTriangle (if F32.gt len F32.zero then vscale_inv n len else n) a b c.

(** The lambda [id] of [removeDuplicateVertices] and [getIdx] of
    [cleanMesh]: the index of [v] in the merged table, which grows when
    [v] is new. *)
Definition getIdx (v : Vec3) (st : VMap * list Vec3) : nat * (VMap * list Vec3) :=
  let '(idx, verts) := st in
  match vfind v idx with
  | Some i => (i, st)
  | None => let i := length verts in (i, ((v, i) :: idx, verts ++ [v]))
  end.

(** The three lookups of one triangle, in the order v0, v1, v2. *)
Definition indexTriangle (t : Triangle) (st : VMap * list Vec3)
  : Key3 * (VMap * list Vec3) :=
  let '(i, st1) := getIdx (v0 t) st in
  let '(j, st2) := getIdx (v1 t) st1 in
  let '(k, st3) := getIdx (v2 t) st2 in
  ((i, j, k), st3).

Fixpoint indexAll (ts : list Triangle) (st : VMap * list Vec3)
  : list Key3 * (VMap * list Vec3) :=
  match ts with
  | [] => ([], st)
  | t :: rest =>
      let '(k, st1) := indexTriangle t st in
      let '(ks, st2) := indexAll rest st1 in
      (k :: ks, st2)
  end.

Definition key_to_tri (k : Key3) : IndexedTri :=
  let '(a, b, c) := k in mkIndexedTri a b c.

(** [StlReader::removeDuplicateVertices]. *)
Definition removeDuplicateVertices (r : StlReader) : StlReader :=
  let '(ks, (_, verts)) := indexAll (triangles_ r) ([], []) in
  mkStlReader (header_ r) [] verts (map key_to_tri ks) (map normal (triangles_ r)).

(** The mesh held after reading the raw triangles [ts] and merging. *)
Definition build (ts : list Triangle) : StlReader :=
  removeDuplicateVertices (mkStlReader EmptyString ts [] [] []).

(** [StlReader::volume]: the tetrahedron term is evaluated in [float],
    promoted, divided by [6.0] and summed in [double]. *)
Definition tetra (a b c : Vec3) : float :=
  x a * (y b * z c - z b * y c) + y a * (z b * x c - x b * z c)
  + z a * (x b * y c - y b * x c).

Definition volume (r : StlReader) : double :=
  let sum :=
    fold_left
      (fun s id =>
         F64.add s
           (F64.div
              (F64.of_float
                 (tetra (vertexAt r (i0 id)) (vertexAt r (i1 id)) (vertexAt r (i2 id))))
              F64.six))
      (indexedTriangles_ r) F64.zero in
  if F64.lt sum F64.zero then F64.opp sum else sum.

(* ================================================================== *)
(** * The ray-triangle intersector *)
(* ================================================================== *)

(** [StlReader::rayIntersect]: [Some t] for a hit at distance [t], [None]
    for a miss. *)
Definition rayIntersect (r : StlReader) (triIndex : nat) (ro rd : Vec3) : option float :=
  let t := getTriangle r triIndex in
  let eps := F32.c1em6 in
  let e1x := x (v1 t) - x (v0 t) in
  let e1y := y (v1 t) - y (v0 t) in
  let e1z := z (v1 t) - z (v0 t) in
  let e2x := x (v2 t) - x (v0 t) in
  let e2y := y (v2 t) - y (v0 t) in
  let e2z := z (v2 t) - z (v0 t) in
  let hx := y rd * e2z - z rd * e2y in
  let hy := z rd * e2x - x rd * e2z in
  let hz := x rd * e2y - y rd * e2x in
  let a := e1x * hx + e1y * hy + e1z * hz in
  if F32.gt a (- eps) && F32.lt a eps then None else
  let f := F32.one / a in
  let sx := x ro - x (v0 t) in
  let sy := y ro - y (v0 t) in
  let sz := z ro - z (v0 t) in
  let u := f * (sx * hx + sy * hy + sz * hz) in
  if F32.lt u F32.zero || F32.gt u F32.one then None else
  let qx := sy * e1z - sz * e1y in
  let qy := sz * e1x - sx * e1z in
  let qz := sx * e1y - sy * e1x in
  let v := f * (x rd * qx + y rd * qy + z rd * qz) in
  if F32.lt v F32.zero || F32.gt (u + v) F32.one then None else
  let tt := f * (e2x * qx + e2y * qy + e2z * qz) in
  if F32.le tt eps then None else Some tt.

(* ================================================================== *)
(** * The interior classifier *)
(* ================================================================== *)

(** [operator<] of [std::pair<float,size_t>], the order [std::sort] uses on
    the hits. *)
Definition hit_lt (a b : float * nat) : bool :=
  F32.lt (fst a) (fst b) || (negb (F32.lt (fst b) (fst a)) && (snd a <? snd b)).

Fixpoint insert_hit (h : float * nat) (l : list (float * nat)) : list (float * nat) :=
  match l with
  | [] => [h]
  | h' :: rest => if hit_lt h' h then h' :: insert_hit h rest else h :: l
  end.

(** [std::sort(hits.begin(), hits.end())]. *)
Definition sort_hits (l : list (float * nat)) : list (float * nat) :=
  fold_right insert_hit [] l.

(** The ray of facet [i]: origin [centroid + originOffset * normal],
    direction [normal]. *)
Definition rayOf (r : StlReader) (originOffset : float) (i : nat) : Vec3 * Vec3 :=
  let tri := getTriangle r i in
  let cx := (x (v0 tri) + x (v1 tri) + x (v2 tri)) / F32.three in
  let cy := (y (v0 tri) + y (v1 tri) + y (v2 tri)) / F32.three in
  let cz := (z (v0 tri) + z (v1 tri) + z (v2 tri)) / F32.three in
  let n := normal tri in
  (mkVec3 (cx + originOffset * x n) (cy + originOffset * y n) (cz + originOffset * z n),
   mkVec3 (x n) (y n) (z n)).

(** The inner loop over [k]: the hits of the ray of facet [i] beyond
    [tMin], in the order of [k]. *)
Definition hitsOf (r : StlReader) (originOffset tMin : float) (i : nat)
  : list (float * nat) :=
  let '(rayOrig, rayDir) := rayOf r originOffset i in
  flat_map
    (fun k =>
       if k =? i then []
       else match rayIntersect r k rayOrig rayDir with
            | Some t => if F32.gt t tMin then [(t, k)] else []
            | None => []
            end)
    (seq 0 (triangleCount r)).

(** The merge loop: the state is [(distinctHits, lastT)]. *)
Definition countStep (tEps : float) (st : nat * float) (h : float * nat) : nat * float :=
  let '(distinctHits, lastT) := st in
  if F32.gt (fst h - lastT) tEps then (S distinctHits, fst h) else st.

Definition distinctHits (tEps : float) (hits : list (float * nat)) : nat :=
  fst (fold_left (countStep tEps) hits (0, F32.cm1e30)).

(** [distinctHits > 0 && (distinctHits & 1) == 0]. *)
Definition evenHit (r : StlReader) (originOffset tMin tEps : float) (i : nat) : bool :=
  let d := distinctHits tEps (sort_hits (hitsOf r originOffset tMin i)) in
  (0 <? d) && Nat.even d.

(** The vector [evenHitTriangles] of [computeFluidMesh]. *)
Definition evenHitTriangles (r : StlReader) (originOffset tMin tEps : float) : list nat :=
  fold_left
    (fun acc i => if evenHit r originOffset tMin tEps i then acc ++ [i] else acc)
    (seq 0 (triangleCount r)) [].

(* ================================================================== *)
(** * The boundary capper *)
(* ================================================================== *)

Record DirectedEdge := mkDirectedEdge { from : nat; to : nat; triIdx : nat }.

(** [m[k].push_back(e)]. *)
Definition push_back (A : Type) (e : A) (o : option (list A)) : list A :=
  match o with
  | Some l => l ++ [e]
  | None => [e]
  end.

Definition EdgeMap (V : Type) : Type := list ((nat * nat) * V).

(** One round of the first loop of [addCaps]: the three directed edges of
    facet [ti], skipped when [ti] is out of range. *)
Definition addTriEdges (r : StlReader) (m : EdgeMap (list DirectedEdge)) (ti : nat)
  : EdgeMap (list DirectedEdge) :=
  if ti <? triangleCount r then
    let id := triAt r ti in
    let a := i0 id in let b := i1 id in let c := i2 id in
    let m1 := upd pair_compare (edgeKey a b) (push_back (mkDirectedEdge a b ti)) m in
    let m2 := upd pair_compare (edgeKey b c) (push_back (mkDirectedEdge b c ti)) m1 in
    upd pair_compare (edgeKey c a) (push_back (mkDirectedEdge c a ti)) m2
  else m.

Definition edgeToDirected (r : StlReader) (triangleIndices : list nat)
  : EdgeMap (list DirectedEdge) :=
  fold_left (addTriEdges r) triangleIndices [].

(** The edges with exactly one directed occurrence, in key order. *)
Definition boundaryEdges (r : StlReader) (triangleIndices : list nat) : list DirectedEdge :=
  flat_map
    (fun kv => match snd kv with
               | [e] => [mkDirectedEdge (from e) (to e) (triIdx e)]
               | _ => []
               end)
    (edgeToDirected r triangleIndices).

(** [nextMap]: for each from-vertex its successors [(to, triIdx)]. *)
Definition NextMap : Type := list (nat * list (nat * nat)).

Definition buildNextMap (bes : list DirectedEdge) : NextMap :=
  fold_left
    (fun m e => upd Nat.compare (from e) (push_back (to e, triIdx e)) m)
    bes [].

Definition successors (nm : NextMap) (v : nat) : list (nat * nat) :=
  match lookup Nat.compare v nm with
  | Some l => l
  | None => []
  end.

(** The search of [nextMap[to]] for an unused edge; [(0, 0)] when there is
    none, as [nextV] and [nextTri] are initialised to 0. *)
Definition nextUnused (used : list (nat * nat)) (cur : nat) (succs : list (nat * nat))
  : nat * nat :=
  match find (fun p => negb (pset_count (cur, fst p) used)) succs with
  | Some p => p
  | None => (0, 0)
  end.

(** [std::find(loop.begin(), loop.end(), v) - loop.begin()]. *)
Fixpoint index_of (v : nat) (l : list nat) : option nat :=
  match l with
  | [] => None
  | a :: rest => if a =? v then Some 0
                 else match index_of v rest with
                      | Some i => Some (S i)
                      | None => None
                      end
  end.

(** One cap of the fan: the candidate [(C, va, vb)], dropped when its
    cross product is at most [1e-10f] long, oriented by [adjNormal]. *)
Definition capTriangle (C va vb adjNormal : Vec3) : list Triangle :=
  let nx := (y va - y C) * (z vb - z C) - (z va - z C) * (y vb - y C) in
  let ny := (z va - z C) * (x vb - x C) - (x va - x C) * (z vb - z C) in
  let nz := (x va - x C) * (y vb - y C) - (y va - y C) * (x vb - x C) in
  let len := F32.sqrt (nx * nx + ny * ny + nz * nz) in
  if F32.le len F32.c1em10 then [] else
  let n := mkVec3 (nx / len) (ny / len) (nz / len) in
  let dot := x n * x adjNormal + y n * y adjNormal + z n * z adjNormal in
  [mkTriangle (if F32.lt dot F32.zero then Vec3_neg n else n)
              C
              (if F32.ge dot F32.zero then va else vb)
              (if F32.ge dot F32.zero then vb else va)].

Definition loopCentroid (r : StlReader) (loop : list nat) : Vec3 :=
  let cx := fold_left (fun s vi => s + x (vertexAt r vi)) loop F32.zero in
  let cy := fold_left (fun s vi => s + y (vertexAt r vi)) loop F32.zero in
  let cz := fold_left (fun s vi => s + z (vertexAt r vi)) loop F32.zero in
  let n := F32.of_nat (length loop) in
  mkVec3 (cx / n) (cy / n) (cz / n).

(** The lambda [capOneLoop]: the triangles it pushes on [outTriangles]. *)
Definition capOneLoop (r : StlReader) (loop : list nat) (triIdxForNormal : nat)
  : list Triangle :=
  if length loop <? 3 then [] else
  let C := loopCentroid r loop in
  let adjTri := getTriangle r triIdxForNormal in
  flat_map
    (fun i =>
       let a := nth i loop 0 in
       let b := nth ((i + 1) mod length loop)%nat loop 0 in
       capTriangle C (vertexAt r a) (vertexAt r b) (normal adjTri))
    (seq 0 (length loop)).

(** The state of the tracing loops.  [used] is the set of consumed
    directed edges; [calls] records, oldest first, the arguments of every
    call of [capOneLoop].  The caps do not influence the tracing, so they
    are produced from [calls] afterwards, in the same order. *)
Record TraceState := mkTraceState {
  used : list (nat * nat);
  calls : list (list nat * nat)
}.

(** The inner [while (to != start)] loop.  [cur] is the variable [to];
    the variable [from] is written but never read and is left out.
    [None]: the fuel ran out. *)
Fixpoint traceLoop (nm : NextMap) (fuel : nat) (start : nat)
    (loop triOnLoop : list nat) (cur : nat) (st : TraceState)
  : option (list nat * list nat * TraceState) :=
  match fuel with
  | O => None
  | S fuel' =>
      if cur =? start then Some (loop, triOnLoop, st) else
      let '(nextV, nextTri) := nextUnused (used st) cur (successors nm cur) in
      if nextV =? 0 then Some (loop, triOnLoop, st) else
      match index_of nextV loop with
      | None =>
          traceLoop nm fuel' start (loop ++ [nextV]) (triOnLoop ++ [nextTri]) nextV
            (mkTraceState ((cur, nextV) :: used st) (calls st))
      | Some idx =>
          if nextV =? start then
            Some (loop, triOnLoop, mkTraceState ((cur, nextV) :: used st) (calls st))
          else
            let subLoop := skipn idx loop in
            let loop' := firstn (idx + 1)%nat loop in
            let triOnLoop' := firstn (idx + 1)%nat triOnLoop in
            traceLoop nm fuel' start loop' triOnLoop' (last loop' 0)
              (mkTraceState ((cur, nextV) :: used st)
                            (calls st ++ [(subLoop, nth idx triOnLoop 0)]))
      end
  end.

(** The outer [for (;;)] loop. *)
Fixpoint traceAll (bes : list DirectedEdge) (nm : NextMap) (fuel : nat) (st : TraceState)
  : option TraceState :=
  match fuel with
  | O => None
  | S fuel' =>
      match find (fun e => negb (pset_count (from e, to e) (used st))) bes with
      | None => Some st
      | Some e =>
          let start := from e in
          match traceLoop nm (S (length bes)) start
                  [from e; to e] [triIdx e; triIdx e] (to e)
                  (mkTraceState ((from e, to e) :: used st) (calls st)) with
          | None => None
          | Some (loop, triOnLoop, st') =>
              traceAll bes nm fuel'
                (mkTraceState (used st') (calls st' ++ [(loop, nth 0 triOnLoop 0)]))
          end
      end
  end.

(** The tracing part of [addCaps], started with nothing used.  The fuel
    is one more than the number of boundary edges. *)
Definition traceBoundary (r : StlReader) (triangleIndices : list nat) : option TraceState :=
  let bes := boundaryEdges r triangleIndices in
  traceAll bes (buildNextMap bes) (S (length bes)) (mkTraceState [] []).

(** [StlReader::addCaps]: the subset, then the caps. *)
Definition addCaps (r : StlReader) (triangleIndices : list nat) : option (list Triangle) :=
  let out := map (getTriangle r) (filter (fun i => i <? triangleCount r) triangleIndices) in
  match vertices_ r with
  | [] => Some out
  | _ :: _ =>
      match boundaryEdges r triangleIndices with
      | [] => Some out
      | _ :: _ =>
          match traceBoundary r triangleIndices with
          | None => None
          | Some st =>
              Some (out ++ flat_map (fun c => capOneLoop r (fst c) (snd c)) (calls st))
          end
      end
  end.

(* ================================================================== *)
(** * The mesh cleaner *)
(* ================================================================== *)

(** [i == j || j == k || k == i]. *)
Definition degenerateKey (t : Key3) : bool :=
  let '(i, j, k) := t in (i =? j) || (j =? k) || (k =? i).

(** The deduplication loop: [seen] is the set of sorted keys; the result
    is [uniqueTris] and [dupTris]. *)
Fixpoint dedupTris (seen : list Key3) (l : list Key3) : list Key3 * nat :=
  match l with
  | [] => ([], 0)
  | tri :: rest =>
      let key := sort3 tri in
      if kset_mem key seen then
        let '(u, d) := dedupTris seen rest in (u, S d)
      else
        let '(u, d) := dedupTris (key :: seen) rest in (tri :: u, d)
  end.

(** [edgeCount[edgeKey(a, b)]++] for the three sides of every triangle. *)
Definition bump (o : option nat) : nat :=
  match o with
  | Some n => S n
  | None => 1
  end.

Definition countTriEdges (m : EdgeMap nat) (t : Key3) : EdgeMap nat :=
  let '(a, b, c) := t in
  let m1 := upd pair_compare (edgeKey a b) bump m in
  let m2 := upd pair_compare (edgeKey b c) bump m1 in
  upd pair_compare (edgeKey c a) bump m2.

Definition edgeCount (l : list Key3) : EdgeMap nat := fold_left countTriEdges l [].

Definition count_if (A : Type) (p : A -> bool) (l : list A) : nat := length (filter p l).

(** The last loop of [cleanMesh]: the triangle rebuilt from the merged
    table, dropped when its cross product is at most [1e-10f] long. *)
Definition rebuild (verts : list Vec3) (tri : Key3) : list Triangle :=
  let '(i, j, k) := tri in
  let a := nth i verts vzero in
  let b := nth j verts vzero in
  let c := nth k verts vzero in
  let n := edgeCross a b c in
  let len := vlen n in
  if F32.le len F32.c1em10 then [] else [mkTriangle (vscale_inv n len) a b c].

Local Close Scope f32_scope.

(** The figures [cleanMesh] reports. *)
Record CleanReport := mkCleanReport {
  dupTris : nat;
  totalVertexRefs : nat;
  uniqueVerts : nat;
  degenerate : nat;
  dupEdges : nat;
  initialTris : nat;
  finalTris : nat
}.

Definition cleanReportText (c : CleanReport) : string :=
  ("Clean triangles report:" ++ newline
   ++ "  Duplicate triangles removed: " ++ show (dupTris c) ++ newline
   ++ "  Vertices: " ++ show (totalVertexRefs c) ++ " refs -> " ++ show (uniqueVerts c)
   ++ " unique (merged " ++ show (totalVertexRefs c - uniqueVerts c)%nat
   ++ " duplicate positions)" ++ newline
   ++ "  Degenerate triangles removed: " ++ show (degenerate c) ++ newline
   ++ (if (0 <? dupEdges c)%nat
       then "  Non-manifold edges (shared by >2 triangles): " ++ show (dupEdges c) ++ newline
       else "")
   ++ "  Triangles before: " ++ show (initialTris c) ++ "  after: " ++ show (finalTris c)
   ++ newline)%string.

(** The body of [cleanMesh] past the test for an empty list. *)
Definition cleanCore (triangles : list Triangle) : list Triangle * CleanReport :=
  let '(keys, (_, verts)) := indexAll triangles ([], []) in
  let indexed := filter (fun t => negb (degenerateKey t)) keys in
  let '(uniqueTris, dups) := dedupTris [] indexed in
  let out := flat_map (rebuild verts) uniqueTris in
  (out,
   mkCleanReport dups (length triangles * 3) (length verts)
     (count_if degenerateKey keys)
     (count_if (fun kv => 2 <? snd kv) (edgeCount uniqueTris))
     (length triangles) (length out)).

(** [StlReader::cleanMesh]: the new content of [triangles] and the text
    written to [out]. *)
Definition cleanMesh (triangles : list Triangle) : list Triangle * string :=
  match triangles with
  | [] => ([], ("No triangles." ++ newline)%string)
  | _ :: _ => let '(out, c) := cleanCore triangles in (out, cleanReportText c)
  end.

(* ================================================================== *)
(** * The fluid pipeline *)
(* ================================================================== *)

(** [std::swap(v1, v2)] and the negation of the normal. *)
Definition flipCap (t : Triangle) : Triangle :=
  mkTriangle (Vec3_neg (normal t)) (v0 t) (v2 t) (v1 t).

(** The loop [for (i = n; i < outFluid.size(); ++i)]. *)
Definition flipFrom (n : nat) (l : list Triangle) : list Triangle :=
  firstn n l ++ map flipCap (skipn n l).

(** The list handed to [cleanMesh] by [computeFluidMesh]. *)
Definition fluidBeforeClean (r : StlReader) (originOffset tMin tEps : float)
  : option (list Triangle) :=
  let ev := evenHitTriangles r originOffset tMin tEps in
  match addCaps r ev with
  | None => None
  | Some outFluid => Some (flipFrom (length ev) outFluid)
  end.

(** [StlReader::computeFluidMesh]: [outFluid] and the text written to
    [cleanMeshOut]. *)
Definition computeFluidMesh (r : StlReader) (originOffset tMin tEps : float)
  : option (list Triangle * string) :=
  match fluidBeforeClean r originOffset tMin tEps with
  | None => None
  | Some l => Some (cleanMesh l)
  end.

(** The default arguments of [computeFluidMesh]. *)
Definition computeFluidMesh_default (r : StlReader) : option (list Triangle * string) :=
  computeFluidMesh r F32.c1em4 F32.c1em2 F32.c1em4.

(* ================================================================== *)
(** * The watertightness check *)
(* ================================================================== *)

Definition tri_key (t : IndexedTri) : Key3 := (i0 t, i1 t, i2 t).

(** The first loop of [checkWatertight]: [duplicateTriangles]. *)
Fixpoint countDuplicates (seen : list Key3) (l : list IndexedTri) : nat :=
  match l with
  | [] => 0
  | id :: rest =>
      let key := sort3 (tri_key id) in
      if kset_mem key seen then S (countDuplicates seen rest)
      else countDuplicates (key :: seen) rest
  end.

(** [area2 <= areaEps * areaEps]. *)
Definition degenerateTri (r : StlReader) (id : IndexedTri) : bool :=
  let n := edgeCross (vertexAt r (i0 id)) (vertexAt r (i1 id)) (vertexAt r (i2 id)) in
  F32.le (norm2 n) (F32.mul F32.c1em10 F32.c1em10).

(** The figures [checkWatertight] reports. *)
Record WatertightReport := mkWatertightReport {
  duplicateTriangles : nat;
  uniqueEdges : nat;
  boundaryCount : nat;
  nonManifoldEdges : nat;
  degenerateCount : nat
}.

Definition watertightStats (r : StlReader) : WatertightReport :=
  let ec := edgeCount (map tri_key (indexedTriangles_ r)) in
  mkWatertightReport
    (countDuplicates [] (indexedTriangles_ r))
    (length ec)
    (count_if (fun kv => snd kv =? 1) ec)
    (count_if (fun kv => negb (snd kv =? 1) && (2 <? snd kv)) ec)
    (count_if (degenerateTri r) (indexedTriangles_ r)).

Definition watertightFlag (w : WatertightReport) : bool :=
  (duplicateTriangles w =? 0) && (boundaryCount w =? 0)
  && (nonManifoldEdges w =? 0) && (degenerateCount w =? 0).

Definition watertightText (r : StlReader) (w : WatertightReport) : string :=
  ((if (0 <? duplicateTriangles w)%nat
    then "Duplicate triangles: " ++ show (duplicateTriangles w) ++ newline else "")
   ++ "Edges: " ++ show (uniqueEdges w) ++ " unique; " ++ show (boundaryCount w)
   ++ " boundary (count=1), " ++ show (nonManifoldEdges w) ++ " non-manifold (count>2)"
   ++ newline
   ++ (if (0 <? degenerateCount w)%nat
       then "Degenerate triangles (zero area): " ++ show (degenerateCount w) ++ newline
       else "")
   ++ "Vertices: " ++ show (length (vertices_ r)) ++ " unique (from "
   ++ show (triangleCount r) ++ " triangles)" ++ newline
   ++ "Watertight: " ++ (if watertightFlag w then "yes" else "no") ++ newline)%string.

(** [StlReader::checkWatertight]: the value returned and the text
    written to [out]. *)
Definition checkWatertight (r : StlReader) : bool * string :=
  match indexedTriangles_ r with
  | [] => (false, ("Watertight: no triangles" ++ newline)%string)
  | _ :: _ =>
      let w := watertightStats r in
      (watertightFlag w, watertightText r w)
  end.

(* ================================================================== *)
(** * Specification-level notions *)
(* ================================================================== *)

(** ** The order of floats

    The rank of a float that is not a NaN: comparing two floats is
    comparing their ranks lexicographically. *)
Definition fkey (a : float) : Z * Z * Z :=
  match a with
  | S754_nan => (0, 0, 0)%Z
  | S754_zero _ => (0, 0, 0)%Z
  | S754_infinity true => (-2, 0, 0)%Z
  | S754_infinity false => (2, 0, 0)%Z
  | S754_finite true m e => (-1, - e, Z.neg m)%Z
  | S754_finite false m e => (1, e, Z.pos m)%Z
  end.

Definition key_compare (p q : Z * Z * Z) : comparison :=
  let '(a1, a2, a3) := p in
  let '(b1, b2, b3) := q in
  match (a1 ?= b1)%Z with
  | Eq => match (a2 ?= b2)%Z with
          | Eq => (a3 ?= b3)%Z
          | c => c
          end
  | c => c
  end.

Definition key_lt (p q : Z * Z * Z) : Prop :=
  let '(a1, a2, a3) := p in
  let '(b1, b2, b3) := q in
  (a1 < b1 \/ (a1 = b1 /\ (a2 < b2 \/ (a2 = b2 /\ a3 < b3))))%Z.

(** The value of a float up to the sign of zero: two floats that are not
    NaN compare equal exactly when their [fnorm] is the same. *)
Definition fnorm (a : float) : float :=
  match a with
  | S754_zero _ => S754_zero false
  | _ => a
  end.

Definition vnorm (v : Vec3) : Vec3 := mkVec3 (fnorm (x v)) (fnorm (y v)) (fnorm (z v)).

(** No coordinate is a NaN: on such positions [Vec3::operator<] is a
    strict weak order, which [std::map] requires of its keys. *)
Definition vec_ok (v : Vec3) : bool :=
  negb (F32.is_nan (x v)) && negb (F32.is_nan (y v)) && negb (F32.is_nan (z v)).

Definition positions (ts : list Triangle) : list Vec3 :=
  flat_map (fun t => [v0 t; v1 t; v2 t]) ts.

Definition key_indices (ks : list Key3) : list nat :=
  flat_map (fun k => let '(a, b, c) := k in [a; b; c]) ks.

(** ** Sorted maps *)

(** The keys of an ordered map increase strictly. *)
Definition keys_sorted (K V : Type) (cmp : K -> K -> comparison) (m : list (K * V)) : Prop :=
  StronglySorted (fun p q => cmp (fst p) (fst q) = Lt) m.

(** ** Boundary tracing *)

Definition edgePair (e : DirectedEdge) : nat * nat := (from e, to e).

(** The boundary edges not yet consumed: the measure that decreases
    along both tracing loops. *)
Definition unusedCount (bes : list DirectedEdge) (u : list (nat * nat)) : nat :=
  count_if (fun e => negb (pset_count (edgePair e) u)) bes.

(** The consecutive edges of a loop handed to the capper, the closing
    edge from the last vertex to the first included. *)
Definition loopEdges (loop : list nat) : list (nat * nat) :=
  map (fun i => (nth i loop 0, nth ((i + 1) mod length loop) loop 0))
      (seq 0 (length loop)).

(** The loops that get a fan of caps: [capOneLoop] returns at once on a
    path of fewer than three vertices. *)
Definition cappedLoops (st : TraceState) : list (list nat) :=
  filter (fun loop => negb (length loop <? 3)) (map fst (calls st)).

Definition olist (A : Type) (o : option (list A)) : list A :=
  match o with
  | Some l => l
  | None => []
  end.

(** The invariant of the tracing: only boundary edges are consumed, none
    of them twice. *)
Definition trace_inv (bes : list DirectedEdge) (u : list (nat * nat)) : Prop :=
  NoDup u /\ incl u (map edgePair bes).

(** The invariant of [edgeToDirected]: sorted keys, and every directed
    edge filed under its own canonical key. *)
Definition edges_inv (m : EdgeMap (list DirectedEdge)) : Prop :=
  keys_sorted pair_compare m
  /\ forall k es, In (k, es) m -> forall e, In e es -> edgeKey (from e) (to e) = k.

(* ================================================================== *)
(** * Meshes used as examples *)
(* ================================================================== *)

Definition vec (a b c : Z) : Vec3 := mkVec3 (F32.of_Z a) (F32.of_Z b) (F32.of_Z c).

(** The facet of tests/test_runner.cpp: (1,0,0), (0,1,0), (0,0,1) with
    the stored normal (1,1,1). *)
Definition unit_facet : Triangle :=
  mkTriangle (vec 1 1 1) (vec 1 0 0) (vec 0 1 0) (vec 0 0 1).

Definition simple_mesh : StlReader := build [unit_facet].

(** Two facets that run along their common edge in the same direction:
    (0,0,0) (1,0,0) (0,1,0) in the plane z = 0 and (0,1,0) (0,0,0) (0,0,1)
    in the plane x = 0.  The common edge is therefore no boundary edge,
    and the boundary consists of two open paths that end at (0,1,0). *)
Definition fins_mesh : StlReader :=
  build [mkTriangle (vec 0 0 1) (vec 0 0 0) (vec 1 0 0) (vec 0 1 0);
         mkTriangle (vec 1 0 0) (vec 0 1 0) (vec 0 0 0) (vec 0 0 1)].

(* ================================================================== *)
(** * Notions for the vertex merge *)
(* ================================================================== *)

(** The lookups of a list of positions, one after the other: what
    [indexAll] does to the positions of its triangles. *)
Fixpoint indexSeq (vs : list Vec3) (st : VMap * list Vec3)
  : list nat * (VMap * list Vec3) :=
  match vs with
  | [] => ([], st)
  | v :: rest =>
      let '(i, st1) := getIdx v st in
      let '(js, st2) := indexSeq rest st1 in
      (i :: js, st2)
  end.

(** No two slots of a vertex table hold equivalent positions. *)
Definition table_distinct (verts : list Vec3) : Prop :=
  forall i j, i < length verts -> j < length verts ->
    Vec3_equiv (nth i verts vzero) (nth j verts vzero) = true -> i = j.

(** The invariant of the merge: the map holds every slot of the table
    under its index, and the table has no two equivalent slots. *)
Definition vmap_inv (st : VMap * list Vec3) : Prop :=
  fst st = rev (combine (snd st) (seq 0 (length (snd st))))
  /\ table_distinct (snd st).

(** What a merged index is to its position: a slot of the table that
    holds an equivalent position. *)
Definition slot_of (verts : list Vec3) (v : Vec3) (i : nat) : Prop :=
  i < length verts /\ Vec3_equiv (nth i verts vzero) v = true.

(** The merged indices of a mesh, three per facet. *)
Definition mesh_indices (r : StlReader) : list nat :=
  flat_map (fun t => [i0 t; i1 t; i2 t]) (indexedTriangles_ r).


(* ================================================================== *)
(** * Notions for the watertightness check *)
(* ================================================================== *)

(** The three undirected edges of an index triple, and those of a list. *)
Definition triEdges (k : Key3) : list (nat * nat) :=
  let '(a, b, c) := k in [edgeKey a b; edgeKey b c; edgeKey c a].

Definition meshEdges (r : StlReader) : list (nat * nat) :=
  flat_map triEdges (map tri_key (indexedTriangles_ r)).

(** The incidence of an undirected edge: the number of facet sides that
    lie on it. *)
Definition incidence (es : list (nat * nat)) (e : nat * nat) : nat :=
  count_if (pair_eqb e) es.

Definition ocount (o : option nat) : nat :=
  match o with
  | Some n => n
  | None => 0
  end.

(* ================================================================== *)
(** * Notions for the mesh cleaner *)
(* ================================================================== *)

(** What becomes of a triangle in the first two loops of [cleanMesh],
    told from the index triples of the triangles before it. *)
Inductive Fate := Degenerate | Duplicate | Kept.

Definition is_degenerate (f : Fate) : bool :=
  match f with Degenerate => true | _ => false end.

Definition is_duplicate (f : Fate) : bool :=
  match f with Duplicate => true | _ => false end.

(** [t] repeats an earlier triangle that is not degenerate: the same
    three indices in any order. *)
Definition repeats (earlier : list Key3) (t : Key3) : bool :=
  existsb (fun u => negb (degenerateKey u) && key3_eqb (sort3 u) (sort3 t)) earlier.

Definition fate (earlier : list Key3) (t : Key3) : Fate :=
  if degenerateKey t then Degenerate
  else if repeats earlier t then Duplicate
  else Kept.

Fixpoint fates (earlier : list Key3) (l : list Key3) : list Fate :=
  match l with
  | [] => []
  | t :: rest => fate earlier t :: fates (t :: earlier) rest
  end.

(** The triangles that pass the first two loops, and what the last loop
    makes of them. *)
Definition keptKeys (keys : list Key3) : list Key3 :=
  flat_map (fun kf => match snd kf with Kept => [fst kf] | _ => [] end)
           (combine keys (fates [] keys)).

(** The test of the last loop of [cleanMesh] on the positions a, b, c. *)
Definition nearZeroArea (a b c : Vec3) : bool :=
  F32.le (vlen (edgeCross a b c)) F32.c1em10.

(** The facet of [test_clean_mesh_removes_duplicates], the facet of
    [test_clean_mesh_removes_degenerate], and a facet with three distinct
    vertices on one line. *)
Definition flat_facet : Triangle :=
  mkTriangle (vec 0 0 1) (vec 0 0 0) (vec 1 0 0) (vec 0 1 0).

Definition repeated_vertex_facet : Triangle :=
  mkTriangle (vec 0 0 1) (vec 0 0 0) (vec 0 0 0) (vec 1 0 0).

Definition collinear_facet : Triangle :=
  mkTriangle (vec 0 0 1) (vec 0 0 0) (vec 1 0 0) (vec 2 0 0).

(** The four faces of the tetrahedron with corners at the origin and on
    the three axes, wound outwards. *)
Definition tetra_mesh : StlReader :=
  build [mkTriangle vzero (vec 1 0 0) (vec 0 1 0) (vec 0 0 1);
         mkTriangle vzero (vec 0 0 0) (vec 0 1 0) (vec 1 0 0);
         mkTriangle vzero (vec 0 0 0) (vec 0 0 1) (vec 0 1 0);
         mkTriangle vzero (vec 0 0 0) (vec 1 0 0) (vec 0 0 1)].

(** The set [seen] holds the sorted keys of the earlier triangles that
    are not degenerate. *)
Definition seen_inv (seen earlier : list Key3) : Prop :=
  forall t, kset_mem (sort3 t) seen = repeats earlier t.

(* ================================================================== *)
(** * Notions for the interior classifier *)
(* ================================================================== *)


(** The first-in-run greedy merge, as a relation: [GreedyCount tEps last
    ds n] holds when [n] distinct hits are counted in [ds] after a hit
    counted at distance [last].  A hit starts a new distinct hit exactly
    when its distance exceeds [last] by more than [tEps]; it then becomes
    the last counted hit. *)
Inductive GreedyCount (tEps : float) : float -> list float -> nat -> Prop :=
| Greedy_nil : forall last, GreedyCount tEps last [] 0
| Greedy_new : forall last t ds n,
    F32.gt (F32.sub t last) tEps = true ->
    GreedyCount tEps t ds n ->
    GreedyCount tEps last (t :: ds) (S n)
| Greedy_merged : forall last t ds n,
    F32.gt (F32.sub t last) tEps = false ->
    GreedyCount tEps last ds n ->
    GreedyCount tEps last (t :: ds) n.





(** ** A second pass over cleaned triangles *)

(** The facet the last loop of [cleanMesh] builds from an index triple,
    and its area test. *)
Definition facetOf (verts : list Vec3) (k : Key3) : Triangle :=
  let '(a, b, c) := k in
  let va := nth a verts vzero in
  let vb := nth b verts vzero in
  let vc := nth c verts vzero in
  mkTriangle (vscale_inv (edgeCross va vb vc) (vlen (edgeCross va vb vc))) va vb vc.

Definition keyFlat (verts : list Vec3) (k : Key3) : bool :=
  let '(a, b, c) := k in
  nearZeroArea (nth a verts vzero) (nth b verts vzero) (nth c verts vzero).

Definition key_in_range (n : nat) (k : Key3) : Prop :=
  let '(a, b, c) := k in a < n /\ b < n /\ c < n.

(** The triple [k'] over the table [V] names the same three positions,
    in the same order, as the triple [k] over the table [T]. *)
Definition same_slots (T V : list Vec3) (k k' : Key3) : Prop :=
  let '(a, b, c) := k in
  let '(a', b', c') := k' in
  nth a' V vzero = nth a T vzero
  /\ nth b' V vzero = nth b T vzero
  /\ nth c' V vzero = nth c T vzero.

(** Two triples hold the same three indices in some order. *)
Definition same3 (k k' : Key3) : Prop :=
  let '(a, b, c) := k in
  let '(u, v, w) := k' in
  (a = u /\ b = v /\ c = w) \/ (a = u /\ b = w /\ c = v)
  \/ (a = v /\ b = u /\ c = w) \/ (a = v /\ b = w /\ c = u)
  \/ (a = w /\ b = u /\ c = v) \/ (a = w /\ b = v /\ c = u).

(* ================================================================== *)
(** * Notions for the caps *)
(* ================================================================== *)

(** The cross product [(a - C) x (b - C)] of a candidate cap. *)
Definition capCross (C va vb : Vec3) : Vec3 :=
  mkVec3
    (F32.sub (F32.mul (F32.sub (y va) (y C)) (F32.sub (z vb) (z C)))
             (F32.mul (F32.sub (z va) (z C)) (F32.sub (y vb) (y C))))
    (F32.sub (F32.mul (F32.sub (z va) (z C)) (F32.sub (x vb) (x C)))
             (F32.mul (F32.sub (x va) (x C)) (F32.sub (z vb) (z C))))
    (F32.sub (F32.mul (F32.sub (x va) (x C)) (F32.sub (y vb) (y C)))
             (F32.mul (F32.sub (y va) (y C)) (F32.sub (x vb) (x C)))).

(** The candidate cap is dropped: its cross product is at most 1e-10f
    long. *)
Definition capSkipped (C va vb : Vec3) : bool :=
  F32.le (vlen (capCross C va vb)) F32.c1em10.

(** The facet that owns the boundary edge [a -> b]. *)
Definition ownerOf (bes : list DirectedEdge) (a b : nat) : option nat :=
  match find (fun e => (from e =? a) && (to e =? b)) bes with
  | Some e => Some (triIdx e)
  | None => None
  end.

(** Two facets folded along their common edge, wound consistently:
    (0,0,0) (2,0,0) (1,2,0) in the plane z = 0, and (2,0,0) (0,0,0)
    (1,2,2) leaning over it. *)
Definition tent_mesh : StlReader :=
  build [mkTriangle vzero (vec 0 0 0) (vec 2 0 0) (vec 1 2 0);
         mkTriangle vzero (vec 2 0 0) (vec 0 0 0) (vec 1 2 2)].

(** A cap on the loop edge from [p] to [q], in the order the dot product
    decides: (C,p,q) or (C,q,p). *)
Definition orientedCap (keep : bool) (n C p q : Vec3) : Triangle :=
  if keep then mkTriangle n C p q else mkTriangle n C q p.

(** Every undirected edge of the mesh read back from a triangle list has
    incidence 2. *)
Definition edges_closed (l : list Triangle) : Prop :=
  forall e, In e (meshEdges (build l)) -> incidence (meshEdges (build l)) e = 2.

Definition four_distinct (p0 p1 p2 c : Vec3) : Prop :=
  Vec3_equiv p0 p1 = false /\ Vec3_equiv p1 p2 = false /\ Vec3_equiv p0 p2 = false
  /\ Vec3_equiv p0 c = false /\ Vec3_equiv p1 c = false /\ Vec3_equiv p2 c = false.

(** One facet with three distinct vertices on one line, as a mesh. *)
Definition collinear_mesh : StlReader := build [collinear_facet].

(** Three parallel facets stacked along z, all wound with the normal +z:
    the ray of the lowest one meets the two above it. *)
Definition stack_mesh : StlReader :=
  build [mkTriangle vzero (vec 0 0 0) (vec 4 0 0) (vec 0 4 0);
         mkTriangle vzero (vec 0 0 1) (vec 4 0 1) (vec 0 4 1);
         mkTriangle vzero (vec 0 0 2) (vec 4 0 2) (vec 0 4 2)].

(* ================================================================== *)
(** * Notions for the further properties *)
(* ================================================================== *)

(** Two facets with the same three positions in the same order; their
    stored normals may differ. *)
Definition same_positions (t u : Triangle) : Prop :=
  v0 t = v0 u /\ v1 t = v1 u /\ v2 t = v2 u.

(** The three directed sides of facet [ti], in the order the first loop
    of [addCaps] files them, and those of a subset: the indices that are
    out of range contribute nothing. *)
Definition triDirected (r : StlReader) (ti : nat) : list DirectedEdge :=
  let id := triAt r ti in
  [mkDirectedEdge (i0 id) (i1 id) ti;
   mkDirectedEdge (i1 id) (i2 id) ti;
   mkDirectedEdge (i2 id) (i0 id) ti].

Definition subsetDirected (r : StlReader) (triangleIndices : list nat) : list DirectedEdge :=
  flat_map (triDirected r) (filter (fun i => i <? triangleCount r) triangleIndices).

Definition undirected (e : DirectedEdge) : nat * nat := edgeKey (from e) (to e).

(** The number of directed sides that lie on the undirected edge [k]. *)
Definition sharing (des : list DirectedEdge) (k : nat * nat) : nat :=
  count_if (fun e => pair_eqb (undirected e) k) des.

(** [edgeToDirected[key].push_back(e)]. *)
Definition fileEdge (m : EdgeMap (list DirectedEdge)) (e : DirectedEdge)
  : EdgeMap (list DirectedEdge) :=
  upd pair_compare (undirected e) (push_back e) m.

(** The total number of vertices in the loops handed to [capOneLoop]. *)
Definition callsSize (cs : list (list nat * nat)) : nat :=
  list_sum (map (fun c => length (fst c)) cs).

(** The mesh with every facet wound the other way, [v1] and [v2]
    exchanged, and the mesh with every stored facet normal negated. *)
Definition reverseWinding (r : StlReader) : StlReader :=
  mkStlReader (header_ r) (triangles_ r) (vertices_ r)
    (map (fun t => mkIndexedTri (i0 t) (i2 t) (i1 t)) (indexedTriangles_ r))
    (originalFacetNormals_ r).

Definition negateStoredNormals (r : StlReader) : StlReader :=
  mkStlReader (header_ r) (triangles_ r) (vertices_ r) (indexedTriangles_ r)
    (map Vec3_neg (originalFacetNormals_ r)).

(* ================================================================== *)
(** * The winding check *)
(* ================================================================== *)

(** [const float tol = 1e-5f]. *)
Definition tol : float := F32.decimal 1 5.

(** The state of the loop of [checkRightHandWinding]: the counters [ok]
    and [wrong], and for every line written in the loop the facet index
    and the dot product it shows. *)
Record WindingState := mkWindingState {
  ok : nat;
  wrong : nat;
  opposite : list (nat * float)
}.

(** One round of the loop, for facet [i]. *)
Definition windingStep (r : StlReader) (st : WindingState) (i : nat) : WindingState :=
  let t := getTriangle r i in
  let n := edgeCross (v0 t) (v1 t) (v2 t) in
  let len := vlen n in
  if F32.le len F32.zero then st else
  let nn := vscale_inv n len in
  let orig := nth i (originalFacetNormals_ r) vzero in
  let dot := dot3 nn orig in
  if F32.gt dot tol then mkWindingState (S (ok st)) (wrong st) (opposite st)
  else if F32.lt dot (F32.opp tol)
       then mkWindingState (ok st) (S (wrong st)) (opposite st ++ [(i, dot)])
       else st.

Definition windingLoop (r : StlReader) : WindingState :=
  fold_left (windingStep r) (seq 0 (triangleCount r)) (mkWindingState 0 0 []).

(** The dot product of the normalised cross product of facet [i] with
    its stored normal, and the test that skips the facet. *)
Definition windingSkipped (r : StlReader) (i : nat) : bool :=
  let t := getTriangle r i in
  F32.le (vlen (edgeCross (v0 t) (v1 t) (v2 t))) F32.zero.

Definition windingDot (r : StlReader) (i : nat) : float :=
  let t := getTriangle r i in
  let n := edgeCross (v0 t) (v1 t) (v2 t) in
  dot3 (vscale_inv n (vlen n)) (nth i (originalFacetNormals_ r) vzero).

(* ================================================================== *)
(** * The text written by the writers and by the winding check *)
(* ================================================================== *)

(** [std::string::back] and [std::string::pop_back]. *)
Fixpoint back (s : string) : ascii :=
  match s with
  | EmptyString => Ascii.zero
  | String c EmptyString => c
  | String _ rest => back rest
  end.

Fixpoint pop_back (s : string) : string :=
  match s with
  | EmptyString => EmptyString
  | String _ EmptyString => EmptyString
  | String c rest => String c (pop_back rest)
  end.

(** [c == '\0' || c == ' ']. *)
Definition isPadding (c : ascii) : bool := Ascii.eqb c Ascii.zero || Ascii.eqb c " "%char.

(** The loop [while (!name.empty() && (name.back() == '\0' ||
    name.back() == ' ')) name.pop_back()] of [writeAsciiStl]; it runs at
    most once per character of the header, which is the fuel
    [solidName] gives it. *)
Fixpoint trimName (fuel : nat) (name : string) : string :=
  match fuel with
  | O => name
  | S fuel' =>
      match name with
      | EmptyString => name
      | String _ _ => if isPadding (back name) then trimName fuel' (pop_back name) else name
      end
  end.

(** The name [writeAsciiStl] writes after [solid] and [endsolid]. *)
Definition solidName (header : string) : string :=
  match trimName (String.length header) header with
  | EmptyString => "triangles"%string
  | String c rest => String c rest
  end.

(** Every character is a NUL or a space. *)
Fixpoint all_padding (s : string) : bool :=
  match s with
  | EmptyString => true
  | String c rest => isPadding c && all_padding rest
  end.

(** The text is the content of the file, or what is appended to the
    stream, when the stream is good; the value returned by the writers,
    the state of the stream at the end, is not part of the model.
    [show_float] is [operator<<] of [std::ostream] for a [float], which
    the standard library provides. *)
Section Printing.
Variable show_float : float -> string.

(** [StlReader::writeOneFacet]. *)
Definition writeOneFacet (t : Triangle) : string :=
  ("  facet normal " ++ show_float (x (normal t)) ++ " " ++ show_float (y (normal t))
   ++ " " ++ show_float (z (normal t)) ++ newline
   ++ "    outer loop" ++ newline
   ++ "      vertex " ++ show_float (x (v0 t)) ++ " " ++ show_float (y (v0 t))
   ++ " " ++ show_float (z (v0 t)) ++ newline
   ++ "      vertex " ++ show_float (x (v1 t)) ++ " " ++ show_float (y (v1 t))
   ++ " " ++ show_float (z (v1 t)) ++ newline
   ++ "      vertex " ++ show_float (x (v2 t)) ++ " " ++ show_float (y (v2 t))
   ++ " " ++ show_float (z (v2 t)) ++ newline
   ++ "    endloop" ++ newline ++ "  endfacet" ++ newline)%string.

(** [StlReader::writeAsciiStl(path)]. *)
Definition writeAsciiStl (r : StlReader) : string :=
  let name := solidName (header_ r) in
  (fold_left (fun f i => f ++ writeOneFacet (getTriangle r i))
             (seq 0 (triangleCount r))
             ("solid " ++ name ++ newline)
   ++ "endsolid " ++ name ++ newline)%string.

(** [StlReader::writeAsciiStl(path, onlyIndices)]. *)
Definition writeAsciiStl_onlyIndices (r : StlReader) (onlyIndices : list nat) : string :=
  (fold_left
     (fun f k => if (k <? triangleCount r)%nat then f ++ writeOneFacet (getTriangle r k) else f)
     onlyIndices
     ("solid even_hits" ++ newline)
   ++ "endsolid even_hits" ++ newline)%string.

(** [StlReader::writeAsciiStlFromTriangles]. *)
Definition writeAsciiStlFromTriangles (triangles : list Triangle) : string :=
  (fold_left (fun f t => f ++ writeOneFacet t) triangles ("solid fluid" ++ newline)
   ++ "endsolid fluid" ++ newline)%string.

(** One line of the loop of [checkRightHandWinding]. *)
Definition windingLine (e : nat * float) : string :=
  ("  triangle " ++ show (fst e) ++ " opposite winding (dot=" ++ show_float (snd e) ++ ")"
   ++ newline)%string.

(** [StlReader::checkRightHandWinding]: the text written to [out]. *)
Definition checkRightHandWinding (r : StlReader) : string :=
  if negb (length (originalFacetNormals_ r) =? length (indexedTriangles_ r))
  then EmptyString
  else
    let st := windingLoop r in
    (fold_left (fun out e => out ++ windingLine e) (opposite st) EmptyString
     ++ "Right-hand rule: " ++ show (ok st) ++ " OK, " ++ show (wrong st)
     ++ " opposite winding" ++ newline)%string.

(** The facets of a list, one after the other. *)
Definition facetsText (ts : list Triangle) : string :=
  String.concat EmptyString (map writeOneFacet ts).
End Printing.

(* ================================================================== *)
(** * Reading a file *)
(* ================================================================== *)

(** The state of the [std::ifstream]: the characters not yet extracted
    and the two state bits that the code can observe through
    [operator!], which is [fail()].  Errors of the device ([badbit]) are
    not modelled. *)
Record IStream := mkIStream {
  unread : list ascii;
  failbit : bool;
  eofbit : bool
}.

Definition good (f : IStream) : bool := negb (failbit f) && negb (eofbit f).

(** [f.read(s, n)]: on a stream that is not good nothing is extracted and
    [failbit] is set; otherwise [n] characters are extracted, or, when
    fewer are left, what is left, and [failbit] and [eofbit] are set. *)
Definition sread (n : nat) (f : IStream) : list ascii * IStream :=
  if good f then
    if n <=? length (unread f)
    then (firstn n (unread f), mkIStream (skipn n (unread f)) false false)
    else (unread f, mkIStream [] true true)
  else ([], mkIStream (unread f) true (eofbit f)).

(** [f.ignore(n)]: as [read], but reaching the end of the file sets
    [eofbit] only. *)
Definition signore (n : nat) (f : IStream) : IStream :=
  if good f then
    if n <=? length (unread f)
    then mkIStream (skipn n (unread f)) false false
    else mkIStream [] false true
  else mkIStream (unread f) true (eofbit f).

(** The value of a little-endian sequence of bytes, and the [float] with
    a given bit pattern. *)
Definition le_bytes (bs : list ascii) : N :=
  fold_right (fun b acc => (N_of_ascii b + 256 * acc)%N) 0%N bs.

Definition float_of_bits (w : N) : float :=
  let sign := N.testbit w 31 in
  let e := ((w / 2 ^ 23) mod 256)%N in
  let m := (w mod 2 ^ 23)%N in
  if (e =? 0)%N then
    match m with
    | N0 => S754_zero sign
    | Npos p => S754_finite sign p (-149)
    end
  else if (e =? 255)%N then
    match m with
    | N0 => S754_infinity sign
    | Npos _ => S754_nan
    end
  else
    match (m + 2 ^ 23)%N with
    | N0 => S754_nan
    | Npos p => S754_finite sign p (Z.of_N e - 150)
    end.

(** The bytes of an object that was value-initialised and then
    overwritten by the characters a [read] extracted. *)
Definition padTo (k : nat) (bs : list ascii) : list ascii :=
  firstn k (bs ++ repeat Ascii.zero k).

(** The three [float]s that [read(&v.x, 12)] stores. *)
Definition decodeVec3 (bs : list ascii) : Vec3 :=
  let b := padTo 12 bs in
  mkVec3 (float_of_bits (le_bytes (firstn 4 b)))
         (float_of_bits (le_bytes (firstn 4 (skipn 4 b))))
         (float_of_bits (le_bytes (firstn 4 (skipn 8 b)))).

(** One round of the loop over the facets of a binary file. *)
Definition readFacet (f : IStream) : Triangle * IStream :=
  let '(bn, f1) := sread 12 f in
  let '(b0, f2) := sread 12 f1 in
  let '(b1, f3) := sread 12 f2 in
  let '(b2, f4) := sread 12 f3 in
  (mkTriangle (decodeVec3 bn) (decodeVec3 b0) (decodeVec3 b1) (decodeVec3 b2),
   signore 2 f4).

Fixpoint readFacets (n : nat) (f : IStream) : list Triangle * IStream :=
  match n with
  | O => ([], f)
  | S n' =>
      let '(t, f1) := readFacet f in
      let '(ts, f2) := readFacets n' f1 in
      (t :: ts, f2)
  end.

(** [strncmp(buf, "solid", 5) == 0] on the first five characters. *)
Definition startsWithSolid (content : list ascii) : bool :=
  match content with
  | c0 :: c1 :: c2 :: c3 :: c4 :: _ =>
      Ascii.eqb c0 "s" && Ascii.eqb c1 "o" && Ascii.eqb c2 "l" && Ascii.eqb c3 "i"
      && Ascii.eqb c4 "d"
  | _ => false
  end.

(** The stream after [f.read(buf, 5); f.seekg(0)]: at the start of the
    file, or failed when the file has fewer than five characters, since
    [seekg] does nothing on a failed stream. *)
Definition afterProbe (content : list ascii) : IStream :=
  let '(_, f1) := sread 5 (mkIStream content false false) in
  if failbit f1 then mkIStream (unread f1) true false
  else mkIStream content false false.

(** The binary branch of [read]: [None] is the value [false], [Some] the
    new [header_] and [triangles_]. *)
Definition readBinary (f : IStream) : option (string * list Triangle) :=
  let '(h, f1) := sread 80 f in
  let '(nb, f2) := sread 4 f1 in
  let n := le_bytes (padTo 4 nb) in
  if failbit f2 || (100000000 <? n)%N then None else
  let '(ts, f3) := readFacets (N.to_nat n) f2 in
  if failbit f3 then None else Some (string_of_list_ascii h, ts).

(** [read] and [volumeFromFile].  [content] is [None] when the file
    cannot be opened.  The ASCII branch parses decimal numbers with
    [sscanf] and is taken as given.  When [read] returns [false] its
    callers drop the reader, whose state is not part of the model. *)
Section Reading.
Variable readAscii : list ascii -> option (string * list Triangle).

Definition read (content : option (list ascii)) : option (string * list Triangle) :=
  match content with
  | None => None
  | Some bytes =>
      if startsWithSolid bytes then readAscii bytes
      else readBinary (afterProbe bytes)
  end.

Definition volumeFromFile (content : option (list ascii)) : option double :=
  match read content with
  | None => None
  | Some (h, ts) => Some (volume (removeDuplicateVertices (mkStlReader h ts [] [] [])))
  end.
End Reading.

(** A binary file of one facet, the corner of the unit cube, without
    the two attribute bytes at its end. *)
Definition one_facet_file : list ascii :=
  repeat Ascii.zero 80
  ++ [ascii_of_nat 1; Ascii.zero; Ascii.zero; Ascii.zero]
  ++ repeat Ascii.zero 12
  ++ repeat Ascii.zero 12
  ++ [Ascii.zero; Ascii.zero; ascii_of_nat 128; ascii_of_nat 63] ++ repeat Ascii.zero 8
  ++ repeat Ascii.zero 4 ++ [Ascii.zero; Ascii.zero; ascii_of_nat 128; ascii_of_nat 63]
  ++ repeat Ascii.zero 4.

(* ================================================================== *)
(** * Facts on the comparison of floats *)
(* ================================================================== *)

Unset Implicit Arguments.

Lemma SFcompare_key (a b : float) :
  F32.is_nan a = false -> F32.is_nan b = false ->
  SFcompare a b = Some (key_compare (fkey a) (fkey b)).
Proof.
  destruct a as [sa|sa| |sa ma ea], b as [sb|sb| |sb mb eb]; simpl;
    try discriminate; intros _ _;
    try (destruct sa; reflexivity); try (destruct sb; reflexivity);
    try (destruct sa, sb; reflexivity).
  destruct sa, sb; simpl; try reflexivity.
  rewrite Z.compare_opp, (Z.compare_antisym ea eb).
  destruct (ea ?= eb)%Z; reflexivity.
Qed.

Lemma key_compare_spec (p q : Z * Z * Z) :
  match key_compare p q with
  | Eq => p = q
  | Lt => key_lt p q
  | Gt => key_lt q p
  end.
Proof.
  destruct p as [[a1 a2] a3], q as [[b1 b2] b3]; simpl.
  destruct (Z.compare_spec a1 b1); [|lia|lia].
  destruct (Z.compare_spec a2 b2); [|lia|lia].
  destruct (Z.compare_spec a3 b3); [|lia|lia].
  subst; reflexivity.
Qed.

Lemma key_lt_irrefl p : ~ key_lt p p.
Proof. destruct p as [[a1 a2] a3]; simpl; lia. Qed.

Lemma key_lt_asym p q : key_lt p q -> ~ key_lt q p.
Proof. destruct p as [[a1 a2] a3], q as [[b1 b2] b3]; simpl; lia. Qed.

Lemma key_lt_trans p q r : key_lt p q -> key_lt q r -> key_lt p r.
Proof.
  destruct p as [[a1 a2] a3], q as [[b1 b2] b3], r as [[c1 c2] c3]; simpl; lia.
Qed.

Lemma key_total p q : key_lt p q \/ p = q \/ key_lt q p.
Proof.
  pose proof (key_compare_spec p q). destruct (key_compare p q); auto.
Qed.

(** [a < b], [a == b] and [a <= b] on floats that are not NaN. *)
Lemma flt_key a b :
  F32.is_nan a = false -> F32.is_nan b = false ->
  (F32.lt a b = true <-> key_lt (fkey a) (fkey b)).
Proof.
  intros Ha Hb. unfold F32.lt, SFltb. rewrite (SFcompare_key _ _ Ha Hb).
  pose proof (key_compare_spec (fkey a) (fkey b)) as H.
  destruct (key_compare (fkey a) (fkey b)); split; intro K;
    try discriminate; try reflexivity; try assumption.
  - rewrite H in K. destruct (key_lt_irrefl _ K).
  - destruct (key_lt_asym _ _ H K).
Qed.

Lemma feq_key a b :
  F32.is_nan a = false -> F32.is_nan b = false ->
  (F32.eq a b = true <-> fkey a = fkey b).
Proof.
  intros Ha Hb. unfold F32.eq, SFeqb. rewrite (SFcompare_key _ _ Ha Hb).
  pose proof (key_compare_spec (fkey a) (fkey b)) as H.
  destruct (key_compare (fkey a) (fkey b)); split; intro K;
    try discriminate; try reflexivity; try assumption.
  - rewrite K in H. destruct (key_lt_irrefl _ H).
  - rewrite K in H. destruct (key_lt_irrefl _ H).
Qed.

Lemma fle_key a b :
  F32.is_nan a = false -> F32.is_nan b = false ->
  (F32.le a b = true <-> (key_lt (fkey a) (fkey b) \/ fkey a = fkey b)).
Proof.
  intros Ha Hb. unfold F32.le, SFleb. rewrite (SFcompare_key _ _ Ha Hb).
  pose proof (key_compare_spec (fkey a) (fkey b)) as H.
  destruct (key_compare (fkey a) (fkey b)); split; intro K;
    try discriminate; try reflexivity; auto.
  destruct K as [K|K].
  - destruct (key_lt_asym _ _ H K).
  - rewrite K in H. destruct (key_lt_irrefl _ H).
Qed.

(** A comparison with a NaN is false, and [a < a] never holds. *)
Lemma flt_nan_l a b : F32.is_nan a = true -> F32.lt a b = false.
Proof. destruct a; try discriminate. reflexivity. Qed.

Lemma flt_nan_r a b : F32.is_nan b = true -> F32.lt a b = false.
Proof. destruct b; try discriminate. destruct a; reflexivity. Qed.

Lemma flt_irrefl a : F32.lt a a = false.
Proof.
  destruct (F32.is_nan a) eqn:Ha.
  - now apply flt_nan_l.
  - destruct (F32.lt a a) eqn:K; [|reflexivity].
    apply (flt_key _ _ Ha Ha) in K. destruct (key_lt_irrefl _ K).
Qed.

Lemma fkey_fnorm a b :
  F32.is_nan a = false -> F32.is_nan b = false ->
  (fkey a = fkey b <-> fnorm a = fnorm b).
Proof.
  destruct a as [sa|sa| |sa ma ea], b as [sb|sb| |sb mb eb]; simpl;
    try discriminate; intros _ _;
    repeat match goal with s : bool |- _ => destruct s end;
    split; intro H; try discriminate H; try reflexivity;
    try (injection H; intros; subst; reflexivity).
  injection H; intros. f_equal; lia.
Qed.

(** The three ways two floats that are not NaN compare. *)
Lemma fcmp_cases p q :
  F32.is_nan p = false -> F32.is_nan q = false ->
  (F32.lt p q = true /\ F32.lt q p = false /\ F32.eq p q = false
   /\ F32.eq q p = false /\ fnorm p <> fnorm q)
  \/ (F32.lt p q = false /\ F32.lt q p = false /\ F32.eq p q = true
      /\ F32.eq q p = true /\ fnorm p = fnorm q)
  \/ (F32.lt p q = false /\ F32.lt q p = true /\ F32.eq p q = false
      /\ F32.eq q p = false /\ fnorm p <> fnorm q).
Proof.
  intros Hp Hq.
  pose proof (flt_key p q Hp Hq) as L1. pose proof (flt_key q p Hq Hp) as L2.
  pose proof (feq_key p q Hp Hq) as E1. pose proof (feq_key q p Hq Hp) as E2.
  pose proof (fkey_fnorm p q Hp Hq) as N.
  assert (B : forall b : bool, forall P : Prop, (b = true <-> P) -> ~ P -> b = false).
  { intros b P I nP. destruct b; [destruct nP; now apply I|reflexivity]. }
  destruct (key_total (fkey p) (fkey q)) as [K|[K|K]].
  - left. repeat split.
    + now apply L1.
    + apply (B _ _ L2). now apply key_lt_asym.
    + apply (B _ _ E1). intro E. rewrite E in K. now apply key_lt_irrefl in K.
    + apply (B _ _ E2). intro E. rewrite E in K. now apply key_lt_irrefl in K.
    + intro E. apply N in E. rewrite E in K. now apply key_lt_irrefl in K.
  - right; left. repeat split.
    + apply (B _ _ L1). rewrite K. apply key_lt_irrefl.
    + apply (B _ _ L2). rewrite K. apply key_lt_irrefl.
    + now apply E1.
    + now apply E2.
    + now apply N.
  - right; right. repeat split.
    + apply (B _ _ L1). now apply key_lt_asym.
    + now apply L2.
    + apply (B _ _ E1). intro E. rewrite E in K. now apply key_lt_irrefl in K.
    + apply (B _ _ E2). intro E. rewrite E in K. now apply key_lt_irrefl in K.
    + intro E. apply N in E. rewrite E in K. now apply key_lt_irrefl in K.
Qed.

Lemma feq_refl_or_nan a : F32.eq a a = negb (F32.is_nan a).
Proof.
  destruct (F32.is_nan a) eqn:Ha.
  - destruct a; try discriminate. reflexivity.
  - simpl. now apply (feq_key a a Ha Ha).
Qed.

(** * Facts on [Vec3::operator<] *)

Lemma Vec3_lt_irrefl v : Vec3_lt v v = false.
Proof.
  unfold Vec3_lt. rewrite !flt_irrefl.
  destruct (F32.ne (x v) (x v)), (F32.ne (y v) (y v)); reflexivity.
Qed.

Lemma Vec3_equiv_refl v : Vec3_equiv v v = true.
Proof. unfold Vec3_equiv. now rewrite Vec3_lt_irrefl. Qed.

Lemma Vec3_equiv_sym a b : Vec3_equiv a b = Vec3_equiv b a.
Proof. unfold Vec3_equiv. apply andb_comm. Qed.

Lemma vec_ok_coords v :
  vec_ok v = true ->
  F32.is_nan (x v) = false /\ F32.is_nan (y v) = false /\ F32.is_nan (z v) = false.
Proof.
  unfold vec_ok. rewrite !andb_true_iff, !negb_true_iff. tauto.
Qed.

(** On positions without NaN two keys are equivalent exactly when their
    coordinates are the same values, the sign of a zero apart. *)
Lemma Vec3_equiv_vnorm a b :
  vec_ok a = true -> vec_ok b = true ->
  (Vec3_equiv a b = true <-> vnorm a = vnorm b).
Proof.
  intros Ha Hb.
  destruct (vec_ok_coords _ Ha) as (ax & ay & az).
  destruct (vec_ok_coords _ Hb) as (bx & by_ & bz).
  unfold Vec3_equiv, Vec3_lt, F32.ne, vnorm.
  change (SFeqb (x a) (x b)) with (F32.eq (x a) (x b)).
  change (SFeqb (y a) (y b)) with (F32.eq (y a) (y b)).
  change (SFeqb (x b) (x a)) with (F32.eq (x b) (x a)).
  change (SFeqb (y b) (y a)) with (F32.eq (y b) (y a)).
  destruct (fcmp_cases _ _ ax bx) as [H|[H|H]];
    destruct H as (-> & -> & -> & -> & Nx);
  destruct (fcmp_cases _ _ ay by_) as [H|[H|H]];
    destruct H as (-> & -> & -> & -> & Ny);
  destruct (fcmp_cases _ _ az bz) as [H|[H|H]];
    destruct H as (-> & -> & _ & _ & Nz);
  simpl; split; intro E; try discriminate E; try reflexivity;
    try (injection E; intros; contradiction).
  now rewrite Nx, Ny, Nz.
Qed.

Lemma Vec3_equiv_trans a b c :
  vec_ok a = true -> vec_ok b = true -> vec_ok c = true ->
  Vec3_equiv a b = true -> Vec3_equiv b c = true -> Vec3_equiv a c = true.
Proof.
  intros Ha Hb Hc. rewrite !Vec3_equiv_vnorm by assumption. congruence.
Qed.

(* ================================================================== *)
(** * Facts on ordered maps *)
(* ================================================================== *)

Section OrdMapFacts.
Variables (K V : Type) (cmp : K -> K -> comparison).
Hypothesis cmp_eq : forall a b, cmp a b = Eq <-> a = b.
Hypothesis cmp_antisym : forall a b, cmp b a = CompOpp (cmp a b).
Hypothesis cmp_trans : forall a b c, cmp a b = Lt -> cmp b c = Lt -> cmp a c = Lt.

Lemma cmp_refl a : cmp a a = Eq.
Proof. now apply cmp_eq. Qed.

Lemma upd_keys k f (m : list (K * V)) k' :
  In k' (map fst (upd cmp k f m)) -> k' = k \/ In k' (map fst m).
Proof.
  induction m as [|[k0 v0] rest IH]; simpl.
  - intros [H|[]]; auto.
  - destruct (cmp k k0) eqn:E; simpl.
    + intros [H|H]; auto.
    + intros [H|[H|H]]; auto.
    + intros [H|H]; auto. destruct (IH H); auto.
Qed.

Lemma upd_sorted k f (m : list (K * V)) :
  keys_sorted cmp m -> keys_sorted cmp (upd cmp k f m).
Proof.
  unfold keys_sorted.
  induction m as [|[k0 v0] rest IH]; simpl; intro S.
  - constructor; constructor.
  - inversion S as [|? ? Srest Hall]; subst.
    destruct (cmp k k0) eqn:E.
    + constructor; assumption.
    + constructor; [assumption|].
      constructor; [exact E|].
      rewrite Forall_forall in Hall |- *. intros q Hq.
      apply (cmp_trans _ _ _ E). now apply Hall.
    + constructor; [now apply IH|].
      rewrite Forall_forall in Hall |- *. intros [k1 v1] Hq. simpl.
      destruct (upd_keys k f rest k1) as [->|H].
      * change k1 with (fst (k1, v1)). now apply in_map.
      * rewrite cmp_antisym, E. reflexivity.
      * apply in_map_iff in H. destruct H as ([k2 v2] & <- & H).
        now apply (Hall _ H).
Qed.

Lemma lookup_below k (m : list (K * V)) :
  Forall (fun q => cmp k (fst q) = Lt) m -> lookup cmp k m = None.
Proof.
  induction 1 as [|[k0 v0] rest H _ IH]; simpl in *; [reflexivity|].
  now rewrite H.
Qed.

Lemma lookup_upd k k' f (m : list (K * V)) :
  keys_sorted cmp m ->
  lookup cmp k' (upd cmp k f m)
  = match cmp k' k with
    | Eq => Some (f (lookup cmp k m))
    | _ => lookup cmp k' m
    end.
Proof.
  unfold keys_sorted.
  induction m as [|[k0 v0] rest IH]; simpl; intro S.
  - destruct (cmp k' k); reflexivity.
  - inversion S as [|? ? Srest Hall]; subst.
    destruct (cmp k k0) eqn:E; simpl.
    + apply cmp_eq in E. subst k0.
      destruct (cmp k' k); reflexivity.
    + assert (N : lookup cmp k rest = None).
      { apply lookup_below. rewrite Forall_forall in Hall |- *.
        intros q Hq. apply (cmp_trans _ _ _ E). now apply Hall. }
      rewrite N. destruct (cmp k' k) eqn:E'; try reflexivity.
    + rewrite (IH Srest).
      destruct (cmp k' k) eqn:E'; try reflexivity.
      apply cmp_eq in E'. subst k'. now rewrite E.
Qed.

Lemma lookup_In k v (m : list (K * V)) :
  keys_sorted cmp m -> (lookup cmp k m = Some v <-> In (k, v) m).
Proof.
  unfold keys_sorted.
  induction m as [|[k0 v0] rest IH]; simpl; intro S.
  - split; [discriminate|tauto].
  - inversion S as [|? ? Srest Hall]; subst.
    destruct (cmp k k0) eqn:E.
    + apply cmp_eq in E. subst k0. split.
      * intros [= ->]. now left.
      * intros [[= ->]|H]; [reflexivity|].
        rewrite Forall_forall in Hall. apply Hall in H. simpl in H.
        rewrite cmp_refl in H. discriminate.
    + rewrite (IH Srest). split; [auto|].
      intros [[= -> ->]|H]; [|assumption].
      rewrite cmp_refl in E. discriminate.
    + rewrite (IH Srest). split; [auto|].
      intros [[= -> ->]|H]; [|assumption].
      rewrite cmp_refl in E. discriminate.
Qed.

Lemma sorted_keys_NoDup (m : list (K * V)) :
  keys_sorted cmp m -> NoDup (map fst m).
Proof.
  unfold keys_sorted.
  induction 1 as [|[k0 v0] rest S IH Hall]; simpl; constructor; [|assumption].
  intro Hin. apply in_map_iff in Hin. destruct Hin as (q & Hq & H).
  rewrite Forall_forall in Hall. apply Hall in H. simpl in H.
  rewrite Hq, cmp_refl in H. discriminate.
Qed.

(** A run of updates of the same kind, as the loops of the source do. *)
Lemma fold_upd_sorted (A : Type) (key : A -> K) (g : A -> option V -> V) l :
  forall m, keys_sorted cmp m ->
  keys_sorted cmp (fold_left (fun m a => upd cmp (key a) (g a) m) l m).
Proof.
  induction l as [|a l IH]; simpl; intros m S; [assumption|].
  apply IH. now apply upd_sorted.
Qed.
End OrdMapFacts.

Lemma pair_compare_eq a b : pair_compare a b = Eq <-> a = b.
Proof.
  destruct a as [a1 a2], b as [b1 b2]; unfold pair_compare; simpl.
  destruct (Nat.compare_spec a1 b1); [destruct (Nat.compare_spec a2 b2)| |];
    split; intro E; try discriminate E; try (injection E; lia);
    subst; reflexivity.
Qed.

Lemma pair_compare_antisym a b : pair_compare b a = CompOpp (pair_compare a b).
Proof.
  destruct a as [a1 a2], b as [b1 b2]; unfold pair_compare; simpl.
  rewrite (Nat.compare_antisym a1 b1), (Nat.compare_antisym a2 b2).
  destruct (a1 ?= b1); simpl; reflexivity.
Qed.

Lemma pair_compare_trans a b c :
  pair_compare a b = Lt -> pair_compare b c = Lt -> pair_compare a c = Lt.
Proof.
  destruct a as [a1 a2], b as [b1 b2], c as [c1 c2]; unfold pair_compare; simpl.
  destruct (Nat.compare_spec a1 b1), (Nat.compare_spec b1 c1),
    (Nat.compare_spec a1 c1); try discriminate; try lia; try reflexivity;
    destruct (Nat.compare_spec a2 b2), (Nat.compare_spec b2 c2),
    (Nat.compare_spec a2 c2); try discriminate; try lia; reflexivity.
Qed.

Lemma nat_compare_antisym a b : Nat.compare b a = CompOpp (Nat.compare a b).
Proof. apply Nat.compare_antisym. Qed.

Lemma nat_compare_trans a b c :
  Nat.compare a b = Lt -> Nat.compare b c = Lt -> Nat.compare a c = Lt.
Proof. rewrite !Nat.compare_lt_iff. lia. Qed.

Lemma pair_eqb_eq a b : pair_eqb a b = true <-> a = b.
Proof.
  destruct a as [a1 a2], b as [b1 b2]; unfold pair_eqb; simpl.
  rewrite andb_true_iff, !Nat.eqb_eq. split; [intros []; congruence|intros [=]; auto].
Qed.

Lemma pset_count_In e s : pset_count e s = true <-> In e s.
Proof.
  unfold pset_count. rewrite existsb_exists. split.
  - intros (q & Hq & E). apply pair_eqb_eq in E. now subst.
  - intro H. exists e. split; [assumption|now apply pair_eqb_eq].
Qed.

Lemma key3_eqb_eq a b : key3_eqb a b = true <-> a = b.
Proof.
  destruct a as [[a0 a1] a2], b as [[b0 b1] b2]; simpl.
  rewrite !andb_true_iff, !Nat.eqb_eq. split; [intros [[] ]; congruence|intros [=]; auto].
Qed.

Lemma kset_mem_In k s : kset_mem k s = true <-> In k s.
Proof.
  unfold kset_mem. rewrite existsb_exists. split.
  - intros (q & Hq & E). apply key3_eqb_eq in E. now subst.
  - intro H. exists k. split; [assumption|now apply key3_eqb_eq].
Qed.

(* ================================================================== *)
(** * The boundary capper: edges, successors and tracing *)
(* ================================================================== *)

Lemma olist_push_back (A : Type) (e : A) o : push_back e o = olist o ++ [e].
Proof. destruct o; reflexivity. Qed.

Lemma nat_compare_eq a b : Nat.compare a b = Eq <-> a = b.
Proof. apply Nat.compare_eq_iff. Qed.

Lemma nat_upd_sorted (V : Type) k f (m : list (nat * V)) :
  keys_sorted Nat.compare m -> keys_sorted Nat.compare (upd Nat.compare k f m).
Proof. apply upd_sorted; [exact nat_compare_antisym|exact nat_compare_trans]. Qed.

Lemma nat_lookup_upd (V : Type) k k' f (m : list (nat * V)) :
  keys_sorted Nat.compare m ->
  lookup Nat.compare k' (upd Nat.compare k f m)
  = match Nat.compare k' k with
    | Eq => Some (f (lookup Nat.compare k m))
    | _ => lookup Nat.compare k' m
    end.
Proof. apply lookup_upd; [exact nat_compare_eq|exact nat_compare_trans]. Qed.

Lemma pair_upd_sorted (V : Type) k f (m : EdgeMap V) :
  keys_sorted pair_compare m -> keys_sorted pair_compare (upd pair_compare k f m).
Proof. apply upd_sorted; [exact pair_compare_antisym|exact pair_compare_trans]. Qed.

Lemma pair_lookup_upd (V : Type) k k' f (m : EdgeMap V) :
  keys_sorted pair_compare m ->
  lookup pair_compare k' (upd pair_compare k f m)
  = match pair_compare k' k with
    | Eq => Some (f (lookup pair_compare k m))
    | _ => lookup pair_compare k' m
    end.
Proof. apply lookup_upd; [exact pair_compare_eq|exact pair_compare_trans]. Qed.

Lemma pair_lookup_In (V : Type) k v (m : EdgeMap V) :
  keys_sorted pair_compare m -> (lookup pair_compare k m = Some v <-> In (k, v) m).
Proof. apply lookup_In. exact pair_compare_eq. Qed.

Lemma pair_sorted_NoDup (V : Type) (m : EdgeMap V) :
  keys_sorted pair_compare m -> NoDup (map fst m).
Proof. apply sorted_keys_NoDup. exact pair_compare_eq. Qed.

(** The successors of [v] are the boundary edges leaving [v], in order. *)
Lemma successors_fold bes v :
  forall m, keys_sorted Nat.compare m ->
  olist (lookup Nat.compare v
           (fold_left (fun m e => upd Nat.compare (from e) (push_back (to e, triIdx e)) m)
                      bes m))
  = olist (lookup Nat.compare v m)
    ++ map (fun e => (to e, triIdx e)) (filter (fun e => from e =? v) bes).
Proof.
  induction bes as [|e bes IH]; simpl; intros m S.
  - now rewrite app_nil_r.
  - rewrite IH by now apply nat_upd_sorted.
    rewrite nat_lookup_upd by assumption.
    destruct (Nat.compare_spec v (from e)) as [E|E|E].
    + subst v. rewrite Nat.eqb_refl. simpl.
      rewrite olist_push_back, <- app_assoc. reflexivity.
    + replace (from e =? v) with false by (symmetry; apply Nat.eqb_neq; lia).
      reflexivity.
    + replace (from e =? v) with false by (symmetry; apply Nat.eqb_neq; lia).
      reflexivity.
Qed.

Lemma successors_spec bes v :
  successors (buildNextMap bes) v
  = map (fun e => (to e, triIdx e)) (filter (fun e => from e =? v) bes).
Proof.
  unfold successors, buildNextMap.
  change (match lookup Nat.compare v ?m with Some l => l | None => [] end)
    with (olist (lookup Nat.compare v m)).
  rewrite successors_fold; [reflexivity|constructor].
Qed.

Lemma successors_boundary bes v p :
  In p (successors (buildNextMap bes) v) -> In (v, fst p) (map edgePair bes).
Proof.
  rewrite successors_spec. intro H.
  apply in_map_iff in H. destruct H as (e & <- & H).
  apply filter_In in H. destruct H as (H & E). apply Nat.eqb_eq in E.
  apply in_map_iff. exists e. split; [|assumption].
  unfold edgePair. simpl. now rewrite E.
Qed.

(** Consuming an edge never raises the measure, and lowers it when the
    edge is a boundary edge that was unused. *)
Lemma unusedCount_cons e bes u :
  unusedCount (e :: bes) u
  = (if pset_count (edgePair e) u then 0 else 1) + unusedCount bes u.
Proof.
  unfold unusedCount, count_if. cbn [filter].
  destruct (pset_count (edgePair e) u); reflexivity.
Qed.

Lemma pset_count_cons e p u : pset_count e (p :: u) = pair_eqb e p || pset_count e u.
Proof. reflexivity. Qed.

Lemma unusedCount_le bes p u : unusedCount bes (p :: u) <= unusedCount bes u.
Proof.
  induction bes as [|e bes IH]; [unfold unusedCount, count_if; simpl; lia|].
  rewrite !unusedCount_cons, pset_count_cons.
  destruct (pair_eqb (edgePair e) p), (pset_count (edgePair e) u); simpl; lia.
Qed.

Lemma unusedCount_lt bes p u :
  In p (map edgePair bes) -> pset_count p u = false ->
  unusedCount bes (p :: u) < unusedCount bes u.
Proof.
  induction bes as [|e bes IH]; [simpl; tauto|].
  rewrite !unusedCount_cons, pset_count_cons.
  intros [E|H] N.
  - rewrite E, N. replace (pair_eqb p p) with true by (symmetry; now apply pair_eqb_eq).
    pose proof (unusedCount_le bes p u). simpl. lia.
  - specialize (IH H N).
    destruct (pair_eqb (edgePair e) p), (pset_count (edgePair e) u); simpl; lia.
Qed.

Lemma unusedCount_bound bes u : unusedCount bes u <= length bes.
Proof. unfold unusedCount, count_if. apply filter_length_le. Qed.

Lemma trace_inv_cons bes p u :
  trace_inv bes u -> In p (map edgePair bes) -> pset_count p u = false ->
  trace_inv bes (p :: u).
Proof.
  intros [N I] Hp Hn. split.
  - constructor; [|assumption]. intro H. apply pset_count_In in H. congruence.
  - intros q [<-|Hq]; auto.
Qed.

Lemma nextUnused_spec u cur succs nextV nextTri :
  nextUnused u cur succs = (nextV, nextTri) -> nextV <> 0 ->
  In (nextV, nextTri) succs /\ pset_count (cur, nextV) u = false.
Proof.
  unfold nextUnused.
  destruct (find _ succs) as [p|] eqn:F.
  - intros -> _. apply find_some in F. simpl in F. destruct F as (F & N).
    split; [assumption|]. now apply negb_true_iff in N.
  - intros [= <- <-] N. now destruct N.
Qed.

(** The inner loop returns when its fuel exceeds the number of unused
    boundary edges, and it keeps the invariant. *)
Lemma traceLoop_returns bes :
  forall fuel start loop triOnLoop cur st,
  unusedCount bes (used st) < fuel ->
  trace_inv bes (used st) ->
  exists loop' triOnLoop' st',
    traceLoop (buildNextMap bes) fuel start loop triOnLoop cur st
      = Some (loop', triOnLoop', st')
    /\ trace_inv bes (used st')
    /\ unusedCount bes (used st') <= unusedCount bes (used st)
    /\ incl (used st) (used st').
Proof.
  induction fuel as [|fuel IH]; intros start loop triOnLoop cur st Hf Hi; [lia|].
  simpl.
  destruct (cur =? start).
  { exists loop, triOnLoop, st. repeat split; try apply Hi; auto using incl_refl. }
  destruct (nextUnused (used st) cur (successors (buildNextMap bes) cur))
    as [nextV nextTri] eqn:N.
  destruct (nextV =? 0) eqn:Z.
  { exists loop, triOnLoop, st. repeat split; try apply Hi; auto using incl_refl. }
  apply Nat.eqb_neq in Z.
  destruct (nextUnused_spec _ _ _ _ _ N Z) as (Hin & Hun).
  apply successors_boundary in Hin. simpl in Hin.
  pose proof (unusedCount_lt bes _ _ Hin Hun) as Hlt.
  pose proof (trace_inv_cons _ _ _ Hi Hin Hun) as Hi'.
  destruct (index_of nextV loop) as [idx|].
  - destruct (nextV =? start).
    + eexists _, _, _. split; [reflexivity|]. simpl.
      repeat split; try apply Hi'; try lia. apply incl_tl, incl_refl.
    + edestruct (IH start (firstn (idx + 1) loop) (firstn (idx + 1) triOnLoop)
                   (last (firstn (idx + 1) loop) 0)
                   (mkTraceState ((cur, nextV) :: used st)
                      (calls st ++ [(skipn idx loop, nth idx triOnLoop 0)])))
        as (l' & t' & s' & E & I' & C' & U'); simpl; [lia|exact Hi'|].
      exists l', t', s'. split; [exact E|]. simpl in *.
      repeat split; try apply I'; try lia.
      intros q Hq. apply U'. now right.
  - edestruct (IH start (loop ++ [nextV]) (triOnLoop ++ [nextTri]) nextV
                 (mkTraceState ((cur, nextV) :: used st) (calls st)))
      as (l' & t' & s' & E & I' & C' & U'); simpl; [lia|exact Hi'|].
    exists l', t', s'. split; [exact E|]. simpl in *.
    repeat split; try apply I'; try lia.
    intros q Hq. apply U'. now right.
Qed.

Lemma traceLoop_fuel_mono nm :
  forall fuel fuel' start loop triOnLoop cur st res,
  fuel <= fuel' ->
  traceLoop nm fuel start loop triOnLoop cur st = Some res ->
  traceLoop nm fuel' start loop triOnLoop cur st = Some res.
Proof.
  induction fuel as [|fuel IH]; intros fuel' start loop triOnLoop cur st res L; [discriminate|].
  destruct fuel' as [|fuel']; [lia|]. simpl.
  destruct (cur =? start); [auto|].
  destruct (nextUnused (used st) cur (successors nm cur)) as [nextV nextTri].
  destruct (nextV =? 0); [auto|].
  destruct (index_of nextV loop) as [idx|].
  - destruct (nextV =? start); [auto|]. apply IH. lia.
  - apply IH. lia.
Qed.

(** The outer loop returns as well, with every boundary edge consumed. *)
Lemma traceAll_returns bes :
  forall fuel st,
  unusedCount bes (used st) < fuel ->
  trace_inv bes (used st) ->
  exists st',
    traceAll bes (buildNextMap bes) fuel st = Some st'
    /\ trace_inv bes (used st')
    /\ (forall e, In e bes -> In (edgePair e) (used st')).
Proof.
  induction fuel as [|fuel IH]; intros st Hf Hi; [lia|].
  cbn [traceAll].
  destruct (find (fun e => negb (pset_count (from e, to e) (used st))) bes) as [e|] eqn:F.
  - apply find_some in F. destruct F as (He & Hn). apply negb_true_iff in Hn.
    assert (Hin : In (from e, to e) (map edgePair bes)).
    { change (from e, to e) with (edgePair e). now apply in_map. }
    pose proof (unusedCount_lt bes _ _ Hin Hn) as Hlt.
    pose proof (trace_inv_cons _ _ _ Hi Hin Hn) as Hi'.
    destruct (traceLoop_returns bes (S (length bes)) (from e) [from e; to e]
                [triIdx e; triIdx e] (to e)
                (mkTraceState ((from e, to e) :: used st) (calls st)))
      as (l' & t' & s' & E & I' & C' & U'); cbn [used calls].
    { pose proof (unusedCount_bound bes ((from e, to e) :: used st)). lia. }
    { exact Hi'. }
    rewrite E. simpl in C'.
    destruct (IH (mkTraceState (used s') (calls s' ++ [(l', nth 0 t' 0)])))
      as (st' & E' & I'' & A'); simpl; [lia|exact I'|].
    exists st'. auto.
  - exists st. repeat split; try apply Hi.
    intros e He. pose proof (find_none _ _ F e He) as N. simpl in N.
    apply negb_false_iff in N. now apply pset_count_In in N.
Qed.

Lemma traceAll_fuel_mono bes nm :
  forall fuel fuel' st res,
  fuel <= fuel' ->
  traceAll bes nm fuel st = Some res -> traceAll bes nm fuel' st = Some res.
Proof.
  induction fuel as [|fuel IH]; intros fuel' st res L; [discriminate|].
  destruct fuel' as [|fuel']; [lia|]. cbn [traceAll].
  destruct (find _ bes) as [e|]; [|auto].
  destruct (traceLoop nm (S (length bes)) (from e) [from e; to e]
              [triIdx e; triIdx e] (to e) _) as [[[l t] s]|]; [|discriminate].
  apply IH. lia.
Qed.

(** ** The boundary edges are distinct directed edges *)

Lemma edges_inv_upd m e :
  edges_inv m ->
  edges_inv (upd pair_compare (edgeKey (from e) (to e)) (push_back e) m).
Proof.
  intros [S I]. split; [now apply pair_upd_sorted|].
  intros k es Hin e' He'.
  apply pair_lookup_In in Hin; [|now apply pair_upd_sorted].
  rewrite pair_lookup_upd in Hin by assumption.
  destruct (pair_compare k (edgeKey (from e) (to e))) eqn:C.
  - apply pair_compare_eq in C. subst k.
    injection Hin as <-. rewrite olist_push_back in He'.
    apply in_app_or in He'. destruct He' as [He'|[<-|[]]]; [|reflexivity].
    destruct (lookup pair_compare (edgeKey (from e) (to e)) m) as [l|] eqn:Lk;
      [|destruct He'].
    apply pair_lookup_In in Lk; [|assumption]. exact (I _ _ Lk _ He').
  - apply pair_lookup_In in Hin; [|assumption]. exact (I _ _ Hin _ He').
  - apply pair_lookup_In in Hin; [|assumption]. exact (I _ _ Hin _ He').
Qed.

Lemma edgeToDirected_inv r triangleIndices : edges_inv (edgeToDirected r triangleIndices).
Proof.
  unfold edgeToDirected.
  assert (G : forall l m, edges_inv m -> edges_inv (fold_left (addTriEdges r) l m)).
  { induction l as [|ti l IH]; simpl; intros m Hm; [assumption|].
    apply IH. unfold addTriEdges.
    destruct (ti <? triangleCount r); [|assumption].
    apply (edges_inv_upd _ (mkDirectedEdge (i2 (triAt r ti)) (i0 (triAt r ti)) ti)).
    apply (edges_inv_upd _ (mkDirectedEdge (i1 (triAt r ti)) (i2 (triAt r ti)) ti)).
    apply (edges_inv_upd _ (mkDirectedEdge (i0 (triAt r ti)) (i1 (triAt r ti)) ti)).
    assumption. }
  apply G. split; [constructor|]. intros k es [].
Qed.

Lemma boundaryEdges_NoDup r triangleIndices :
  NoDup (map edgePair (boundaryEdges r triangleIndices)).
Proof.
  unfold boundaryEdges.
  destruct (edgeToDirected_inv r triangleIndices) as [S I].
  apply pair_sorted_NoDup in S.
  induction (edgeToDirected r triangleIndices) as [|[k es] m IH]; simpl; [constructor|].
  simpl in S. inversion S as [|? ? Hk Sm]; subst.
  assert (IHm : NoDup (map edgePair
            (flat_map (fun kv => match snd kv with
                                 | [e] => [mkDirectedEdge (from e) (to e) (triIdx e)]
                                 | _ => []
                                 end) m))).
  { apply IH; [assumption|]. intros k' es' H. apply I. now right. }
  destruct es as [|e [|e' es]]; simpl; try assumption.
  constructor; [|assumption].
  intro H. apply in_map_iff in H. destruct H as (d & Ed & Hd).
  apply in_flat_map in Hd. destruct Hd as ([k' es'] & Hkv & Hd). simpl in Hd.
  destruct es' as [|e1 [|e2 es']]; simpl in Hd; try tauto.
  destruct Hd as [<-|[]]. unfold edgePair in Ed. simpl in Ed.
  apply Hk. apply in_map_iff. exists (k', [e1]). split; [|assumption]. simpl.
  rewrite <- (I k' [e1] (or_intror Hkv) e1 (or_introl eq_refl)).
  rewrite <- (I k [e] (or_introl eq_refl) e (or_introl eq_refl)).
  injection Ed as E1 E2. now rewrite E1, E2.
Qed.

(* ================================================================== *)
(** * Claim C2: the tracing terminates and consumes every boundary edge *)
(* ================================================================== *)

Lemma traceBoundary_returns r triangleIndices :
  exists st,
    traceBoundary r triangleIndices = Some st
    /\ trace_inv (boundaryEdges r triangleIndices) (used st)
    /\ (forall e, In e (boundaryEdges r triangleIndices) -> In (edgePair e) (used st)).
Proof.
  unfold traceBoundary.
  apply traceAll_returns; simpl.
  - pose proof (unusedCount_bound (boundaryEdges r triangleIndices) []). lia.
  - split; [constructor|]. intros p [].
Qed.

(** [addCaps] always returns: the subset first, then the caps of the
    recorded calls. *)
Lemma addCaps_returns r triangleIndices :
  exists caps,
    addCaps r triangleIndices
    = Some (map (getTriangle r) (filter (fun i => i <? triangleCount r) triangleIndices)
            ++ caps).
Proof.
  unfold addCaps.
  destruct (vertices_ r); [exists []; now rewrite app_nil_r|].
  destruct (boundaryEdges r triangleIndices) eqn:B; [exists []; now rewrite app_nil_r|].
  destruct (traceBoundary_returns r triangleIndices) as (st & -> & _).
  eexists. reflexivity.
Qed.

(** C2 (amended).  For every mesh and facet subset the tracing of
    [addCaps] terminates: the bounded loops return a final state with the
    fuel the model gives them, and with any larger fuel the same state.
    In that state every boundary edge of the subset has been consumed
    (marked used) exactly once, and nothing else has. *)
Theorem tracing_terminates_and_consumes_each_edge_once r triangleIndices :
  let bes := boundaryEdges r triangleIndices in
  exists st,
    traceBoundary r triangleIndices = Some st
    /\ (forall fuel, S (length bes) <= fuel ->
        traceAll bes (buildNextMap bes) fuel (mkTraceState [] []) = Some st)
    /\ NoDup (used st)
    /\ Permutation (used st) (map edgePair bes)
    /\ exists out, addCaps r triangleIndices = Some out.
Proof.
  intro bes.
  destruct (traceBoundary_returns r triangleIndices) as (st & E & [N I] & A).
  exists st. split; [exact E|]. split; [|split; [exact N|split]].
  - intros fuel L. apply (traceAll_fuel_mono _ _ (S (length bes))); assumption.
  - apply NoDup_Permutation; [exact N|apply boundaryEdges_NoDup|].
    intro p. split; [apply I|].
    intro H. apply in_map_iff in H. destruct H as (e & <- & He). now apply A.
  - destruct (addCaps_returns r triangleIndices) as (caps & C). eauto.
Qed.

(** The claim as the design document states it fails on the two fins:
    the trace that starts with the edge 0 -> 1 stops at vertex 2, which
    no boundary edge leaves, and its open path 0, 1, 2 is nevertheless
    capped, with a third cap along 2 -> 0, which is no boundary edge; so
    the edges of the capped loops are not the boundary edges. *)
Lemma dead_end_path_is_capped :
  exists st,
    traceBoundary fins_mesh [0; 1] = Some st
    /\ map edgePair (boundaryEdges fins_mesh [0; 1]) = [(0, 1); (0, 3); (1, 2); (3, 2)]
    /\ successors (buildNextMap (boundaryEdges fins_mesh [0; 1])) 2 = []
    /\ calls st = [([0; 1; 2], 0); ([0; 3; 2], 1)]
    /\ length (capOneLoop fins_mesh [0; 1; 2] 0) = 3
    /\ ~ Permutation (flat_map loopEdges (cappedLoops st))
                     (map edgePair (boundaryEdges fins_mesh [0; 1])).
Proof.
  eexists. split; [vm_compute; reflexivity|].
  repeat split; try (vm_compute; reflexivity).
  intro P. apply Permutation_length in P. vm_compute in P. discriminate.
Qed.

(* ================================================================== *)
(** * The vertex merge *)
(* ================================================================== *)

Lemma combine_seq_In (verts : list Vec3) k i b :
  In (k, i) (combine verts (seq b (length verts))) ->
  b <= i < b + length verts /\ nth (i - b) verts vzero = k.
Proof.
  revert b. induction verts as [|v verts IH]; simpl; intros b H; [destruct H|].
  destruct H as [[= -> ->]|H].
  - split; [lia|]. now rewrite Nat.sub_diag.
  - apply IH in H. destruct H as (L & E). split; [lia|].
    replace (i - b) with (S (i - S b)) by lia. exact E.
Qed.

Lemma combine_seq_nth (verts : list Vec3) i b :
  i < length verts -> In (nth i verts vzero, b + i) (combine verts (seq b (length verts))).
Proof.
  revert i b. induction verts as [|v verts IH]; simpl; intros i b L; [lia|].
  destruct i as [|i].
  - left. now rewrite Nat.add_0_r.
  - right. replace (b + S i) with (S b + i) by lia. apply IH. lia.
Qed.

Lemma combine_snoc (A B : Type) (l : list A) (s : list B) a b :
  length l = length s -> combine (l ++ [a]) (s ++ [b]) = combine l s ++ [(a, b)].
Proof.
  revert s. induction l as [|h l IH]; intros [|h' s] L; simpl in *; try discriminate.
  - reflexivity.
  - f_equal. apply IH. lia.
Qed.

Lemma vfind_some v idx i :
  vfind v idx = Some i -> exists k, In (k, i) idx /\ Vec3_equiv k v = true.
Proof.
  unfold vfind. destruct (find _ idx) as [[k j]|] eqn:F; [|discriminate].
  intros [= <-]. apply find_some in F. exists k. exact F.
Qed.

Lemma vfind_none v idx :
  vfind v idx = None -> forall k i, In (k, i) idx -> Vec3_equiv k v = false.
Proof.
  unfold vfind. destruct (find _ idx) as [[k j]|] eqn:F; [discriminate|].
  intros _ k i H. exact (find_none _ _ F (k, i) H).
Qed.

Lemma vmap_inv_nil : vmap_inv ([], []).
Proof. split; [reflexivity|]. intros i j L. simpl in L. lia. Qed.

(** One lookup: the table grows by at most the position looked up, and
    the index returned is a slot of an equivalent position. *)
Lemma getIdx_spec v st i st' :
  vmap_inv st -> getIdx v st = (i, st') ->
  vmap_inv st'
  /\ (snd st' = snd st \/ snd st' = snd st ++ [v])
  /\ slot_of (snd st') v i.
Proof.
  destruct st as [idx verts]. intros [Hidx Hd]. simpl in Hidx, Hd.
  unfold getIdx. destruct (vfind v idx) as [j|] eqn:F.
  - intros [= <- <-]. split; [split; assumption|]. split; [now left|].
    apply vfind_some in F. destruct F as (k & Hk & E).
    rewrite Hidx in Hk. apply in_rev in Hk. apply combine_seq_In in Hk.
    destruct Hk as (L & N). rewrite Nat.sub_0_r in N. simpl in L.
    split; simpl; [lia|]. now rewrite N.
  - intros [= <- <-]. simpl.
    assert (Hnew : forall j, j < length verts -> Vec3_equiv (nth j verts vzero) v = false).
    { intros j L. apply (vfind_none _ _ F (nth j verts vzero) j).
      rewrite Hidx. apply in_rev. rewrite rev_involutive.
      apply (combine_seq_nth verts j 0 L). }
    split; [split; simpl|split; [now right|]].
    + rewrite length_app. cbn [length]. rewrite Nat.add_1_r, seq_S.
      rewrite combine_snoc by (now rewrite length_seq).
      rewrite rev_app_distr. simpl. now rewrite Hidx.
    + intros a b La Lb. rewrite length_app in La, Lb. simpl in La, Lb.
      destruct (Nat.eq_dec a (length verts)) as [->|Na],
               (Nat.eq_dec b (length verts)) as [->|Nb]; [reflexivity| | |].
      * rewrite nth_middle, (app_nth1 verts [v]) by lia.
        rewrite Vec3_equiv_sym, Hnew by lia. discriminate.
      * rewrite nth_middle, (app_nth1 verts [v]) by lia.
        rewrite Hnew by lia. discriminate.
      * rewrite !(app_nth1 verts [v]) by lia. apply Hd; lia.
    + split; simpl.
      * rewrite length_app. simpl. lia.
      * rewrite nth_middle. apply Vec3_equiv_refl.
Qed.

Lemma slot_of_app verts suf v i : slot_of verts v i -> slot_of (verts ++ suf) v i.
Proof.
  intros [L E]. split.
  - rewrite length_app. lia.
  - now rewrite app_nth1.
Qed.

(** A run of lookups. *)
Lemma indexSeq_spec vs :
  forall st js st',
  vmap_inv st -> indexSeq vs st = (js, st') ->
  vmap_inv st'
  /\ (exists suf, snd st' = snd st ++ suf /\ incl suf vs)
  /\ Forall2 (slot_of (snd st')) vs js.
Proof.
  induction vs as [|v vs IH]; simpl; intros st js st' Hi E.
  - injection E as <- <-. split; [assumption|]. split; [|constructor].
    exists []. split; [now rewrite app_nil_r|apply incl_refl].
  - destruct (getIdx v st) as [i st1] eqn:G.
    destruct (indexSeq vs st1) as [js' st2] eqn:R.
    injection E as <- <-.
    destruct (getIdx_spec _ _ _ _ Hi G) as (Hi1 & Hg & Hs).
    destruct (IH _ _ _ Hi1 R) as (Hi2 & (suf & Es & Is) & F).
    split; [assumption|]. split.
    + destruct Hg as [Hg|Hg]; rewrite Hg in Es.
      * exists suf. split; [assumption|]. now apply incl_tl.
      * exists (v :: suf). split; [now rewrite Es, <- app_assoc|].
        apply incl_cons; [now left|now apply incl_tl].
    + constructor; [|assumption]. rewrite Es. now apply slot_of_app.
Qed.

Lemma indexAll_indexSeq ts :
  forall st ks st',
  indexAll ts st = (ks, st') -> indexSeq (positions ts) st = (key_indices ks, st').
Proof.
  induction ts as [|t ts IH]; simpl; intros st ks st' E.
  - now injection E as <- <-.
  - unfold indexTriangle in E.
    destruct (getIdx (v0 t) st) as [i st1].
    destruct (getIdx (v1 t) st1) as [j st2].
    destruct (getIdx (v2 t) st2) as [k st3].
    destruct (indexAll ts st3) as [ks' st4] eqn:R.
    injection E as <- <-.
    now rewrite (IH _ _ _ R).
Qed.

Lemma indexAll_length ts :
  forall st ks st', indexAll ts st = (ks, st') -> length ks = length ts.
Proof.
  induction ts as [|t ts IH]; simpl; intros st ks st' E.
  - now injection E as <- <-.
  - destruct (indexTriangle t st) as [k st1].
    destruct (indexAll ts st1) as [ks' st2] eqn:R.
    injection E as <- <-. simpl. now rewrite (IH _ _ _ R).
Qed.

(** The merged indices of a triangle list, facet by facet. *)
Lemma indexAll_spec ts ks st' :
  indexAll ts ([], []) = (ks, st') ->
  vmap_inv st'
  /\ incl (snd st') (positions ts)
  /\ Forall2 (fun t k => let '(a, b, c) := k in
                slot_of (snd st') (v0 t) a /\ slot_of (snd st') (v1 t) b
                /\ slot_of (snd st') (v2 t) c) ts ks.
Proof.
  intro E. pose proof (indexAll_length _ _ _ _ E) as L.
  apply indexAll_indexSeq in E.
  destruct (indexSeq_spec _ _ _ _ vmap_inv_nil E) as (Hi & (suf & Es & Is) & F).
  split; [assumption|]. split; [simpl in Es; now rewrite Es|].
  clear E Es Is Hi. revert ks L F.
  induction ts as [|t ts IH]; intros [|[[a b] c] ks] L F; simpl in L; try discriminate.
  - constructor.
  - simpl in F. inversion F as [|? ? ? ? Ha F1]; subst.
    inversion F1 as [|? ? ? ? Hb F2]; subst.
    inversion F2 as [|? ? ? ? Hc F3]; subst.
    constructor; [auto|]. apply IH; [lia|assumption].
Qed.

(* ================================================================== *)
(** * Claim C9: which positions are the same vertex *)
(* ================================================================== *)

Lemma Forall2_nth (A B : Type) (P : A -> B -> Prop) l l' da db p :
  Forall2 P l l' -> p < length l -> P (nth p l da) (nth p l' db).
Proof.
  intro F. revert p. induction F as [|a b l l' H F IH]; simpl; intros p L; [lia|].
  destruct p as [|p]; [assumption|]. apply IH. lia.
Qed.






(* ================================================================== *)
(** * Claim C10: the empty mesh *)
(* ================================================================== *)

(** C10.  On a mesh without triangles nothing fails: the classifier keeps
    no facet, [addCaps] returns no triangle, [computeFluidMesh] returns
    the empty list and the line written by [cleanMesh], [volume] is 0,
    [cleanMesh] leaves the empty list empty and writes its line, and
    [checkWatertight] writes its line and returns false. *)
Theorem empty_mesh_degrades_gracefully r originOffset tMin tEps :
  indexedTriangles_ r = [] ->
  evenHitTriangles r originOffset tMin tEps = []
  /\ addCaps r [] = Some []
  /\ computeFluidMesh r originOffset tMin tEps = Some ([], ("No triangles." ++ newline)%string)
  /\ volume r = S754_zero false
  /\ cleanMesh [] = ([], ("No triangles." ++ newline)%string)
  /\ checkWatertight r = (false, ("Watertight: no triangles" ++ newline)%string).
Proof.
  intro E.
  assert (Ev : evenHitTriangles r originOffset tMin tEps = []).
  { unfold evenHitTriangles, triangleCount. now rewrite E. }
  assert (Ac : addCaps r [] = Some []).
  { unfold addCaps. simpl. destruct (vertices_ r); reflexivity. }
  repeat split.
  - exact Ev.
  - exact Ac.
  - unfold computeFluidMesh, fluidBeforeClean. rewrite Ev, Ac. reflexivity.
  - unfold volume. rewrite E. reflexivity.
  - unfold checkWatertight. now rewrite E.
Qed.

Lemma empty_mesh_witness :
  computeFluidMesh (build []) F32.c1em4 F32.c1em2 F32.c1em4
  = Some ([], ("No triangles." ++ newline)%string).
Proof.
  apply (empty_mesh_degrades_gracefully (build []) F32.c1em4 F32.c1em2 F32.c1em4).
  reflexivity.
Defined.

(* ================================================================== *)
(** * Claim C4: the caps are flipped before the cleaning *)
(* ================================================================== *)

Lemma fold_left_snoc_filter (A : Type) (p : A -> bool) l :
  forall acc,
  fold_left (fun acc i => if p i then acc ++ [i] else acc) l acc = acc ++ filter p l.
Proof.
  induction l as [|a l IH]; simpl; intro acc; [now rewrite app_nil_r|].
  rewrite IH. destruct (p a); [|reflexivity]. now rewrite <- app_assoc.
Qed.

Lemma evenHitTriangles_filter r originOffset tMin tEps :
  evenHitTriangles r originOffset tMin tEps
  = filter (evenHit r originOffset tMin tEps) (seq 0 (triangleCount r)).
Proof. unfold evenHitTriangles. now rewrite fold_left_snoc_filter. Qed.

Lemma evenHitTriangles_in_range r originOffset tMin tEps :
  filter (fun i => i <? triangleCount r) (evenHitTriangles r originOffset tMin tEps)
  = evenHitTriangles r originOffset tMin tEps.
Proof.
  rewrite evenHitTriangles_filter.
  apply forallb_filter_id. apply forallb_forall. intros i H.
  apply filter_In in H. destruct H as [H _]. apply in_seq in H.
  apply Nat.ltb_lt. lia.
Qed.

Lemma flipFrom_app l caps : flipFrom (length l) (l ++ caps) = l ++ map flipCap caps.
Proof.
  unfold flipFrom.
  rewrite firstn_app, skipn_app, Nat.sub_diag, firstn_all, skipn_all. simpl.
  now rewrite app_nil_r.
Qed.

Lemma Forall2_In_r (A B : Type) (P : A -> B -> Prop) l l' b :
  Forall2 P l l' -> In b l' -> exists a, In a l /\ P a b.
Proof.
  induction 1 as [|a0 b0 l l' H F IH]; simpl; [tauto|].
  intros [<-|Hb].
  - exists a0. auto.
  - destruct (IH Hb) as (a & Ha & Pa). exists a. auto.
Qed.

Lemma dedupTris_incl l :
  forall seen k, In k (fst (dedupTris seen l)) -> In k l.
Proof.
  induction l as [|t l IH]; simpl; intros seen k; [tauto|].
  destruct (kset_mem (sort3 t) seen).
  - destruct (dedupTris seen l) as [u d] eqn:E. simpl. intro H. right.
    apply (IH seen). now rewrite E.
  - destruct (dedupTris (sort3 t :: seen) l) as [u d] eqn:E. simpl.
    intros [<-|H]; [now left|]. right. apply (IH (sort3 t :: seen)). now rewrite E.
Qed.

Lemma rebuild_In verts k t :
  In t (rebuild verts k) ->
  let '(a, b, c) := k in
  v0 t = nth a verts vzero /\ v1 t = nth b verts vzero /\ v2 t = nth c verts vzero.
Proof.
  destruct k as [[a b] c]. unfold rebuild.
  destruct (F32.le _ F32.c1em10); [intros []|].
  intros [<-|[]]. simpl. auto.
Qed.

(** The cleaner keeps the order of the vertices of a facet: every facet
    it returns holds, slot by slot, positions equivalent to those of a
    facet it was given. *)
Lemma cleanMesh_keeps_vertex_order ts t' :
  In t' (fst (cleanMesh ts)) ->
  exists t, In t ts
    /\ Vec3_equiv (v0 t') (v0 t) = true
    /\ Vec3_equiv (v1 t') (v1 t) = true
    /\ Vec3_equiv (v2 t') (v2 t) = true.
Proof.
  destruct ts as [|t0 ts0]; [intros []|].
  remember (t0 :: ts0) as ts eqn:Ets. unfold cleanMesh. rewrite Ets at 1.
  unfold cleanCore.
  destruct (indexAll ts ([], [])) as [keys [idx verts]] eqn:E.
  destruct (dedupTris [] (filter (fun t => negb (degenerateKey t)) keys)) as [u d] eqn:D.
  simpl. intro H.
  apply in_flat_map in H. destruct H as (k & Hk & Ht).
  assert (Hin : In k keys).
  { pose proof (dedupTris_incl (filter (fun t => negb (degenerateKey t)) keys) [] k) as I.
    rewrite D in I.
    specialize (I Hk). now apply filter_In in I. }
  destruct (indexAll_spec _ _ _ E) as (_ & _ & F).
  destruct (Forall2_In_r _ _ _ _ _ _ F Hin) as (t & Hts & P).
  apply rebuild_In in Ht. destruct k as [[a b] c].
  destruct Ht as (-> & -> & ->). destruct P as ([_ Pa] & [_ Pb] & [_ Pc]).
  exists t. auto.
Qed.

(** C4.  In every run of [computeFluidMesh] the list returned by
    [addCaps] is the even-hit subset followed by the caps; the list
    handed to [cleanMesh] is the same subset followed by the same caps,
    each with v1 and v2 swapped and its normal negated.  Every facet of
    the final output holds, in the same order and up to the merge of
    equivalent positions, the vertices of a facet of that list: of a
    facet of the subset, or of a cap in its flipped order. *)
Theorem caps_are_flipped_before_cleaning r originOffset tMin tEps :
  let ev := evenHitTriangles r originOffset tMin tEps in
  exists caps,
    addCaps r ev = Some (map (getTriangle r) ev ++ caps)
    /\ fluidBeforeClean r originOffset tMin tEps
       = Some (map (getTriangle r) ev ++ map flipCap caps)
    /\ computeFluidMesh r originOffset tMin tEps
       = Some (cleanMesh (map (getTriangle r) ev ++ map flipCap caps))
    /\ (forall c, flipCap c = mkTriangle (Vec3_neg (normal c)) (v0 c) (v2 c) (v1 c))
    /\ (forall t', In t' (fst (cleanMesh (map (getTriangle r) ev ++ map flipCap caps))) ->
        (exists i, In i ev
           /\ Vec3_equiv (v0 t') (v0 (getTriangle r i)) = true
           /\ Vec3_equiv (v1 t') (v1 (getTriangle r i)) = true
           /\ Vec3_equiv (v2 t') (v2 (getTriangle r i)) = true)
        \/ (exists c, In c caps
              /\ Vec3_equiv (v0 t') (v0 c) = true
              /\ Vec3_equiv (v1 t') (v2 c) = true
              /\ Vec3_equiv (v2 t') (v1 c) = true)).
Proof.
  intro ev.
  destruct (addCaps_returns r ev) as (caps & E).
  unfold ev in E at 2. rewrite evenHitTriangles_in_range in E. fold ev in E.
  exists caps. split; [exact E|].
  assert (B : fluidBeforeClean r originOffset tMin tEps
              = Some (map (getTriangle r) ev ++ map flipCap caps)).
  { unfold fluidBeforeClean. fold ev. rewrite E.
    rewrite <- (length_map (getTriangle r) ev), flipFrom_app. reflexivity. }
  split; [exact B|]. split; [unfold computeFluidMesh; now rewrite B|].
  split; [reflexivity|].
  intros t' H. apply cleanMesh_keeps_vertex_order in H.
  destruct H as (t & Ht & E0 & E1 & E2).
  apply in_app_or in Ht. destruct Ht as [Ht|Ht]; apply in_map_iff in Ht.
  - destruct Ht as (i & <- & Hi). left. exists i. auto.
  - destruct Ht as (c & <- & Hc). right. exists c. auto.
Qed.

(* ================================================================== *)
(** * Claim C6: what [checkWatertight] returns *)
(* ================================================================== *)

Lemma count_if_zero (A : Type) (p : A -> bool) l :
  count_if p l = 0 <-> forall a, In a l -> p a = false.
Proof.
  unfold count_if. induction l as [|a l IH]; simpl.
  - split; [intros _ a []|reflexivity].
  - destruct (p a) eqn:E; simpl.
    + split; [intro K; discriminate K|].
      intro H. specialize (H a (or_introl eq_refl)). congruence.
    + rewrite IH. split.
      * intros H b [<-|Hb]; auto.
      * intros H b Hb. apply H. now right.
Qed.

Lemma countDuplicates_zero l :
  forall seen,
  countDuplicates seen l = 0
  <-> NoDup (map (fun t => sort3 (tri_key t)) l)
      /\ forall t, In t l -> ~ In (sort3 (tri_key t)) seen.
Proof.
  induction l as [|t l IH]; intro seen; cbn [countDuplicates map].
  - split; [intros _; split; [constructor|intros t []]|reflexivity].
  - destruct (kset_mem (sort3 (tri_key t)) seen) eqn:M.
    + apply kset_mem_In in M. split; [intro K; discriminate K|].
      intros [_ H]. destruct (H t (or_introl eq_refl) M).
    + assert (N : ~ In (sort3 (tri_key t)) seen).
      { intro H. apply kset_mem_In in H. congruence. }
      rewrite IH. split.
      * intros [ND H]. split.
        -- constructor; [|assumption]. intro Hin. apply in_map_iff in Hin.
           destruct Hin as (t' & E & Ht'). apply (H t' Ht'). left. now rewrite E.
        -- intros t' [<-|Ht'] Hs; [now apply N|].
           apply (H t' Ht'). now right.
      * intros [ND H]. inversion ND as [|? ? Hn ND']; subst. split; [assumption|].
        intros t' Ht' [E|Hs].
        -- apply Hn. apply in_map_iff. exists t'. auto.
        -- apply (H t' (or_intror Ht') Hs).
Qed.

Lemma edgeCount_fold ks :
  forall m,
  fold_left countTriEdges ks m
  = fold_left (fun m e => upd pair_compare e bump m) (flat_map triEdges ks) m.
Proof.
  induction ks as [|[[a b] c] ks IH]; simpl; intro m; [reflexivity|].
  now rewrite IH.
Qed.

Lemma incidence_cons es e e' :
  incidence (e' :: es) e = (if pair_eqb e e' then 1 else 0) + incidence es e.
Proof.
  unfold incidence, count_if. simpl. destruct (pair_eqb e e'); reflexivity.
Qed.

Lemma pair_compare_eqb a b :
  pair_eqb a b = match pair_compare a b with Eq => true | _ => false end.
Proof.
  destruct (pair_compare a b) eqn:C.
  - apply pair_compare_eq in C. now apply pair_eqb_eq.
  - destruct (pair_eqb a b) eqn:E; [|reflexivity].
    apply pair_eqb_eq, pair_compare_eq in E. congruence.
  - destruct (pair_eqb a b) eqn:E; [|reflexivity].
    apply pair_eqb_eq, pair_compare_eq in E. congruence.
Qed.

(** The counter of an edge is its incidence. *)
Lemma edge_counter es e :
  forall m, keys_sorted pair_compare m ->
  keys_sorted pair_compare (fold_left (fun m e => upd pair_compare e bump m) es m)
  /\ ocount (lookup pair_compare e
               (fold_left (fun m e => upd pair_compare e bump m) es m))
     = ocount (lookup pair_compare e m) + incidence es e.
Proof.
  induction es as [|e' es IH]; simpl; intros m S.
  - split; [assumption|]. unfold incidence, count_if. simpl. lia.
  - destruct (IH _ (pair_upd_sorted _ e' bump m S)) as [S' E]. split; [assumption|].
    rewrite E, pair_lookup_upd, incidence_cons, pair_compare_eqb by assumption.
    destruct (pair_compare e e') eqn:C; try lia.
    apply pair_compare_eq in C. subst e'.
    destruct (lookup pair_compare e m); simpl; lia.
Qed.

Lemma edgeCount_spec ks :
  keys_sorted pair_compare (edgeCount ks)
  /\ forall e, ocount (lookup pair_compare e (edgeCount ks))
               = incidence (flat_map triEdges ks) e.
Proof.
  unfold edgeCount. rewrite edgeCount_fold.
  split.
  - apply (edge_counter (flat_map triEdges ks) (0, 0) []). constructor.
  - intro e. destruct (edge_counter (flat_map triEdges ks) e []) as [_ E]; [constructor|].
    exact E.
Qed.

Lemma incidence_pos es e : In e es <-> 1 <= incidence es e.
Proof.
  induction es as [|e' es IH]; [unfold incidence, count_if; simpl; split; [tauto|lia]|].
  rewrite incidence_cons. simpl. destruct (pair_eqb e e') eqn:E.
  - apply pair_eqb_eq in E. split; [lia|auto].
  - split.
    + intros [H|H]; [subst; rewrite (proj2 (pair_eqb_eq e e) eq_refl) in E; discriminate|].
      apply IH in H. lia.
    + intro H. right. apply IH. lia.
Qed.

(** The entries of the edge map are the edges, each with its incidence. *)
Lemma edgeCount_entries ks k v :
  In (k, v) (edgeCount ks)
  <-> In k (flat_map triEdges ks) /\ v = incidence (flat_map triEdges ks) k.
Proof.
  destruct (edgeCount_spec ks) as [S E].
  rewrite <- (pair_lookup_In _ k v (edgeCount ks) S).
  specialize (E k). rewrite incidence_pos.
  destruct (lookup pair_compare k (edgeCount ks)) as [n|] eqn:L; simpl in E.
  - split.
    + intros [= <-]. split; [|assumption].
      assert (P : 1 <= n); [|lia].
      apply pair_lookup_In in L; [|assumption].
      clear E. revert L. unfold edgeCount. rewrite edgeCount_fold.
      assert (G : forall es m, (forall k' v', In (k', v') m -> 1 <= v') ->
                  keys_sorted pair_compare m ->
                  forall k' v', In (k', v')
                    (fold_left (fun m e => upd pair_compare e bump m) es m) -> 1 <= v').
      { induction es as [|e es IH]; simpl; intros m Pm Sm k' v' H; [eauto|].
        apply (IH (upd pair_compare e bump m)) in H; [assumption| |now apply pair_upd_sorted].
        intros k2 v2 H2. apply pair_lookup_In in H2; [|now apply pair_upd_sorted].
        rewrite pair_lookup_upd in H2 by assumption.
        destruct (pair_compare k2 e).
        - injection H2 as <-. destruct (lookup pair_compare e m); simpl; lia.
        - apply pair_lookup_In in H2; eauto.
        - apply pair_lookup_In in H2; eauto. }
      apply (G _ []); [intros ? ? []|constructor].
    + intros [_ ->]. now rewrite E.
  - split; [discriminate|]. intros [P _]. lia.
Qed.

(** C6.  On a mesh with at least one triangle [checkWatertight] returns
    true exactly when no two triangles have the same sorted index triple,
    no triangle fails the area test, and every undirected edge has
    incidence 2. *)
Theorem checkWatertight_true_iff r :
  indexedTriangles_ r <> [] ->
  (fst (checkWatertight r) = true
   <-> NoDup (map (fun t => sort3 (tri_key t)) (indexedTriangles_ r))
       /\ (forall t, In t (indexedTriangles_ r) -> degenerateTri r t = false)
       /\ (forall e, In e (meshEdges r) -> incidence (meshEdges r) e = 2)).
Proof.
  intro NE. unfold checkWatertight.
  destruct (indexedTriangles_ r) as [|t0 l0] eqn:El; [now destruct NE|].
  rewrite <- El. cbn [fst]. unfold watertightFlag, watertightStats.
  cbn [duplicateTriangles boundaryCount nonManifoldEdges degenerateCount].
  rewrite !andb_true_iff, !Nat.eqb_eq, !count_if_zero, countDuplicates_zero.
  unfold meshEdges.
  set (ks := map tri_key (indexedTriangles_ r)).
  split.
  - intros [[[[ND _] B] M] D]. split; [assumption|]. split; [assumption|].
    intros e He.
    assert (Hin : In (e, incidence (flat_map triEdges ks) e) (edgeCount ks)).
    { apply edgeCount_entries. auto. }
    pose proof (B _ Hin) as B1. pose proof (M _ Hin) as M1. cbn [snd] in B1, M1.
    apply incidence_pos in He. rewrite B1 in M1. cbn [negb andb] in M1.
    apply Nat.eqb_neq in B1. apply Nat.ltb_ge in M1. lia.
  - intros (ND & D & I). repeat split; try assumption.
    + intros t _ [].
    + intros [k v] H. apply edgeCount_entries in H. destruct H as [H ->]. cbn [snd].
      rewrite (I _ H). reflexivity.
    + intros [k v] H. apply edgeCount_entries in H. destruct H as [H ->]. cbn [snd].
      rewrite (I _ H). reflexivity.
Qed.

Lemma checkWatertight_true_iff_witness :
  fst (checkWatertight simple_mesh) = true
  <-> NoDup (map (fun t => sort3 (tri_key t)) (indexedTriangles_ simple_mesh))
      /\ (forall t, In t (indexedTriangles_ simple_mesh) -> degenerateTri simple_mesh t = false)
      /\ (forall e, In e (meshEdges simple_mesh) -> incidence (meshEdges simple_mesh) e = 2).
Proof.
  apply (checkWatertight_true_iff simple_mesh).
  vm_compute. discriminate.
Defined.

(* ================================================================== *)
(** * Claim C7: what [cleanMesh] removes *)
(* ================================================================== *)

Lemma key3_eqb_sym a b : key3_eqb a b = key3_eqb b a.
Proof.
  destruct (key3_eqb a b) eqn:E, (key3_eqb b a) eqn:E'; try reflexivity.
  - apply key3_eqb_eq in E. subst. rewrite (proj2 (key3_eqb_eq b b) eq_refl) in E'.
    discriminate.
  - apply key3_eqb_eq in E'. subst. rewrite (proj2 (key3_eqb_eq a a) eq_refl) in E.
    discriminate.
Qed.

Lemma kset_mem_bool k s s' :
  (In k s <-> In k s') -> kset_mem k s = kset_mem k s'.
Proof.
  intro H. destruct (kset_mem k s) eqn:E, (kset_mem k s') eqn:E'; try reflexivity.
  - apply kset_mem_In, H, kset_mem_In in E. congruence.
  - apply kset_mem_In, H, kset_mem_In in E'. congruence.
Qed.

Lemma dedupTris_fates keys :
  forall seen earlier,
  seen_inv seen earlier ->
  fst (dedupTris seen (filter (fun t => negb (degenerateKey t)) keys))
  = flat_map (fun kf => match snd kf with Kept => [fst kf] | _ => [] end)
             (combine keys (fates earlier keys))
  /\ snd (dedupTris seen (filter (fun t => negb (degenerateKey t)) keys))
     = count_if is_duplicate (fates earlier keys).
Proof.
  induction keys as [|t keys IH]; intros seen earlier Hs; [split; reflexivity|].
  cbn [filter fates combine flat_map]. unfold fate.
  destruct (degenerateKey t) eqn:Dg; cbn [negb snd fst].
  - destruct (IH seen (t :: earlier)) as [E1 E2].
    { intro u. rewrite Hs. unfold repeats. cbn [existsb]. now rewrite Dg. }
    split; [exact E1|]. rewrite E2. reflexivity.
  - cbn [dedupTris]. rewrite Hs.
    destruct (repeats earlier t) eqn:R.
    + destruct (IH seen (t :: earlier)) as [E1 E2].
      { intro u. rewrite Hs. unfold repeats. cbn [existsb]. rewrite Dg. cbn [negb andb].
        destruct (key3_eqb (sort3 t) (sort3 u)) eqn:K; [|reflexivity].
        apply key3_eqb_eq in K. cbn [orb].
        unfold repeats in R. rewrite <- K. exact R. }
      destruct (dedupTris seen (filter _ keys)) as [u d]. cbn [fst snd] in *.
      split; [exact E1|]. rewrite E2. reflexivity.
    + destruct (IH (sort3 t :: seen) (t :: earlier)) as [E1 E2].
      { intro u. unfold repeats. cbn [existsb]. rewrite Dg. cbn [negb andb].
        unfold kset_mem. cbn [existsb]. rewrite key3_eqb_sym. f_equal. apply Hs. }
      destruct (dedupTris (sort3 t :: seen) (filter _ keys)) as [u d]. cbn [fst snd] in *.
      split; [now rewrite E1|]. rewrite E2. reflexivity.
Qed.

Lemma degenerate_fates keys :
  forall earlier,
  count_if degenerateKey keys = count_if is_degenerate (fates earlier keys).
Proof.
  unfold count_if.
  induction keys as [|t keys IH]; intro earlier; [reflexivity|].
  cbn [filter fates]. unfold fate.
  destruct (degenerateKey t); cbn [is_degenerate].
  - cbn [length]. now rewrite (IH (t :: earlier)).
  - destruct (repeats earlier t); cbn [is_degenerate]; apply IH.
Qed.

Lemma vfind_cons v k i m :
  vfind v ((k, i) :: m) = if Vec3_equiv k v then Some i else vfind v m.
Proof. unfold vfind. simpl. destruct (Vec3_equiv k v); reflexivity. Qed.

Lemma rebuild_nearZeroArea verts a b c :
  rebuild verts (a, b, c)
  = if nearZeroArea (nth a verts vzero) (nth b verts vzero) (nth c verts vzero)
    then []
    else [mkTriangle
            (vscale_inv
               (edgeCross (nth a verts vzero) (nth b verts vzero) (nth c verts vzero))
               (vlen (edgeCross (nth a verts vzero) (nth b verts vzero) (nth c verts vzero))))
            (nth a verts vzero) (nth b verts vzero) (nth c verts vzero)].
Proof. reflexivity. Qed.

(** A facet whose first two vertices are the same position is degenerate
    after the merge. *)
Lemma repeated_vertex_removed t :
  v0 t = v1 t ->
  fst (cleanMesh [t]) = []
  /\ degenerate (snd (cleanCore [t])) = 1
  /\ dupTris (snd (cleanCore [t])) = 0
  /\ finalTris (snd (cleanCore [t])) = 0
  /\ snd (cleanMesh [t]) = cleanReportText (snd (cleanCore [t])).
Proof.
  intro E.
  assert (K : exists k st, indexAll [t] ([], []) = ([(0, 0, k)], st)).
  { cbn [indexAll]. unfold indexTriangle, getIdx at 1. cbn [vfind find length app].
    unfold getIdx at 1. rewrite vfind_cons, <- E, Vec3_equiv_refl.
    destruct (getIdx (v2 t) ([(v0 t, 0)], [v0 t])) as [k st]. eauto. }
  destruct K as (k & [idx verts] & K).
  unfold cleanMesh, cleanCore. rewrite K.
  cbn [filter degenerateKey Nat.eqb orb negb dedupTris flat_map length count_if fst snd
       degenerate dupTris finalTris].
  repeat split; reflexivity.
Qed.

(** Two copies of a facet with three distinct positions that passes the
    area test leave one facet, and one duplicate is reported. *)
Lemma coincident_pair_reduced t :
  Vec3_equiv (v0 t) (v1 t) = false ->
  Vec3_equiv (v1 t) (v2 t) = false ->
  Vec3_equiv (v0 t) (v2 t) = false ->
  nearZeroArea (v0 t) (v1 t) (v2 t) = false ->
  length (fst (cleanMesh [t; t])) = 1
  /\ dupTris (snd (cleanCore [t; t])) = 1
  /\ degenerate (snd (cleanCore [t; t])) = 0
  /\ finalTris (snd (cleanCore [t; t])) = 1
  /\ snd (cleanMesh [t; t]) = cleanReportText (snd (cleanCore [t; t])).
Proof.
  intros E01 E12 E02 A.
  assert (E10 : Vec3_equiv (v1 t) (v0 t) = false) by now rewrite Vec3_equiv_sym.
  assert (E21 : Vec3_equiv (v2 t) (v1 t) = false) by now rewrite Vec3_equiv_sym.
  assert (E20 : Vec3_equiv (v2 t) (v0 t) = false) by now rewrite Vec3_equiv_sym.
  assert (K : indexAll [t; t] ([], [])
              = ([(0, 1, 2); (0, 1, 2)],
                 ([(v2 t, 2); (v1 t, 1); (v0 t, 0)], [v0 t; v1 t; v2 t]))).
  { cbn [indexAll]. unfold indexTriangle, getIdx.
    repeat first [ rewrite vfind_cons | rewrite E01 | rewrite E12 | rewrite E02
                 | rewrite E10 | rewrite E21 | rewrite E20 | rewrite Vec3_equiv_refl
                 | progress cbn [vfind find length app] ].
    reflexivity. }
  unfold cleanMesh, cleanCore. rewrite K.
  cbn [filter degenerateKey Nat.eqb orb negb dedupTris sort3 Nat.leb kset_mem existsb
       key3_eqb andb flat_map].
  rewrite rebuild_nearZeroArea. cbn [nth]. rewrite A.
  cbn [app length count_if filter degenerateKey Nat.eqb orb fst snd
       degenerate dupTris finalTris].
  repeat split; reflexivity.
Qed.

Lemma cleanCore_kept ts :
  let keys := fst (indexAll ts ([], [])) in
  let verts := snd (snd (indexAll ts ([], []))) in
  fst (cleanCore ts) = flat_map (rebuild verts) (keptKeys keys)
  /\ degenerate (snd (cleanCore ts)) = count_if is_degenerate (fates [] keys)
  /\ dupTris (snd (cleanCore ts)) = count_if is_duplicate (fates [] keys)
  /\ initialTris (snd (cleanCore ts)) = length ts
  /\ finalTris (snd (cleanCore ts)) = length (fst (cleanCore ts)).
Proof.
  unfold cleanCore, keptKeys.
  destruct (indexAll ts ([], [])) as [keys [idx verts]]. cbn [fst snd].
  destruct (dedupTris_fates keys [] []) as [E1 E2]; [intro t; reflexivity|].
  destruct (dedupTris [] (filter (fun t => negb (degenerateKey t)) keys)) as [u d].
  cbn [fst snd] in *. subst u d.
  repeat split. apply degenerate_fates.
Qed.

(** C7 (amended).  [cleanMesh] removes exactly the triangles that are
    degenerate after the vertex merge (two of the three merged indices
    equal), those that repeat the sorted index triple of an earlier
    triangle that is not degenerate, and those whose recomputed cross
    product is at most 1e-10 long; the report counts the first two kinds.
    In particular two copies of the facet of the duplicate test, and of
    any facet with three distinct positions that passes the area test,
    reduce to one triangle with duplicate count 1, and a single triangle
    with v0 = v1 is removed with degenerate count 1 and no triangle left. *)
Theorem cleanMesh_removes_degenerate_duplicate_and_flat ts :
  ts <> [] ->
  let keys := fst (indexAll ts ([], [])) in
  let verts := snd (snd (indexAll ts ([], []))) in
  let c := snd (cleanCore ts) in
  cleanMesh ts = (flat_map (rebuild verts) (keptKeys keys), cleanReportText c)
  /\ (forall i j k, rebuild verts (i, j, k) = []
        <-> nearZeroArea (nth i verts vzero) (nth j verts vzero) (nth k verts vzero) = true)
  /\ degenerate c = count_if is_degenerate (fates [] keys)
  /\ dupTris c = count_if is_duplicate (fates [] keys)
  /\ initialTris c = length ts
  /\ finalTris c = length (fst (cleanMesh ts))
  /\ (length (fst (cleanMesh [flat_facet; flat_facet])) = 1
      /\ dupTris (snd (cleanCore [flat_facet; flat_facet])) = 1)
  /\ (forall t,
        Vec3_equiv (v0 t) (v1 t) = false ->
        Vec3_equiv (v1 t) (v2 t) = false ->
        Vec3_equiv (v0 t) (v2 t) = false ->
        nearZeroArea (v0 t) (v1 t) (v2 t) = false ->
        length (fst (cleanMesh [t; t])) = 1 /\ dupTris (snd (cleanCore [t; t])) = 1)
  /\ (forall t, v0 t = v1 t ->
        fst (cleanMesh [t]) = []
        /\ degenerate (snd (cleanCore [t])) = 1
        /\ finalTris (snd (cleanCore [t])) = 0).
Proof.
  intros NE keys verts c.
  destruct (cleanCore_kept ts) as (E & Dg & Du & In_ & Fi).
  fold keys in E, Dg, Du. fold verts in E. fold c in Dg, Du, In_, Fi.
  assert (CM : cleanMesh ts = (fst (cleanCore ts), cleanReportText c)).
  { unfold cleanMesh, c. destruct ts as [|t0 ts0]; [now destruct NE|].
    destruct (cleanCore (t0 :: ts0)). reflexivity. }
  split; [now rewrite CM, E|].
  split.
  { intros i j k. rewrite rebuild_nearZeroArea.
    destruct (nearZeroArea _ _ _); split; intro H; try reflexivity; discriminate H. }
  split; [exact Dg|]. split; [exact Du|]. split; [exact In_|].
  split; [now rewrite CM|].
  split; [split; vm_compute; reflexivity|].
  split.
  - intros t E01 E12 E02 A.
    destruct (coincident_pair_reduced t E01 E12 E02 A) as (H1 & H2 & _). auto.
  - intros t E01. destruct (repeated_vertex_removed t E01) as (H1 & H2 & _ & H3 & _). auto.
Qed.

Lemma cleanMesh_removes_witness :
  length (fst (cleanMesh [repeated_vertex_facet; flat_facet; flat_facet])) = 1
  /\ fst (cleanMesh [repeated_vertex_facet]) = []
  /\ degenerate (snd (cleanCore [repeated_vertex_facet])) = 1.
Proof.
  pose proof (cleanMesh_removes_degenerate_duplicate_and_flat
                [repeated_vertex_facet; flat_facet; flat_facet]) as H.
  destruct H as (E & _ & _ & _ & _ & F & _ & _ & R); [discriminate|].
  split.
  - rewrite <- F. vm_compute. reflexivity.
  - destruct (R repeated_vertex_facet eq_refl) as (H1 & H2 & _). auto.
Defined.

(** The claim as stated fails on a facet with three distinct vertices on
    one line: after the merge it has three different indices and repeats
    no earlier triangle, yet the last loop of [cleanMesh] drops it, and
    the report counts neither a degenerate nor a duplicate triangle. *)
Lemma collinear_facet_is_removed_uncounted :
  fst (indexAll [collinear_facet] ([], [])) = [(0, 1, 2)]
  /\ fates [] (fst (indexAll [collinear_facet] ([], []))) = [Kept]
  /\ fst (cleanMesh [collinear_facet]) = []
  /\ degenerate (snd (cleanCore [collinear_facet])) = 0
  /\ dupTris (snd (cleanCore [collinear_facet])) = 0
  /\ initialTris (snd (cleanCore [collinear_facet])) = 1
  /\ finalTris (snd (cleanCore [collinear_facet])) = 0.
Proof. repeat split; vm_compute; reflexivity. Qed.

(* ================================================================== *)
(** * Claim C1: the interior classifier *)
(* ================================================================== *)


Lemma flt_true_not_nan a b :
  F32.lt a b = true -> F32.is_nan a = false /\ F32.is_nan b = false.
Proof. destruct a, b; simpl; try discriminate; auto. Qed.



Lemma fle_total a b :
  F32.is_nan a = false -> F32.is_nan b = false ->
  F32.lt a b = false -> F32.le b a = true.
Proof.
  intros Na Nb H. apply (fle_key _ _ Nb Na).
  destruct (key_total (fkey a) (fkey b)) as [K|[K|K]]; auto.
  apply (flt_key _ _ Na Nb) in K. congruence.
Qed.


(** What the intersector returns is beyond [1e-6f], so a kept hit is a
    proper distance. *)
Lemma rayIntersect_beyond_eps r k ro rd t :
  rayIntersect r k ro rd = Some t -> F32.le t F32.c1em6 = false.
Proof.
  unfold rayIntersect. cbv zeta.
  do 3 match goal with
       | |- (if ?c then None else _) = Some _ -> _ => destruct c; [discriminate|]
       end.
  match goal with |- (if ?c then None else _) = Some _ -> _ => destruct c eqn:E end;
    [discriminate|].
  intros [= <-]. exact E.
Qed.




(** [std::sort] rearranges the hits, in ascending order of distance. *)
Lemma insert_hit_perm h l : Permutation (h :: l) (insert_hit h l).
Proof.
  induction l as [|h' l IH]; simpl; [reflexivity|].
  destruct (hit_lt h' h); [|reflexivity].
  rewrite perm_swap. now constructor.
Qed.

Lemma sort_hits_perm l : Permutation l (sort_hits l).
Proof.
  unfold sort_hits. induction l as [|h l IH]; simpl; [reflexivity|].
  rewrite <- insert_hit_perm. now constructor.
Qed.






(** The merge loop computes the greedy count, which is unique. *)
Lemma countStep_greedy tEps hits :
  forall c last,
  exists n,
    fst (fold_left (countStep tEps) hits (c, last)) = c + n
    /\ GreedyCount tEps last (map fst hits) n.
Proof.
  induction hits as [|h hits IH]; intros c last; simpl.
  - exists 0. split; [lia|constructor].
  - destruct (F32.gt (F32.sub (fst h) last) tEps) eqn:G.
    + destruct (IH (S c) (fst h)) as (n & E & Gn).
      exists (S n). split; [lia|]. now apply Greedy_new.
    + destruct (IH c last) as (n & E & Gn).
      exists n. split; [assumption|]. now apply Greedy_merged.
Qed.


Lemma distinctHits_greedy tEps hits :
  GreedyCount tEps F32.cm1e30 (map fst hits) (distinctHits tEps hits).
Proof.
  destruct (countStep_greedy tEps hits 0 F32.cm1e30) as (n & E & G).
  change (distinctHits tEps hits = n) in E. rewrite E. exact G.
Qed.



(* ================================================================== *)
(** * Claim C8: cleaning twice *)
(* ================================================================== *)

Lemma sort3_same3 k k' : sort3 k = sort3 k' <-> same3 k k'.
Proof.
  destruct k as [[a b] c], k' as [[u v] w]. unfold sort3, same3.
  destruct (Nat.leb_spec a b), (Nat.leb_spec b c), (Nat.leb_spec a c),
    (Nat.leb_spec u v), (Nat.leb_spec v w), (Nat.leb_spec u w);
    try lia; (split; [intros [= -> -> ->]; lia|intro S3; f_equal; [f_equal|]; lia]).
Qed.

Lemma rebuild_facetOf verts k :
  rebuild verts k = if keyFlat verts k then [] else [facetOf verts k].
Proof. destruct k as [[a b] c]. reflexivity. Qed.

(** The kept triangles are not degenerate and have pairwise different
    sorted keys. *)
Lemma kept_fates keys :
  forall earlier,
  let K := flat_map (fun kf => match snd kf with Kept => [fst kf] | _ => [] end)
                    (combine keys (fates earlier keys)) in
  NoDup (map sort3 K)
  /\ forall k, In k K ->
       In k keys /\ degenerateKey k = false /\ repeats earlier k = false.
Proof.
  induction keys as [|t keys IH]; intro earlier; cbn [fates combine flat_map].
  - split; [constructor|intros k []].
  - destruct (IH (t :: earlier)) as [ND P]. unfold fate.
    destruct (degenerateKey t) eqn:Dg; cbn [snd fst app].
    + split; [exact ND|]. intros k Hk. destruct (P k Hk) as (I & D & R).
      repeat split; [now right|assumption|].
      unfold repeats in R |- *. cbn [existsb] in R. now apply orb_false_iff in R.
    + destruct (repeats earlier t) eqn:Rt; cbn [snd fst app].
      * split; [exact ND|]. intros k Hk. destruct (P k Hk) as (I & D & R).
        repeat split; [now right|assumption|].
        unfold repeats in R |- *. cbn [existsb] in R. now apply orb_false_iff in R.
      * split.
        -- cbn [map]. constructor; [|exact ND].
           intro H. apply in_map_iff in H. destruct H as (k & E & Hk).
           destruct (P k Hk) as (_ & _ & R). unfold repeats in R. cbn [existsb] in R.
           apply orb_false_iff in R. destruct R as [R _]. rewrite Dg in R.
           cbn [negb andb] in R. rewrite E in R.
           rewrite (proj2 (key3_eqb_eq _ _) eq_refl) in R. discriminate.
        -- intros k [<-|Hk]; [repeat split; auto; now left|].
           destruct (P k Hk) as (I & D & R).
           repeat split; [now right|assumption|].
           unfold repeats in R |- *. cbn [existsb] in R. now apply orb_false_iff in R.
Qed.

Lemma Forall2_map_left (A B C : Type) (f : A -> B) (P : B -> C -> Prop) l l' :
  Forall2 P (map f l) l' <-> Forall2 (fun a c => P (f a) c) l l'.
Proof.
  revert l'. induction l as [|a l IH]; intros [|c l']; simpl; split; intro H;
    try constructor; try (inversion H; fail).
  - now inversion H.
  - apply IH. now inversion H.
  - now inversion H.
  - apply IH. now inversion H.
Qed.

Lemma table_distinct_nth_eq T i j :
  table_distinct T -> i < length T -> j < length T ->
  nth i T vzero = nth j T vzero -> i = j.
Proof.
  intros D Li Lj E. apply D; try assumption. rewrite E. apply Vec3_equiv_refl.
Qed.

(** Indexing facets whose vertices are slots of a table without
    equivalent slots returns, for every vertex, a slot that holds that
    very position. *)
Lemma reindex_exact T L keys2 st2 :
  table_distinct T ->
  Forall (key_in_range (length T)) L ->
  indexAll (map (facetOf T) L) ([], []) = (keys2, st2) ->
  table_distinct (snd st2)
  /\ Forall (key_in_range (length (snd st2))) keys2
  /\ Forall2 (same_slots T (snd st2)) L keys2.
Proof.
  intros DT R E.
  destruct (indexAll_spec _ _ _ E) as ([_ D2] & I & F).
  split; [assumption|].
  apply Forall2_map_left in F.
  assert (InT : forall v, In v (snd st2) -> exists j, j < length T /\ nth j T vzero = v).
  { intros v Hv. apply I in Hv. unfold positions in Hv. apply in_flat_map in Hv.
    destruct Hv as (t & Ht & Hv). apply in_map_iff in Ht.
    destruct Ht as ([[a b] c] & <- & Hk).
    rewrite Forall_forall in R. specialize (R _ Hk). simpl in R.
    simpl in Hv. destruct Hv as [<-|[<-|[<-|[]]]]; eauto; [exists a|exists b|exists c]; tauto. }
  assert (X : forall a a', a < length T -> slot_of (snd st2) (nth a T vzero) a' ->
                           nth a' (snd st2) vzero = nth a T vzero).
  { intros a a' La [La' Eq].
    destruct (InT (nth a' (snd st2) vzero)) as (j & Lj & Ej); [now apply nth_In|].
    rewrite <- Ej in Eq |- *. f_equal. now apply DT. }
  clear E I InT. split.
  - apply Forall_forall. intros k' Hk'.
    destruct (Forall2_In_r _ _ _ _ _ _ F Hk') as ([[a b] c] & _ & H).
    destruct k' as [[a' b'] c']. simpl in H. destruct H as ([? _] & [? _] & [? _]).
    simpl. auto.
  - revert keys2 F. induction L as [|[[a b] c] L IH]; intros keys2 F.
    + inversion F. constructor.
    + inversion F as [|? [[a' b'] c'] ? ? H F']; subst.
      inversion R as [|? ? Rk RL]; subst. simpl in Rk. simpl in H.
      constructor; [|now apply IH].
      simpl. destruct H as (Ha & Hb & Hc). repeat split; apply X; tauto.
Qed.

(** Triples that name the same positions have the same three indices
    together. *)
Lemma same_slots_same3 T V k u k' u' :
  table_distinct T ->
  key_in_range (length T) k -> key_in_range (length T) u ->
  same_slots T V k k' -> same_slots T V u u' ->
  same3 k' u' -> same3 k u.
Proof.
  intros D. destruct k as [[a b] c], u as [[p q] s], k' as [[a' b'] c'], u' as [[p' q'] s'].
  simpl. intros (La & Lb & Lc) (Lp & Lq & Ls) (Ea & Eb & Ec) (Ep & Eq & Es) H.
  assert (X : forall i j i' j', i < length T -> j < length T ->
                nth i' V vzero = nth i T vzero -> nth j' V vzero = nth j T vzero ->
                i' = j' -> i = j).
  { intros i j i' j' Li Lj Ei Ej ->. apply (table_distinct_nth_eq T); auto. congruence. }
  destruct H as [H|[H|[H|[H|[H|H]]]]]; destruct H as (H1 & H2 & H3);
    [left|right; left|do 2 right; left|do 3 right; left|do 4 right; left|do 5 right];
    repeat split; eapply X; eauto.
Qed.

Lemma same_slots_nondegenerate T V k k' :
  table_distinct T -> key_in_range (length T) k ->
  same_slots T V k k' -> degenerateKey k = false -> degenerateKey k' = false.
Proof.
  intros D. destruct k as [[a b] c], k' as [[a' b'] c']. simpl.
  intros (La & Lb & Lc) (Ea & Eb & Ec) N.
  apply orb_false_iff in N. destruct N as [N N3].
  apply orb_false_iff in N. destruct N as [N1 N2].
  apply Nat.eqb_neq in N1, N2, N3.
  assert (X : forall i j i' j', i < length T -> j < length T ->
                nth i' V vzero = nth i T vzero -> nth j' V vzero = nth j T vzero ->
                i <> j -> (i' =? j') = false).
  { intros i j i' j' Li Lj Ei Ej Ne. apply Nat.eqb_neq. intros ->.
    apply Ne. apply (table_distinct_nth_eq T); auto. congruence. }
  rewrite (X a b), (X b c), (X c a); auto.
Qed.

(** In the second pass every triangle is kept by the first two loops. *)
Lemma second_pass_fates T V L :
  table_distinct T ->
  forall keys2 Le earlier2,
  Forall (key_in_range (length T)) L ->
  Forall (key_in_range (length T)) Le ->
  Forall (fun k => degenerateKey k = false) L ->
  NoDup (map sort3 L) ->
  (forall k u, In k L -> In u Le -> sort3 u <> sort3 k) ->
  Forall2 (same_slots T V) L keys2 ->
  Forall2 (same_slots T V) Le earlier2 ->
  fates earlier2 keys2 = repeat Kept (length keys2).
Proof.
  intro D. induction L as [|k L IH]; intros keys2 Le earlier2 R Re N ND Dis F Fe.
  - inversion F. reflexivity.
  - inversion F as [|? k' ? keys2' Hk F']; subst.
    inversion R as [|? ? Rk RL]; subst. inversion N as [|? ? Nk NL]; subst.
    cbn [map] in ND. inversion ND as [|? ? Hn ND']; subst.
    cbn [fates length repeat]. f_equal.
    + unfold fate. rewrite (same_slots_nondegenerate T V k k' D Rk Hk Nk).
      destruct (repeats earlier2 k') eqn:Rp; [|reflexivity].
      unfold repeats in Rp. apply existsb_exists in Rp.
      destruct Rp as (u' & Hu' & Rp). apply andb_true_iff in Rp. destruct Rp as [_ Rp].
      apply key3_eqb_eq in Rp.
      destruct (Forall2_In_r _ _ _ _ _ _ Fe Hu') as (u & Hu & Su).
      exfalso. apply (Dis k u (or_introl eq_refl) Hu).
      apply sort3_same3. rewrite Forall_forall in Re.
      apply (same_slots_same3 T V u k u' k' D (Re _ Hu) Rk Su Hk).
      now apply sort3_same3.
    + apply (IH keys2' (k :: Le) (k' :: earlier2)); try assumption.
      * constructor; assumption.
      * intros k1 u Hk1 [<-|Hu].
        -- intro E. apply Hn. rewrite E. now apply in_map.
        -- apply Dis; [now right|assumption].
      * constructor; assumption.
Qed.

Lemma flat_map_rebuild T K :
  flat_map (rebuild T) K = map (facetOf T) (filter (fun k => negb (keyFlat T k)) K).
Proof.
  induction K as [|k K IH]; [reflexivity|].
  cbn [flat_map filter]. rewrite rebuild_facetOf, IH.
  destruct (keyFlat T k); reflexivity.
Qed.

Lemma NoDup_map_filter (A B : Type) (f : A -> B) (p : A -> bool) l :
  NoDup (map f l) -> NoDup (map f (filter p l)).
Proof.
  induction l as [|a l IH]; simpl; intro N; [constructor|].
  inversion N as [|? ? Hn N']; subst.
  destruct (p a); simpl; [|now apply IH].
  constructor; [|now apply IH].
  intro H. apply Hn. apply in_map_iff in H. destruct H as (a' & E & Ha').
  apply filter_In in Ha'. apply in_map_iff. exists a'. tauto.
Qed.

Lemma kept_all keys :
  forall earlier,
  fates earlier keys = repeat Kept (length keys) ->
  flat_map (fun kf => match snd kf with Kept => [fst kf] | _ => [] end)
           (combine keys (fates earlier keys)) = keys
  /\ count_if is_degenerate (fates earlier keys) = 0
  /\ count_if is_duplicate (fates earlier keys) = 0.
Proof.
  intros earlier E. rewrite E. clear E.
  induction keys as [|k keys IH]; [repeat split; reflexivity|].
  cbn [length repeat combine flat_map snd fst app].
  destruct IH as (I1 & I2 & I3). rewrite I1.
  repeat split; assumption.
Qed.

Lemma second_pass_rebuild T V L :
  forall keys2,
  Forall2 (same_slots T V) L keys2 ->
  Forall (fun k => keyFlat T k = false) L ->
  flat_map (rebuild V) keys2 = map (facetOf T) L.
Proof.
  induction L as [|k L IH]; intros keys2 F N.
  - inversion F. reflexivity.
  - inversion F as [|? k' ? keys2' Hk F']; subst.
    inversion N as [|? ? Nk NL]; subst.
    cbn [flat_map map]. rewrite (IH _ F' NL), rebuild_facetOf.
    destruct k as [[a b] c], k' as [[a' b'] c']. simpl in Hk.
    destruct Hk as (Ea & Eb & Ec).
    unfold keyFlat, facetOf in *. rewrite Ea, Eb, Ec, Nk. reflexivity.
Qed.

(** What the first pass returns: the facets of index triples over a table
    without equivalent slots, in range, not degenerate, not flat, with
    pairwise different sorted keys. *)
Lemma first_pass_shape ts :
  exists T L,
    fst (cleanCore ts) = map (facetOf T) L
    /\ table_distinct T
    /\ Forall (key_in_range (length T)) L
    /\ Forall (fun k => degenerateKey k = false) L
    /\ Forall (fun k => keyFlat T k = false) L
    /\ NoDup (map sort3 L).
Proof.
  destruct (cleanCore_kept ts) as (E & _).
  destruct (indexAll ts ([], [])) as [keys [idx T]] eqn:I. cbn [fst snd] in E.
  destruct (indexAll_spec _ _ _ I) as ([_ D] & _ & F). cbn [snd] in D, F.
  destruct (kept_fates keys []) as [ND P]. fold (keptKeys keys) in ND, P.
  exists T, (filter (fun k => negb (keyFlat T k)) (keptKeys keys)).
  split; [now rewrite E, flat_map_rebuild|]. split; [assumption|].
  repeat split.
  - apply Forall_forall. intros k Hk. apply filter_In in Hk. destruct Hk as [Hk _].
    destruct (P k Hk) as (Hin & _).
    destruct (Forall2_In_r _ _ _ _ _ _ F Hin) as (t & _ & H).
    destruct k as [[a b] c]. destruct H as ([? _] & [? _] & [? _]). simpl. auto.
  - apply Forall_forall. intros k Hk. apply filter_In in Hk. destruct Hk as [Hk _].
    now destruct (P k Hk) as (_ & ? & _).
  - apply Forall_forall. intros k Hk. apply filter_In in Hk. destruct Hk as [_ Hk].
    now apply negb_true_iff in Hk.
  - now apply NoDup_map_filter.
Qed.

Lemma cleanCore_second_pass ts :
  let once := fst (cleanCore ts) in
  fst (cleanCore once) = once
  /\ dupTris (snd (cleanCore once)) = 0
  /\ degenerate (snd (cleanCore once)) = 0
  /\ initialTris (snd (cleanCore once)) = length once
  /\ finalTris (snd (cleanCore once)) = length once.
Proof.
  intro once.
  destruct (first_pass_shape ts) as (T & L & E & D & R & N & Fl & ND).
  fold once in E.
  destruct (cleanCore_kept once) as (E2 & Dg & Du & In_ & Fi).
  destruct (indexAll once ([], [])) as [keys2 st2] eqn:I. cbn [fst snd] in E2, Dg, Du.
  rewrite E in I.
  destruct (reindex_exact T L keys2 st2 D R I) as (D2 & R2 & F).
  assert (Fa : fates [] keys2 = repeat Kept (length keys2)).
  { apply (second_pass_fates T (snd st2) L D keys2 [] []); try assumption.
    - constructor.
    - intros k u _ [].
    - constructor. }
  destruct (kept_all keys2 [] Fa) as (K1 & K2 & K3).
  fold (keptKeys keys2) in K1. rewrite K1 in E2.
  rewrite (second_pass_rebuild T (snd st2) L keys2 F Fl), <- E in E2.
  repeat split.
  - exact E2.
  - now rewrite Du.
  - now rewrite Dg.
  - exact In_.
  - now rewrite Fi, E2.
Qed.

Lemma cleanMesh_cleanCore ts :
  fst (cleanMesh ts) = fst (cleanCore ts)
  /\ (ts <> [] -> snd (cleanMesh ts) = cleanReportText (snd (cleanCore ts))).
Proof.
  destruct ts as [|t ts]; [split; [reflexivity|intro H; now destruct H]|].
  unfold cleanMesh. destruct (cleanCore (t :: ts)). split; reflexivity.
Qed.

(** C8.  Cleaning a cleaned list removes nothing, for facets without a
    NaN coordinate, where [Vec3::operator<] is the strict weak order
    that the vertex map requires: the second pass returns the list it
    was given, so the triangle count is the same, and when that list is
    not empty its report gives 0 duplicates and 0 degenerate triangles
    removed and the same count before and after; on the empty list the
    second pass writes that there are no triangles. *)
Theorem cleanMesh_idempotent ts :
  Forall (fun v => vec_ok v = true) (positions ts) ->
  let once := fst (cleanMesh ts) in
  let twice := cleanMesh once in
  fst twice = once
  /\ length (fst twice) = length once
  /\ match once with
     | [] => snd twice = ("No triangles." ++ newline)%string
     | _ :: _ =>
         snd twice = cleanReportText (snd (cleanCore once))
         /\ dupTris (snd (cleanCore once)) = 0
         /\ degenerate (snd (cleanCore once)) = 0
         /\ initialTris (snd (cleanCore once)) = length once
         /\ finalTris (snd (cleanCore once)) = length once
     end.
Proof.
  intros _ once twice.
  destruct (cleanMesh_cleanCore ts) as [E1 _].
  destruct (cleanCore_second_pass ts) as (F & Du & Dg & In_ & Fi).
  rewrite <- E1 in F, Du, Dg, In_, Fi. fold once in F, Du, Dg, In_, Fi.
  destruct (cleanMesh_cleanCore once) as [E2 T2]. fold twice in E2, T2.
  assert (X : fst twice = once) by now rewrite E2.
  split; [exact X|]. split; [now rewrite X|].
  destruct once as [|t0 l0] eqn:O; [reflexivity|].
  split; [apply T2; discriminate|]. auto.
Qed.

Lemma cleanMesh_idempotent_witness :
  let once := fst (cleanMesh [flat_facet; repeated_vertex_facet; flat_facet]) in
  let twice := cleanMesh once in
  fst twice = once
  /\ length (fst twice) = length once
  /\ match once with
     | [] => snd twice = ("No triangles." ++ newline)%string
     | _ :: _ =>
         snd twice = cleanReportText (snd (cleanCore once))
         /\ dupTris (snd (cleanCore once)) = 0
         /\ degenerate (snd (cleanCore once)) = 0
         /\ initialTris (snd (cleanCore once)) = length once
         /\ finalTris (snd (cleanCore once)) = length once
     end.
Proof.
  apply (cleanMesh_idempotent [flat_facet; repeated_vertex_facet; flat_facet]).
  repeat constructor.
Defined.

(* ================================================================== *)
(** * Claim C3: the orientation of a cap *)
(* ================================================================== *)

Lemma capTriangle_unfold C va vb adjNormal :
  capTriangle C va vb adjNormal
  = if capSkipped C va vb then []
    else
      let n := vscale_inv (capCross C va vb) (vlen (capCross C va vb)) in
      let dot := dot3 n adjNormal in
      [mkTriangle (if F32.lt dot F32.zero then Vec3_neg n else n) C
                  (if F32.ge dot F32.zero then va else vb)
                  (if F32.ge dot F32.zero then vb else va)].
Proof.
  unfold capTriangle, capSkipped, vlen, norm2, capCross, dot3, vscale_inv.
  cbn [x y z]. reflexivity.
Qed.

(** A float is at least 0, or below 0, or a NaN. *)
Lemma sign_cases d :
  (F32.ge d F32.zero = true /\ F32.lt d F32.zero = false)
  \/ (F32.ge d F32.zero = false /\ F32.lt d F32.zero = true)
  \/ (F32.ge d F32.zero = false /\ F32.lt d F32.zero = false /\ F32.is_nan d = true).
Proof.
  destruct d as [s|s| |s m e]; simpl; auto; destruct s; auto.
Qed.

Lemma fge_zero_not_nan d : F32.ge d F32.zero = true -> F32.is_nan d = false.
Proof. destruct d; simpl; try discriminate; reflexivity. Qed.

(** C3 (amended).  The triangles [capOneLoop] emits for a loop with
    centroid C are, for the consecutive loop edges (a,b) whose cross
    product (a-C)x(b-C) is more than 1e-10 long: (C,a,b) with the
    normalised cross product as normal when its dot product with the
    geometry-derived normal of the one reference triangle handed to the
    capper for the whole loop is non-negative, and (C,b,a) with that
    normal negated when the dot product is negative.  (When the dot
    product is a NaN the order is (C,b,a) and the normal is kept.)  A path
    of fewer than three vertices gets no cap. *)
Theorem cap_follows_the_reference_triangle r loop triIdxForNormal t :
  In t (capOneLoop r loop triIdxForNormal)
  <-> 3 <= length loop
      /\ exists i, i < length loop
         /\ let C := loopCentroid r loop in
            let va := vertexAt r (nth i loop 0) in
            let vb := vertexAt r (nth ((i + 1) mod length loop) loop 0) in
            let n := vscale_inv (capCross C va vb) (vlen (capCross C va vb)) in
            let dot := dot3 n (normal (getTriangle r triIdxForNormal)) in
            capSkipped C va vb = false
            /\ ((F32.ge dot F32.zero = true /\ t = mkTriangle n C va vb)
                \/ (F32.lt dot F32.zero = true /\ t = mkTriangle (Vec3_neg n) C vb va)
                \/ (F32.is_nan dot = true /\ t = mkTriangle n C vb va)).
Proof.
  unfold capOneLoop.
  destruct (Nat.ltb_spec (length loop) 3) as [L|L].
  { split; [intros []|]. intros [H _]. lia. }
  rewrite in_flat_map. split.
  - intros (i & Hi & H). apply in_seq in Hi. split; [assumption|].
    exists i. split; [lia|]. cbv zeta.
    rewrite capTriangle_unfold in H.
    destruct (capSkipped _ _ _); [destruct H|]. split; [reflexivity|].
    cbv zeta in H. destruct H as [<-|[]].
    match goal with |- context [F32.ge ?d F32.zero] => destruct (sign_cases d) as [S|[S|S]] end.
    + destruct S as [-> ->]. left. split; reflexivity.
    + destruct S as [-> ->]. right. left. split; reflexivity.
    + destruct S as (-> & -> & N). right. right. split; [exact N|reflexivity].
  - intros (_ & i & Li & H). cbv zeta in H. destruct H as (Sk & H).
    exists i. split; [apply in_seq; lia|].
    rewrite capTriangle_unfold, Sk. cbv zeta. left.
    match goal with |- context [F32.ge ?d F32.zero] => destruct (sign_cases d) as [S|[S|S]] end.
    + destruct S as [G Lt_]. rewrite G, Lt_.
      destruct H as [[_ ->]|[[K _]|[K _]]].
      * reflexivity.
      * rewrite Lt_ in K. discriminate K.
      * apply fge_zero_not_nan in G. rewrite G in K. discriminate K.
    + destruct S as [G Lt_]. rewrite G, Lt_.
      destruct H as [[K _]|[[_ ->]|[K _]]].
      * rewrite G in K. discriminate K.
      * reflexivity.
      * apply flt_true_not_nan in Lt_. destruct Lt_ as [Lt_ _].
        rewrite Lt_ in K. discriminate K.
    + destruct S as (G & Lt_ & N). rewrite G, Lt_.
      destruct H as [[K _]|[[K _]|[_ ->]]].
      * rewrite G in K. discriminate K.
      * rewrite Lt_ in K. discriminate K.
      * reflexivity.
Qed.

(** The claim as stated fails on the tent: its boundary is one loop,
    2 -> 0 -> 3 -> 1, capped with facet 0, the owner of its first edge, as
    reference.  The edge 0 -> 3 is owned by facet 1; against the normal
    of facet 1 the dot product of its candidate cap is non-negative, so
    the claim has (C,0,3) emitted, but against the normal of facet 0 it
    is negative, and the cap emitted is (C,3,0) with the normal
    negated. *)
Lemma cap_ignores_the_owner_of_its_edge :
  exists st,
    traceBoundary tent_mesh [0; 1] = Some st
    /\ calls st = [([2; 0; 3; 1], 0)]
    /\ ownerOf (boundaryEdges tent_mesh [0; 1]) 0 3 = Some 1
    /\ let C := loopCentroid tent_mesh [2; 0; 3; 1] in
       let va := vertexAt tent_mesh 0 in
       let vb := vertexAt tent_mesh 3 in
       let n := vscale_inv (capCross C va vb) (vlen (capCross C va vb)) in
       capSkipped C va vb = false
       /\ F32.ge (dot3 n (normal (getTriangle tent_mesh 1))) F32.zero = true
       /\ F32.lt (dot3 n (normal (getTriangle tent_mesh 0))) F32.zero = true
       /\ nth 1 (capOneLoop tent_mesh [2; 0; 3; 1] 0) (mkTriangle vzero vzero vzero vzero)
          = mkTriangle (Vec3_neg n) C vb va
       /\ mkTriangle (Vec3_neg n) C vb va <> mkTriangle n C va vb.
Proof.
  eexists. split; [vm_compute; reflexivity|].
  repeat split; try (vm_compute; reflexivity).
  vm_compute. discriminate.
Qed.

(* ================================================================== *)
(** * Claim C5: the caps of a single triangle *)
(* ================================================================== *)

(** Decides the tests [x =? y] of the goal that follow from the
    hypotheses by linear arithmetic. *)
Ltac eqb_decide :=
  repeat match goal with
         | |- context [?x =? ?y] =>
             first [ rewrite (proj2 (Nat.eqb_eq x y)) by lia
                   | rewrite (proj2 (Nat.eqb_neq x y)) by lia ]
         end.

Lemma traceLoop_eq nm fuel start loop triOnLoop cur st :
  traceLoop nm (S fuel) start loop triOnLoop cur st
  = if cur =? start then Some (loop, triOnLoop, st) else
    let '(nextV, nextTri) := nextUnused (used st) cur (successors nm cur) in
    if nextV =? 0 then Some (loop, triOnLoop, st) else
    match index_of nextV loop with
    | None =>
        traceLoop nm fuel start (loop ++ [nextV]) (triOnLoop ++ [nextTri]) nextV
          (mkTraceState ((cur, nextV) :: used st) (calls st))
    | Some idx =>
        if nextV =? start then
          Some (loop, triOnLoop, mkTraceState ((cur, nextV) :: used st) (calls st))
        else
          traceLoop nm fuel start (firstn (idx + 1) loop) (firstn (idx + 1) triOnLoop)
            (last (firstn (idx + 1) loop) 0)
            (mkTraceState ((cur, nextV) :: used st)
                          (calls st ++ [(skipn idx loop, nth idx triOnLoop 0)]))
    end.
Proof. reflexivity. Qed.

Lemma traceAll_eq bes nm fuel st :
  traceAll bes nm (S fuel) st
  = match find (fun e => negb (pset_count (from e, to e) (used st))) bes with
    | None => Some st
    | Some e =>
        match traceLoop nm (S (length bes)) (from e) [from e; to e]
                [triIdx e; triIdx e] (to e)
                (mkTraceState ((from e, to e) :: used st) (calls st)) with
        | None => None
        | Some (loop, triOnLoop, st') =>
            traceAll bes nm fuel
              (mkTraceState (used st') (calls st' ++ [(loop, nth 0 triOnLoop 0)]))
        end
    end.
Proof. reflexivity. Qed.

Ltac trace_simpl :=
  repeat (progress (unfold nextUnused, pset_count, pair_eqb;
                    cbn [find existsb fst snd negb andb orb
                         from to triIdx used calls index_of length app
                         firstn skipn last nth Nat.add]; eqb_decide)).

Lemma successors_three u v w ti bes :
  u <> v -> v <> w -> w <> u ->
  Permutation bes [mkDirectedEdge u v ti; mkDirectedEdge v w ti; mkDirectedEdge w u ti] ->
  successors (buildNextMap bes) u = [(v, ti)]
  /\ successors (buildNextMap bes) v = [(w, ti)]
  /\ successors (buildNextMap bes) w = [(u, ti)].
Proof.
  intros Huv Hvw Hwu P. rewrite !successors_spec.
  assert (C : bes = [mkDirectedEdge u v ti; mkDirectedEdge v w ti; mkDirectedEdge w u ti]
           \/ bes = [mkDirectedEdge u v ti; mkDirectedEdge w u ti; mkDirectedEdge v w ti]
           \/ bes = [mkDirectedEdge v w ti; mkDirectedEdge u v ti; mkDirectedEdge w u ti]
           \/ bes = [mkDirectedEdge v w ti; mkDirectedEdge w u ti; mkDirectedEdge u v ti]
           \/ bes = [mkDirectedEdge w u ti; mkDirectedEdge u v ti; mkDirectedEdge v w ti]
           \/ bes = [mkDirectedEdge w u ti; mkDirectedEdge v w ti; mkDirectedEdge u v ti]).
  { apply Permutation_sym in P.
    destruct bes as [|e1 [|e2 [|e3 [|e4 bes]]]];
      try (apply Permutation_length in P; simpl in P; lia).
    assert (I1 := Permutation_in _ (Permutation_sym P) (or_introl eq_refl)).
    assert (I2 := Permutation_in _ (Permutation_sym P) (or_intror (or_introl eq_refl))).
    assert (I3 := Permutation_in _ (Permutation_sym P)
                    (or_intror (or_intror (or_introl eq_refl)))).
    assert (N : NoDup [e1; e2; e3]).
    { apply (Permutation_NoDup P). repeat constructor; simpl; intuition congruence. }
    inversion N as [|? ? N1 N']; subst. inversion N' as [|? ? N2 _]; subst.
    simpl in I1, I2, I3, N1, N2.
    destruct I1 as [<-|[<-|[<-|[]]]], I2 as [<-|[<-|[<-|[]]]], I3 as [<-|[<-|[<-|[]]]];
      tauto. }
  destruct C as [ -> | [ -> | [ -> | [ -> | [ -> | -> ]]]]]; cbn [filter map from to triIdx];
    eqb_decide; auto.
Qed.

(** The tracing of the boundary of one triangle, started with the edge
    u -> v of the cycle u -> v -> w -> u, where w is not vertex 0: the
    path u, v, w is handed to the capper, and when u is vertex 0 (which
    the search for a successor takes for "none") a second path w, u of
    two vertices as well. *)
Lemma trace_three_cycle u v w ti bes :
  u <> v -> v <> w -> w <> u -> w <> 0 ->
  bes = [mkDirectedEdge u v ti; mkDirectedEdge v w ti; mkDirectedEdge w u ti]
  \/ bes = [mkDirectedEdge u v ti; mkDirectedEdge w u ti; mkDirectedEdge v w ti] ->
  exists st,
    traceAll bes (buildNextMap bes) (S (length bes)) (mkTraceState [] []) = Some st
    /\ (calls st = [([u; v; w], ti)] \/ calls st = [([u; v; w], ti); ([w; u], ti)]).
Proof.
  intros Huv Hvw Hwu Hw0 Hb.
  destruct (successors_three u v w ti bes Huv Hvw Hwu) as (Su & Sv & Sw).
  { destruct Hb as [->| ->]; [reflexivity|]. apply perm_skip, perm_swap. }
  set (nm := buildNextMap bes) in *.
  destruct (Nat.eq_dec u 0) as [U0|U0].
  - destruct Hb as [->| ->]; eexists;
      (split; [repeat (first [rewrite traceLoop_eq | rewrite traceAll_eq];
                        rewrite ?Su, ?Sv, ?Sw; trace_simpl); reflexivity|]);
      right; reflexivity.
  - destruct Hb as [->| ->]; eexists;
      (split; [repeat (first [rewrite traceLoop_eq | rewrite traceAll_eq];
                        rewrite ?Su, ?Sv, ?Sw; trace_simpl); reflexivity|]);
      left; reflexivity.
Qed.

Ltac cmp_decide :=
  repeat match goal with
         | |- context [Nat.compare ?x ?y] =>
             first [ rewrite (proj2 (Nat.compare_eq_iff x y)) by lia
                   | rewrite (proj2 (Nat.compare_lt_iff x y)) by lia
                   | rewrite (proj2 (Nat.compare_gt_iff x y)) by lia ]
         end.

Ltac minmax_decide :=
  repeat match goal with
         | |- context [Nat.min ?x ?y] =>
             first [ rewrite (Nat.min_l x y) by lia | rewrite (Nat.min_r x y) by lia ]
         | |- context [Nat.max ?x ?y] =>
             first [ rewrite (Nat.max_l x y) by lia | rewrite (Nat.max_r x y) by lia ]
         end.

(** The boundary of one triangle with three different indices: its three
    edges, the one between the two smallest indices first, so that the
    third vertex of the cycle started there is not vertex 0. *)
Lemma single_triangle_boundary r ti :
  ti < triangleCount r ->
  i0 (triAt r ti) <> i1 (triAt r ti) ->
  i1 (triAt r ti) <> i2 (triAt r ti) ->
  i2 (triAt r ti) <> i0 (triAt r ti) ->
  exists u v w,
    ((u, v, w) = (i0 (triAt r ti), i1 (triAt r ti), i2 (triAt r ti))
     \/ (u, v, w) = (i1 (triAt r ti), i2 (triAt r ti), i0 (triAt r ti))
     \/ (u, v, w) = (i2 (triAt r ti), i0 (triAt r ti), i1 (triAt r ti)))
    /\ u <> v /\ v <> w /\ w <> u /\ w <> 0
    /\ (boundaryEdges r [ti]
        = [mkDirectedEdge u v ti; mkDirectedEdge v w ti; mkDirectedEdge w u ti]
        \/ boundaryEdges r [ti]
           = [mkDirectedEdge u v ti; mkDirectedEdge w u ti; mkDirectedEdge v w ti]).
Proof.
  intros L. unfold boundaryEdges, edgeToDirected. cbn [fold_left]. unfold addTriEdges.
  rewrite (proj2 (Nat.ltb_lt _ _) L).
  generalize (i0 (triAt r ti)) (i1 (triAt r ti)) (i2 (triAt r ti)).
  intros a b c Hab Hbc Hca. cbv zeta. unfold edgeKey.
  assert (O : (a < b /\ b < c) \/ (a < c /\ c < b) \/ (b < a /\ a < c)
              \/ (b < c /\ c < a) \/ (c < a /\ a < b) \/ (c < b /\ b < a)) by lia.
  destruct O as [O|[O|[O|[O|[O|O]]]]]; minmax_decide;
    repeat (progress (unfold pair_compare; cbn [upd fst snd push_back app]; cmp_decide));
    cbn [flat_map snd app from to triIdx].
  - exists a, b, c. repeat split; auto; lia.
  - exists c, a, b. repeat split; auto; lia.
  - exists a, b, c. repeat split; auto; lia.
  - exists b, c, a. repeat split; auto; lia.
  - exists c, a, b. repeat split; auto; lia.
  - exists b, c, a. repeat split; auto; lia.
Qed.

Lemma meshEdges_build l :
  meshEdges (build l) = flat_map triEdges (fst (indexAll l ([], []))).
Proof.
  unfold meshEdges, build, removeDuplicateVertices. simpl.
  destruct (indexAll l ([], [])) as [ks [idx verts]]. simpl.
  f_equal. rewrite map_map.
  induction ks as [|[[a b] c] ks IH]; simpl; [reflexivity|]. now rewrite IH.
Qed.

(** A triangle and a fan of three caps around a fourth position, one cap
    on each side in either order, close every edge. *)
Lemma fan_closes_edges p0 p1 p2 c nT n1 n2 n3 (k1 k2 k3 : bool) :
  four_distinct p0 p1 p2 c ->
  edges_closed [mkTriangle nT p0 p1 p2;
                orientedCap k1 n1 c p0 p1; orientedCap k2 n2 c p1 p2;
                orientedCap k3 n3 c p2 p0]
  /\ edges_closed [mkTriangle nT p0 p1 p2;
                   orientedCap k1 n1 c p1 p2; orientedCap k2 n2 c p2 p0;
                   orientedCap k3 n3 c p0 p1]
  /\ edges_closed [mkTriangle nT p0 p1 p2;
                   orientedCap k1 n1 c p2 p0; orientedCap k2 n2 c p0 p1;
                   orientedCap k3 n3 c p1 p2].
Proof.
  intros (E01 & E12 & E02 & E0c & E1c & E2c).
  assert (E10 : Vec3_equiv p1 p0 = false) by now rewrite Vec3_equiv_sym.
  assert (E21 : Vec3_equiv p2 p1 = false) by now rewrite Vec3_equiv_sym.
  assert (E20 : Vec3_equiv p2 p0 = false) by now rewrite Vec3_equiv_sym.
  assert (Ec0 : Vec3_equiv c p0 = false) by now rewrite Vec3_equiv_sym.
  assert (Ec1 : Vec3_equiv c p1 = false) by now rewrite Vec3_equiv_sym.
  assert (Ec2 : Vec3_equiv c p2 = false) by now rewrite Vec3_equiv_sym.
  unfold edges_closed.
  repeat split; intros e; rewrite meshEdges_build;
    destruct k1, k2, k3;
    (cbn [indexAll]; unfold indexTriangle, getIdx, orientedCap; cbn [v0 v1 v2];
     repeat first [ rewrite vfind_cons | rewrite Vec3_equiv_refl
                  | rewrite E01 | rewrite E12 | rewrite E02 | rewrite E0c | rewrite E1c
                  | rewrite E2c | rewrite E10 | rewrite E21 | rewrite E20 | rewrite Ec0
                  | rewrite Ec1 | rewrite Ec2
                  | progress cbn [vfind find length app] ]);
    cbn [fst flat_map triEdges app edgeKey Nat.min Nat.max In];
    intros H; repeat (destruct H as [<-|H]; [reflexivity|]); destruct H.
Qed.

Lemma capTriangle_oriented C va vb adjNormal :
  capSkipped C va vb = false ->
  exists keep n, capTriangle C va vb adjNormal = [orientedCap keep n C va vb].
Proof.
  intro Sk. rewrite capTriangle_unfold, Sk. cbv zeta.
  match goal with |- context [F32.ge ?d F32.zero] => destruct (F32.ge d F32.zero) end.
  - eexists true, _. reflexivity.
  - eexists false, _. reflexivity.
Qed.

Lemma capOneLoop_three r u v w ti :
  capOneLoop r [u; v; w] ti
  = capTriangle (loopCentroid r [u; v; w]) (vertexAt r u) (vertexAt r v)
      (normal (getTriangle r ti))
    ++ capTriangle (loopCentroid r [u; v; w]) (vertexAt r v) (vertexAt r w)
         (normal (getTriangle r ti))
    ++ capTriangle (loopCentroid r [u; v; w]) (vertexAt r w) (vertexAt r u)
         (normal (getTriangle r ti)).
Proof.
  unfold capOneLoop. cbn [length Nat.ltb Nat.leb seq flat_map nth Nat.add Nat.modulo
                          Nat.divmod fst snd Nat.sub].
  now rewrite app_nil_r.
Qed.

Lemma capOneLoop_short r u v ti : capOneLoop r [u; v] ti = [].
Proof. reflexivity. Qed.

(** [addCaps] on one triangle with three different indices: the triangle
    and the fan over the path u, v, w, a rotation of its indices. *)
Lemma single_triangle_addCaps r ti :
  vertices_ r <> [] ->
  ti < triangleCount r ->
  i0 (triAt r ti) <> i1 (triAt r ti) ->
  i1 (triAt r ti) <> i2 (triAt r ti) ->
  i2 (triAt r ti) <> i0 (triAt r ti) ->
  exists u v w,
    ((u, v, w) = (i0 (triAt r ti), i1 (triAt r ti), i2 (triAt r ti))
     \/ (u, v, w) = (i1 (triAt r ti), i2 (triAt r ti), i0 (triAt r ti))
     \/ (u, v, w) = (i2 (triAt r ti), i0 (triAt r ti), i1 (triAt r ti)))
    /\ addCaps r [ti] = Some (getTriangle r ti :: capOneLoop r [u; v; w] ti).
Proof.
  intros NV L H01 H12 H20.
  destruct (single_triangle_boundary r ti L H01 H12 H20)
    as (u & v & w & Rot & Huv & Hvw & Hwu & Hw0 & B).
  exists u, v, w. split; [exact Rot|].
  destruct (trace_three_cycle u v w ti (boundaryEdges r [ti]) Huv Hvw Hwu Hw0 B)
    as (st & T & Cs).
  unfold addCaps. cbn [filter]. rewrite (proj2 (Nat.ltb_lt _ _) L). cbn [map].
  destruct (vertices_ r) as [|v0' vs]; [now destruct NV|].
  unfold traceBoundary. rewrite T.
  destruct (boundaryEdges r [ti]) as [|e bes]; [destruct B; discriminate|].
  cbn [app]. do 2 f_equal.
  destruct Cs as [-> | ->]; cbn [flat_map fst snd].
  - now rewrite app_nil_r.
  - rewrite capOneLoop_short. now rewrite !app_nil_r.
Qed.

Lemma mesh_wf_vertices r ti : mesh_wf r -> ti < triangleCount r -> vertices_ r <> [].
Proof.
  unfold mesh_wf, triangleCount. intros W L E.
  rewrite Forall_forall in W.
  destruct (W (nth ti (indexedTriangles_ r) (mkIndexedTri 0 0 0))) as (H & _).
  - now apply nth_In.
  - rewrite E in H. simpl in H. lia.
Qed.

(** C5 (amended).  For a subset consisting of one triangle with three
    different vertex indices (3 boundary edges forming 1 loop), [addCaps]
    returns the triangle followed by the fan over its three vertices,
    taken in its winding from one of them.  When none of the three
    candidate caps is dropped for a cross product of length at most 1e-10
    there are exactly 3 caps, 4 triangles with the original; and when
    furthermore the three vertices and the centroid are four different
    positions, every undirected edge of the 4 triangles has incidence 2. *)
Theorem single_triangle_gets_three_caps r ti :
  mesh_wf r ->
  ti < triangleCount r ->
  i0 (triAt r ti) <> i1 (triAt r ti) ->
  i1 (triAt r ti) <> i2 (triAt r ti) ->
  i2 (triAt r ti) <> i0 (triAt r ti) ->
  exists u v w,
    ((u, v, w) = (i0 (triAt r ti), i1 (triAt r ti), i2 (triAt r ti))
     \/ (u, v, w) = (i1 (triAt r ti), i2 (triAt r ti), i0 (triAt r ti))
     \/ (u, v, w) = (i2 (triAt r ti), i0 (triAt r ti), i1 (triAt r ti)))
    /\ addCaps r [ti] = Some (getTriangle r ti :: capOneLoop r [u; v; w] ti)
    /\ (capSkipped (loopCentroid r [u; v; w]) (vertexAt r u) (vertexAt r v) = false ->
        capSkipped (loopCentroid r [u; v; w]) (vertexAt r v) (vertexAt r w) = false ->
        capSkipped (loopCentroid r [u; v; w]) (vertexAt r w) (vertexAt r u) = false ->
        exists c1 c2 c3,
          addCaps r [ti] = Some [getTriangle r ti; c1; c2; c3]
          /\ (four_distinct (vertexAt r (i0 (triAt r ti))) (vertexAt r (i1 (triAt r ti)))
                (vertexAt r (i2 (triAt r ti))) (loopCentroid r [u; v; w]) ->
              edges_closed [getTriangle r ti; c1; c2; c3])).
Proof.
  intros W L H01 H12 H20.
  destruct (single_triangle_addCaps r ti (mesh_wf_vertices r ti W L) L H01 H12 H20)
    as (u & v & w & Rot & A).
  exists u, v, w. split; [exact Rot|]. split; [exact A|].
  intros S1 S2 S3.
  destruct (capTriangle_oriented _ _ _ (normal (getTriangle r ti)) S1) as (k1 & n1 & C1).
  destruct (capTriangle_oriented _ _ _ (normal (getTriangle r ti)) S2) as (k2 & n2 & C2).
  destruct (capTriangle_oriented _ _ _ (normal (getTriangle r ti)) S3) as (k3 & n3 & C3).
  rewrite capOneLoop_three, C1, C2, C3 in A. cbn [app] in A.
  eexists _, _, _. split; [exact A|].
  intro D.
  set (C := loopCentroid r [u; v; w]) in *.
  destruct (fan_closes_edges _ _ _ _ (normal (getTriangle r ti)) n1 n2 n3 k1 k2 k3 D)
    as (F1 & F2 & F3).
  destruct Rot as [R|[R|R]]; injection R as -> -> ->; assumption.
Qed.

Lemma single_triangle_witness :
  exists c1 c2 c3,
    addCaps simple_mesh [0] = Some [getTriangle simple_mesh 0; c1; c2; c3]
    /\ edges_closed [getTriangle simple_mesh 0; c1; c2; c3].
Proof.
  destruct (single_triangle_gets_three_caps simple_mesh 0)
    as (u & v & w & Rot & _ & H).
  - vm_compute. repeat constructor.
  - vm_compute. repeat constructor.
  - vm_compute. discriminate.
  - vm_compute. discriminate.
  - vm_compute. discriminate.
  - assert (R : (u, v, w) = (0, 1, 2) \/ (u, v, w) = (1, 2, 0) \/ (u, v, w) = (2, 0, 1))
      by exact Rot.
    destruct R as [R|[R|R]]; injection R as -> -> ->;
      (destruct H as (c1 & c2 & c3 & E & Cl); [vm_compute; reflexivity..|];
       exists c1, c2, c3; split; [exact E|];
       apply Cl; vm_compute; repeat split; reflexivity).
Defined.

(** The claim as stated fails on a triangle with three distinct vertices
    on one line: it has three different indices and three boundary edges
    forming one loop, yet each of its candidate caps has a cross product
    of length 0 and is dropped, so [addCaps] returns the triangle alone. *)
Lemma collinear_triangle_gets_no_cap :
  indexedTriangles_ collinear_mesh = [mkIndexedTri 0 1 2]
  /\ map edgePair (boundaryEdges collinear_mesh [0]) = [(0, 1); (2, 0); (1, 2)]
  /\ (exists st, traceBoundary collinear_mesh [0] = Some st
                 /\ cappedLoops st = [[0; 1; 2]])
  /\ capOneLoop collinear_mesh [0; 1; 2] 0 = []
  /\ addCaps collinear_mesh [0] = Some [getTriangle collinear_mesh 0].
Proof.
  split; [vm_compute; reflexivity|]. split; [vm_compute; reflexivity|].
  split; [eexists; split; vm_compute; reflexivity|].
  split; vm_compute; reflexivity.
Qed.

(* ================================================================== *)
(** * Worked examples: the unit tests and the sanity properties *)
(* ================================================================== *)

(** [test_vec3_ordering]. *)
Example vec3_ordering :
  Vec3_lt (vec 0 0 0) (vec 1 0 0) = true
  /\ Vec3_lt (vec 0 0 0) (vec 0 1 0) = true
  /\ Vec3_lt (vec 1 0 0) (vec 0 1 0) = false
  /\ Vec3_lt (vec 0 0 0) (vec 0 0 0) = false.
Proof. repeat split; vm_compute; reflexivity. Qed.

(** [test_ray_intersect]: the ray from (0.25, 0.25, -1) along +z meets
    the facet at distance 1.5, the ray along -z misses it. *)
Example ray_through_the_facet :
  let ro := mkVec3 (F32.decimal 25 2) (F32.decimal 25 2) (F32.of_Z (-1)) in
  rayIntersect simple_mesh 0 ro (vec 0 0 1) = Some (F32.decimal 15 1)
  /\ rayIntersect simple_mesh 0 ro (vec 0 0 (-1)) = None.
Proof. split; vm_compute; reflexivity. Qed.

(** [test_read_triangle_count], [test_add_caps] and the volume of
    [test_volume_from_file]: one triangle, four after capping, and the
    double nearest below 1/6. *)
Example simple_mesh_figures :
  triangleCount simple_mesh = 1
  /\ option_map (@length Triangle) (addCaps simple_mesh [0]) = Some 4
  /\ volume simple_mesh = S754_finite false 6004799503160661 (-55).
Proof. repeat split; vm_compute; reflexivity. Qed.

(** The tracing on the unit facet: the search for a successor takes
    vertex 0 for "none", so the first trace stops at vertex 2 with the
    edge 2 -> 0 unused, its path 0, 1, 2 is capped, and a second trace
    consumes 2 -> 0 on a path of two vertices that gets no cap. *)
Example simple_mesh_trace :
  traceBoundary simple_mesh [0]
  = Some (mkTraceState [(2, 0); (1, 2); (0, 1)] [([0; 1; 2], 0); ([2; 0], 0)]).
Proof. vm_compute. reflexivity. Qed.

(** Parity sanity: every facet of the tetrahedron is exterior, the fluid
    output is empty, and the tetrahedron is watertight. *)
Example tetrahedron_is_exterior_and_watertight :
  evenHitTriangles tetra_mesh F32.c1em4 F32.c1em2 F32.c1em4 = []
  /\ option_map fst (computeFluidMesh_default tetra_mesh) = Some []
  /\ fst (checkWatertight tetra_mesh) = true.
Proof. repeat split; vm_compute; reflexivity. Qed.

(** The whole pipeline on the stack: the lowest facet has two distinct
    hits and is retained alone, its boundary is capped by three
    triangles, and the four triangles survive the cleaning. *)
Example stack_pipeline :
  map (fun i => length (hitsOf stack_mesh F32.c1em4 F32.c1em2 i)) [0; 1; 2] = [2; 1; 0]
  /\ evenHitTriangles stack_mesh F32.c1em4 F32.c1em2 F32.c1em4 = [0]
  /\ option_map (@length Triangle) (addCaps stack_mesh [0]) = Some 4
  /\ option_map (fun p => length (fst p)) (computeFluidMesh_default stack_mesh) = Some 4.
Proof. repeat split; vm_compute; reflexivity. Qed.

(* ================================================================== *)
(** * The volume is an absolute value *)
(* ================================================================== *)

(** [s < 0 ? -s : s] is not less than zero. *)
Lemma abs_not_below_zero (s : double) :
  F64.lt (if F64.lt s F64.zero then F64.opp s else s) F64.zero = false.
Proof.
  destruct (F64.lt s F64.zero) eqn:E; [|exact E].
  destruct s as [sg|sg| |sg m e]; try destruct sg; try discriminate E; reflexivity.
Qed.

(** X1.  [volume] ends in [sum < 0 ? -sum : sum]: whatever the mesh, the
    number returned is not less than zero.  (It is a NaN when the sum
    is.) *)
Theorem volume_is_never_negative r : F64.lt (volume r) F64.zero = false.
Proof.
  unfold volume. cbv zeta.
  match goal with |- context [fold_left ?f ?l ?a] => generalize (fold_left f l a) end.
  intro s. apply abs_not_below_zero.
Qed.

(* ================================================================== *)
(** * What [removeDuplicateVertices] establishes *)
(* ================================================================== *)

Lemma getIdx_cases v st i st' :
  getIdx v st = (i, st') ->
  st' = st \/ (snd st' = snd st ++ [v] /\ i = length (snd st)).
Proof.
  destruct st as [idx verts]. unfold getIdx.
  destruct (vfind v idx) as [j|] eqn:F.
  - intros [= <- <-]. now left.
  - intros [= <- <-]. right. split; reflexivity.
Qed.

(** A run of lookups adds at most one slot per position, and every slot
    it adds is the index returned by the lookup that added it. *)
Lemma indexSeq_table vs :
  forall st js st',
  indexSeq vs st = (js, st') ->
  length js = length vs
  /\ length (snd st) <= length (snd st')
  /\ length (snd st') <= length (snd st) + length vs
  /\ forall j, length (snd st) <= j < length (snd st') -> In j js.
Proof.
  induction vs as [|v vs IH]; cbn [indexSeq]; intros st js st' E.
  - injection E as <- <-. cbn [length]. repeat split; intros; lia.
  - destruct (getIdx v st) as [i st1] eqn:G.
    destruct (indexSeq vs st1) as [js' st2] eqn:R.
    injection E as <- <-.
    destruct (IH _ _ _ R) as (L1 & L2 & L3 & Hj).
    cbn [length].
    destruct (getIdx_cases _ _ _ _ G) as [->|[Ev ->]].
    + repeat split; try lia. intros j L. right. apply Hj. lia.
    + rewrite Ev, length_app in *. cbn [length] in *.
      repeat split; try lia. intros j L.
      destruct (Nat.eq_dec j (length (snd st))) as [->|N]; [now left|].
      right. apply Hj. lia.
Qed.

Lemma removeDuplicateVertices_fields r :
  removeDuplicateVertices r
  = mkStlReader (header_ r) []
      (snd (snd (indexAll (triangles_ r) ([], []))))
      (map key_to_tri (fst (indexAll (triangles_ r) ([], []))))
      (map normal (triangles_ r)).
Proof.
  unfold removeDuplicateVertices.
  destruct (indexAll (triangles_ r) ([], [])) as [ks [idx verts]]. reflexivity.
Qed.

Lemma mesh_indices_keys h ts verts ks ns :
  mesh_indices (mkStlReader h ts verts (map key_to_tri ks) ns) = key_indices ks.
Proof.
  unfold mesh_indices. cbn [indexedTriangles_].
  induction ks as [|[[a b] c] ks IH]; cbn [map flat_map key_indices key_to_tri i0 i1 i2 app];
    [reflexivity|]. now rewrite IH.
Qed.

Lemma positions_length ts : length (positions ts) = 3 * length ts.
Proof.
  unfold positions. induction ts as [|t ts IH]; cbn [flat_map length app]; lia.
Qed.

(** X2.  After [removeDuplicateVertices] of facets without a NaN
    coordinate every index triple refers into the vertex table, there is
    one index triple and one stored normal per facet read, no two slots
    of the table hold equivalent positions, every slot holds a position
    of a facet read and is used by some facet, and the table has at most
    three slots per facet. *)
Theorem removeDuplicateVertices_gives_a_well_formed_mesh r :
  Forall (fun v => vec_ok v = true) (positions (triangles_ r)) ->
  let r' := removeDuplicateVertices r in
  mesh_wf r'
  /\ triangleCount r' = length (triangles_ r)
  /\ length (originalFacetNormals_ r') = triangleCount r'
  /\ triangles_ r' = []
  /\ table_distinct (vertices_ r')
  /\ incl (vertices_ r') (positions (triangles_ r))
  /\ (forall j, j < length (vertices_ r') -> In j (mesh_indices r'))
  /\ length (vertices_ r') <= 3 * length (triangles_ r).
Proof.
  intros _ r'. unfold r'. rewrite removeDuplicateVertices_fields.
  destruct (indexAll (triangles_ r) ([], [])) as [ks [idx verts]] eqn:I.
  cbn [fst snd]. rewrite mesh_indices_keys.
  unfold mesh_wf, triangleCount.
  cbn [indexedTriangles_ vertices_ originalFacetNormals_ triangles_].
  destruct (indexAll_spec _ _ _ I) as ([_ D] & Inc & F). cbn [snd] in D, Inc, F.
  pose proof (indexAll_length _ _ _ _ I) as Lk.
  destruct (indexSeq_table _ _ _ _ (indexAll_indexSeq _ _ _ _ I)) as (_ & _ & Lv & Hj).
  cbn [snd length] in Lv, Hj. rewrite positions_length in Lv.
  rewrite !length_map.
  repeat split; try assumption; try lia.
  - apply Forall_forall. intros t Ht. apply in_map_iff in Ht.
    destruct Ht as ([[a b] c] & <- & Hk).
    destruct (Forall2_In_r _ _ _ _ _ _ F Hk) as (t & _ & [La _] & [Lb _] & [Lc _]).
    unfold tri_wf. cbn [vertices_ key_to_tri i0 i1 i2]. auto.
  - intros j L. apply Hj. lia.
Qed.

Lemma removeDuplicateVertices_gives_a_well_formed_mesh_witness :
  let r' := removeDuplicateVertices (mkStlReader EmptyString [unit_facet; flat_facet] [] [] []) in
  mesh_wf r'
  /\ triangleCount r' = 2
  /\ length (originalFacetNormals_ r') = triangleCount r'
  /\ triangles_ r' = []
  /\ table_distinct (vertices_ r')
  /\ incl (vertices_ r') (positions [unit_facet; flat_facet])
  /\ (forall j, j < length (vertices_ r') -> In j (mesh_indices r'))
  /\ length (vertices_ r') <= 3 * 2.
Proof.
  apply (removeDuplicateVertices_gives_a_well_formed_mesh
           (mkStlReader EmptyString [unit_facet; flat_facet] [] [] [])).
  repeat constructor.
Defined.

(** X3.  Reading a facet back from the indexed mesh: [getTriangle] returns
    the three positions of the facet read, in their order and up to the
    sign of a zero coordinate, and the stored normal of facet [i] is the
    normal read with it. *)
Theorem getTriangle_returns_the_facet_read ts i :
  Forall (fun v => vec_ok v = true) (positions ts) ->
  i < length ts ->
  let t := getTriangle (build ts) i in
  let u := nth i ts (mkTriangle vzero vzero vzero vzero) in
  vnorm (v0 t) = vnorm (v0 u)
  /\ vnorm (v1 t) = vnorm (v1 u)
  /\ vnorm (v2 t) = vnorm (v2 u)
  /\ nth i (originalFacetNormals_ (build ts)) vzero = normal u.
Proof.
  intros Hok Li t u. unfold t, u, build. rewrite removeDuplicateVertices_fields.
  cbn [triangles_ header_].
  destruct (indexAll ts ([], [])) as [ks [idx verts]] eqn:I. cbn [fst snd].
  destruct (indexAll_spec _ _ _ I) as (_ & Inc & F). cbn [snd] in Inc, F.
  pose proof (indexAll_length _ _ _ _ I) as Lk.
  pose proof (Forall2_nth _ _ _ _ _ (mkTriangle vzero vzero vzero vzero) (0, 0, 0) i F Li) as H.
  unfold getTriangle, triAt, vertexAt.
  cbn [indexedTriangles_ vertices_ originalFacetNormals_ v0 v1 v2].
  change (mkIndexedTri 0 0 0) with (key_to_tri (0, 0, 0)). rewrite map_nth.
  set (k := nth i ks (0, 0, 0)) in *.
  change (let '(a, b, c) := k in
          slot_of verts (v0 (nth i ts (mkTriangle vzero vzero vzero vzero))) a
          /\ slot_of verts (v1 (nth i ts (mkTriangle vzero vzero vzero vzero))) b
          /\ slot_of verts (v2 (nth i ts (mkTriangle vzero vzero vzero vzero))) c) in H.
  destruct k as [[a b] c].
  cbn [key_to_tri i0 i1 i2].
  destruct H as ([La Ea] & [Lb Eb] & [Lc Ec]).
  rewrite Forall_forall in Hok.
  assert (Hu : forall v, In v [v0 (nth i ts (mkTriangle vzero vzero vzero vzero));
                               v1 (nth i ts (mkTriangle vzero vzero vzero vzero));
                               v2 (nth i ts (mkTriangle vzero vzero vzero vzero))] ->
                         vec_ok v = true).
  { intros v Hv. apply Hok. unfold positions. apply in_flat_map.
    exists (nth i ts (mkTriangle vzero vzero vzero vzero)). split; [now apply nth_In|exact Hv]. }
  assert (Hs : forall j, j < length verts -> vec_ok (nth j verts vzero) = true).
  { intros j Lj. apply Hok, Inc. now apply nth_In. }
  repeat split.
  - apply Vec3_equiv_vnorm; [apply Hs, La|apply Hu; cbn; auto|exact Ea].
  - apply Vec3_equiv_vnorm; [apply Hs, Lb|apply Hu; cbn; auto|exact Eb].
  - apply Vec3_equiv_vnorm; [apply Hs, Lc|apply Hu; cbn; auto|exact Ec].
  - change vzero with (normal (mkTriangle vzero vzero vzero vzero)) at 1.
    now rewrite map_nth.
Qed.

Lemma getTriangle_returns_the_facet_read_witness :
  vnorm (v0 (getTriangle (build [unit_facet]) 0)) = vnorm (v0 unit_facet)
  /\ vnorm (v1 (getTriangle (build [unit_facet]) 0)) = vnorm (v1 unit_facet)
  /\ vnorm (v2 (getTriangle (build [unit_facet]) 0)) = vnorm (v2 unit_facet)
  /\ nth 0 (originalFacetNormals_ (build [unit_facet])) vzero = normal unit_facet.
Proof.
  apply (getTriangle_returns_the_facet_read [unit_facet] 0).
  - repeat constructor.
  - cbn [length]. lia.
Defined.

(** X4.  [removeDuplicateVertices] consumes [triangles_]: a second call finds
    no facet to index and leaves a mesh without triangles, vertices or
    stored normals. *)
Theorem removeDuplicateVertices_twice_empties_the_mesh r :
  removeDuplicateVertices (removeDuplicateVertices r)
  = mkStlReader (header_ r) [] [] [] [].
Proof.
  rewrite (removeDuplicateVertices_fields r).
  unfold removeDuplicateVertices. reflexivity.
Qed.

(* ================================================================== *)
(** * The report and the output of [cleanMesh] *)
(* ================================================================== *)

Lemma fates_partition keys :
  forall earlier,
  length (flat_map (fun kf => match snd kf with Kept => [fst kf] | _ => [] end)
                   (combine keys (fates earlier keys)))
  + count_if is_degenerate (fates earlier keys)
  + count_if is_duplicate (fates earlier keys) = length keys.
Proof.
  induction keys as [|k keys IH]; intro earlier; [reflexivity|].
  cbn [fates combine flat_map snd fst]. unfold count_if in *.
  cbn [filter]. specialize (IH (k :: earlier)).
  destruct (fate earlier k); cbn [is_degenerate is_duplicate length app]; lia.
Qed.

Lemma cleanCore_vertex_figures ts :
  totalVertexRefs (snd (cleanCore ts)) = length ts * 3
  /\ uniqueVerts (snd (cleanCore ts)) = length (snd (snd (indexAll ts ([], [])))).
Proof.
  unfold cleanCore. destruct (indexAll ts ([], [])) as [keys [idx verts]].
  destruct (dedupTris [] (filter (fun t => negb (degenerateKey t)) keys)) as [u d].
  split; reflexivity.
Qed.

Lemma rebuild_length verts K : length (flat_map (rebuild verts) K) <= length K.
Proof.
  rewrite flat_map_rebuild, length_map. apply filter_length_le.
Qed.

(** X5.  The figures of the report fit together: the merged table is never
    larger than the number of vertex references, so the difference the
    report prints does not wrap around; the triangles left, the
    duplicates and the degenerate ones together are at most the
    triangles given; and the list returned is never longer than the list
    given. *)
Theorem cleanMesh_report_is_consistent ts :
  let c := snd (cleanCore ts) in
  uniqueVerts c <= totalVertexRefs c
  /\ finalTris c + dupTris c + degenerate c <= initialTris c
  /\ length (fst (cleanMesh ts)) = finalTris c
  /\ length (fst (cleanMesh ts)) <= length ts.
Proof.
  intro c. unfold c.
  destruct (cleanCore_vertex_figures ts) as [-> ->].
  destruct (cleanCore_kept ts) as (E & -> & -> & -> & ->).
  destruct (cleanMesh_cleanCore ts) as [-> _]. rewrite E.
  destruct (indexAll ts ([], [])) as [keys [idx verts]] eqn:I. cbn [fst snd].
  pose proof (indexAll_length _ _ _ _ I) as Lk.
  destruct (indexSeq_table _ _ _ _ (indexAll_indexSeq _ _ _ _ I)) as (_ & _ & Lv & _).
  cbn [snd length] in Lv. rewrite positions_length in Lv.
  pose proof (fates_partition keys []) as P. fold (keptKeys keys) in P.
  pose proof (rebuild_length verts (keptKeys keys)) as R.
  repeat split; lia.
Qed.



Lemma tri_key_to_tri ks : map (fun t => sort3 (tri_key t)) (map key_to_tri ks) = map sort3 ks.
Proof.
  rewrite map_map. apply map_ext. intros [[a b] c]. reflexivity.
Qed.

(** X7.  The list [cleanMesh] returns, given facets without a NaN
    coordinate, and indexed again by [removeDuplicateVertices], is a
    mesh in which [checkWatertight] counts no duplicate triangle and no
    facet has two equal indices. *)
Theorem cleaned_facets_index_without_duplicates ts :
  Forall (fun v => vec_ok v = true) (positions ts) ->
  let r := build (fst (cleanMesh ts)) in
  triangleCount r = length (fst (cleanMesh ts))
  /\ duplicateTriangles (watertightStats r) = 0
  /\ (forall t, In t (indexedTriangles_ r) -> degenerateKey (tri_key t) = false).
Proof.
  intros _ r. unfold r, build. rewrite removeDuplicateVertices_fields.
  cbn [triangles_ header_].
  destruct (cleanMesh_cleanCore ts) as [-> _].
  destruct (first_pass_shape ts) as (T & L & E & D & R & N & Fl & ND).
  destruct (indexAll (fst (cleanCore ts)) ([], [])) as [keys2 st2] eqn:I.
  pose proof (indexAll_length _ _ _ _ I) as Lk.
  rewrite E in I.
  destruct (reindex_exact T L keys2 st2 D R I) as (D2 & R2 & F).
  assert (Fa : fates [] keys2 = repeat Kept (length keys2)).
  { apply (second_pass_fates T (snd st2) L D keys2 [] []); try assumption.
    - constructor.
    - intros k u _ [].
    - constructor. }
  destruct (kept_all keys2 [] Fa) as (K1 & _ & _).
  destruct (kept_fates keys2 []) as [ND2 P2]. rewrite K1 in ND2, P2.
  unfold triangleCount, watertightStats.
  cbn [fst snd indexedTriangles_ duplicateTriangles].
  rewrite length_map. split; [exact Lk|]. split.
  - apply countDuplicates_zero. rewrite tri_key_to_tri. split; [exact ND2|].
    intros t _ [].
  - intros t Ht. apply in_map_iff in Ht. destruct Ht as ([[a b] c] & <- & Hk).
    destruct (P2 _ Hk) as (_ & Dg & _). exact Dg.
Qed.

Lemma cleaned_facets_index_without_duplicates_witness :
  let r := build (fst (cleanMesh [flat_facet; unit_facet; flat_facet])) in
  triangleCount r = length (fst (cleanMesh [flat_facet; unit_facet; flat_facet]))
  /\ duplicateTriangles (watertightStats r) = 0
  /\ (forall t, In t (indexedTriangles_ r) -> degenerateKey (tri_key t) = false).
Proof.
  apply (cleaned_facets_index_without_duplicates [flat_facet; unit_facet; flat_facet]).
  repeat constructor.
Defined.

(* ================================================================== *)
(** * The stored normals are not used by the geometry *)
(* ================================================================== *)

Lemma indexAll_same_positions ts ts' :
  Forall2 same_positions ts ts' ->
  forall st, indexAll ts st = indexAll ts' st.
Proof.
  induction 1 as [|t t' ts ts' (E0 & E1 & E2) _ IH]; intro st; [reflexivity|].
  cbn [indexAll]. unfold indexTriangle. rewrite E0, E1, E2.
  destruct (getIdx (v0 t') st) as [i st1].
  destruct (getIdx (v1 t') st1) as [j st2].
  destruct (getIdx (v2 t') st2) as [k st3].
  now rewrite IH.
Qed.

Lemma Forall2_same_length (A B : Type) (P : A -> B -> Prop) l l' :
  Forall2 P l l' -> length l = length l'.
Proof. induction 1; cbn [length]; congruence. Qed.

(** The functions that work on the indexed mesh read the vertex table
    and the index triples only. *)
Ltac reads_two_fields :=
  cbv beta iota delta
    [volume checkWatertight watertightStats watertightText degenerateTri
     computeFluidMesh fluidBeforeClean evenHitTriangles evenHit hitsOf rayOf
     rayIntersect addCaps traceBoundary boundaryEdges edgeToDirected addTriEdges
     capOneLoop loopCentroid getTriangle triAt vertexAt triangleCount
     vertices_ indexedTriangles_];
  reflexivity.

Lemma volume_reads_two_fields h t n h' t' n' verts tris :
  volume (mkStlReader h t verts tris n) = volume (mkStlReader h' t' verts tris n').
Proof. reads_two_fields. Qed.

Lemma checkWatertight_reads_two_fields h t n h' t' n' verts tris :
  checkWatertight (mkStlReader h t verts tris n)
  = checkWatertight (mkStlReader h' t' verts tris n').
Proof. reads_two_fields. Qed.

Lemma getTriangle_reads_two_fields h t n h' t' n' verts tris i :
  getTriangle (mkStlReader h t verts tris n) i
  = getTriangle (mkStlReader h' t' verts tris n') i.
Proof. reads_two_fields. Qed.

Lemma rayIntersect_reads_two_fields h t n h' t' n' verts tris k ro rd :
  rayIntersect (mkStlReader h t verts tris n) k ro rd
  = rayIntersect (mkStlReader h' t' verts tris n') k ro rd.
Proof. reads_two_fields. Qed.

Lemma addCaps_reads_two_fields h t n h' t' n' verts tris idxs :
  addCaps (mkStlReader h t verts tris n) idxs
  = addCaps (mkStlReader h' t' verts tris n') idxs.
Proof. reads_two_fields. Qed.

Lemma computeFluidMesh_reads_two_fields h t n h' t' n' verts tris originOffset tMin tEps :
  computeFluidMesh (mkStlReader h t verts tris n) originOffset tMin tEps
  = computeFluidMesh (mkStlReader h' t' verts tris n') originOffset tMin tEps.
Proof. reads_two_fields. Qed.

(** X8.  Two facet lists with the same positions give the same cleaned list
    and report, the same vertex table and index triples, and hence the
    same volume, watertightness report, caps and fluid mesh, whatever
    normals were stored with the facets. *)
Theorem stored_normals_do_not_reach_the_geometry ts ts' :
  Forall2 same_positions ts ts' ->
  cleanMesh ts = cleanMesh ts'
  /\ vertices_ (build ts) = vertices_ (build ts')
  /\ indexedTriangles_ (build ts) = indexedTriangles_ (build ts')
  /\ volume (build ts) = volume (build ts')
  /\ checkWatertight (build ts) = checkWatertight (build ts')
  /\ (forall i, getTriangle (build ts) i = getTriangle (build ts') i)
  /\ (forall k ro rd, rayIntersect (build ts) k ro rd = rayIntersect (build ts') k ro rd)
  /\ (forall idxs, addCaps (build ts) idxs = addCaps (build ts') idxs)
  /\ (forall originOffset tMin tEps,
        computeFluidMesh (build ts) originOffset tMin tEps
        = computeFluidMesh (build ts') originOffset tMin tEps).
Proof.
  intro F. pose proof (indexAll_same_positions _ _ F ([], [])) as I.
  pose proof (Forall2_same_length _ _ _ _ _ F) as Ln.
  split.
  - destruct F as [|t t' ts ts' H F]; [reflexivity|].
    unfold cleanMesh, cleanCore. rewrite I. cbn [length] in *. rewrite Ln. reflexivity.
  - unfold build. rewrite !removeDuplicateVertices_fields.
    cbn [triangles_ header_ vertices_ indexedTriangles_]. rewrite I.
    split; [reflexivity|]. split; [reflexivity|].
    split; [apply volume_reads_two_fields|].
    split; [apply checkWatertight_reads_two_fields|].
    split; [intro i; apply getTriangle_reads_two_fields|].
    split; [intros k ro rd; apply rayIntersect_reads_two_fields|].
    split; [intro idxs; apply addCaps_reads_two_fields|].
    intros originOffset tMin tEps. apply computeFluidMesh_reads_two_fields.
Qed.

Lemma stored_normals_do_not_reach_the_geometry_witness :
  cleanMesh [unit_facet] = cleanMesh [mkTriangle vzero (vec 1 0 0) (vec 0 1 0) (vec 0 0 1)]
  /\ volume (build [unit_facet])
     = volume (build [mkTriangle vzero (vec 1 0 0) (vec 0 1 0) (vec 0 0 1)]).
Proof.
  destruct (stored_normals_do_not_reach_the_geometry
              [unit_facet] [mkTriangle vzero (vec 1 0 0) (vec 0 1 0) (vec 0 0 1)])
    as (C & _ & _ & V & _).
  - repeat constructor.
  - split; assumption.
Defined.

(* ================================================================== *)
(** * The order of positions *)
(* ================================================================== *)

Lemma flt_trans a b c : F32.lt a b = true -> F32.lt b c = true -> F32.lt a c = true.
Proof.
  intros H1 H2.
  destruct (flt_true_not_nan _ _ H1) as [Na Nb].
  destruct (flt_true_not_nan _ _ H2) as [_ Nc].
  apply (flt_key _ _ Na Nc).
  apply (flt_key _ _ Na Nb) in H1. apply (flt_key _ _ Nb Nc) in H2.
  exact (key_lt_trans _ _ _ H1 H2).
Qed.

(** [operator<] on positions without NaN is the lexicographic order of
    the ranks of the coordinates. *)
Lemma Vec3_lt_keys a b :
  vec_ok a = true -> vec_ok b = true ->
  (Vec3_lt a b = true
   <-> key_lt (fkey (x a)) (fkey (x b))
       \/ (fkey (x a) = fkey (x b)
           /\ (key_lt (fkey (y a)) (fkey (y b))
               \/ (fkey (y a) = fkey (y b) /\ key_lt (fkey (z a)) (fkey (z b)))))).
Proof.
  intros Ha Hb.
  destruct (vec_ok_coords _ Ha) as (ax & ay & az).
  destruct (vec_ok_coords _ Hb) as (bx & by_ & bz).
  pose proof (feq_key _ _ ax bx) as Ex. pose proof (feq_key _ _ ay by_) as Ey.
  pose proof (flt_key _ _ ax bx) as Lx. pose proof (flt_key _ _ ay by_) as Ly.
  pose proof (flt_key _ _ az bz) as Lz.
  unfold Vec3_lt, F32.ne.
  change (SFeqb (x a) (x b)) with (F32.eq (x a) (x b)).
  change (SFeqb (y a) (y b)) with (F32.eq (y a) (y b)).
  destruct (F32.eq (x a) (x b)) eqn:Qx; cbn [negb].
  - assert (Kx : fkey (x a) = fkey (x b)) by now apply Ex.
    destruct (F32.eq (y a) (y b)) eqn:Qy; cbn [negb].
    + assert (Ky : fkey (y a) = fkey (y b)) by now apply Ey.
      rewrite Lz. split; [intro H; right; split; [exact Kx|right; split; [exact Ky|exact H]]|].
      intros [H|[_ [H|[_ H]]]]; [| |exact H].
      * rewrite Kx in H. now apply key_lt_irrefl in H.
      * rewrite Ky in H. now apply key_lt_irrefl in H.
    + rewrite Ly. split; [intro H; right; split; [exact Kx|left; exact H]|].
      intros [H|[_ [H|[Ky _]]]]; [|exact H|].
      * rewrite Kx in H. now apply key_lt_irrefl in H.
      * apply Ey in Ky. congruence.
  - rewrite Lx. split; [intro H; left; exact H|].
    intros [H|[Kx _]]; [exact H|]. apply Ex in Kx. congruence.
Qed.

(** X9.  On positions without a NaN coordinate [Vec3::operator<] is a strict
    weak order, as [std::map] requires of its keys: it is irreflexive,
    asymmetric and transitive, the equivalence it induces is transitive,
    and two positions are equivalent exactly when their coordinates are
    equal as float values. *)
Theorem Vec3_lt_is_a_strict_weak_order a b c :
  vec_ok a = true -> vec_ok b = true -> vec_ok c = true ->
  Vec3_lt a a = false
  /\ (Vec3_lt a b = true -> Vec3_lt b a = false)
  /\ (Vec3_lt a b = true -> Vec3_lt b c = true -> Vec3_lt a c = true)
  /\ (Vec3_equiv a b = true -> Vec3_equiv b c = true -> Vec3_equiv a c = true)
  /\ (Vec3_equiv a b = true <-> vnorm a = vnorm b).
Proof.
  intros Ha Hb Hc.
  pose proof (Vec3_lt_keys _ _ Ha Hb) as AB. pose proof (Vec3_lt_keys _ _ Hb Ha) as BA.
  pose proof (Vec3_lt_keys _ _ Hb Hc) as BC. pose proof (Vec3_lt_keys _ _ Ha Hc) as AC.
  split; [apply Vec3_lt_irrefl|]. split; [|split; [|split]].
  - intro H. apply AB in H.
    destruct (Vec3_lt b a) eqn:Q; [|reflexivity]. exfalso.
    pose proof (proj1 BA eq_refl) as E.
    destruct H as [H|[Kx [H|[Ky H]]]], E as [E|[Kx' [E|[Ky' E]]]];
      try (rewrite ?Kx, ?Ky in *; now apply key_lt_irrefl in E);
      try (rewrite <- ?Kx', <- ?Ky' in *; now apply key_lt_irrefl in H);
      try (now apply (key_lt_asym _ _ H)).
  - intros H1 H2. apply AB in H1. apply BC in H2. apply AC.
    destruct H1 as [H1|[Kx [H1|[Ky H1]]]], H2 as [H2|[Kx' [H2|[Ky' H2]]]].
    + left. exact (key_lt_trans _ _ _ H1 H2).
    + left. now rewrite <- Kx'.
    + left. now rewrite <- Kx'.
    + left. now rewrite Kx.
    + right. split; [congruence|]. left. exact (key_lt_trans _ _ _ H1 H2).
    + right. split; [congruence|]. left. now rewrite <- Ky'.
    + left. now rewrite Kx.
    + right. split; [congruence|]. left. now rewrite Ky.
    + right. split; [congruence|]. right. split; [congruence|].
      exact (key_lt_trans _ _ _ H1 H2).
  - apply Vec3_equiv_trans; assumption.
  - apply Vec3_equiv_vnorm; assumption.
Qed.

Lemma Vec3_lt_is_a_strict_weak_order_witness :
  Vec3_lt (vec 0 0 0) (vec 0 0 0) = false
  /\ (Vec3_lt (vec 0 0 0) (vec 0 1 0) = true -> Vec3_lt (vec 0 1 0) (vec 0 0 0) = false)
  /\ (Vec3_lt (vec 0 0 0) (vec 0 1 0) = true -> Vec3_lt (vec 0 1 0) (vec 1 0 0) = true ->
      Vec3_lt (vec 0 0 0) (vec 1 0 0) = true)
  /\ (Vec3_equiv (vec 0 0 0) (vec 0 1 0) = true -> Vec3_equiv (vec 0 1 0) (vec 1 0 0) = true ->
      Vec3_equiv (vec 0 0 0) (vec 1 0 0) = true)
  /\ (Vec3_equiv (vec 0 0 0) (vec 0 1 0) = true <-> vnorm (vec 0 0 0) = vnorm (vec 0 1 0)).
Proof.
  apply (Vec3_lt_is_a_strict_weak_order (vec 0 0 0) (vec 0 1 0) (vec 1 0 0));
    vm_compute; reflexivity.
Defined.

(** X10.  A position whose x coordinate is a NaN is neither less nor greater
    than any position, so it is equivalent to every position, and
    equivalence is then not transitive: the origin and (1,0,0) are both
    equivalent to it and not to each other. *)
Theorem nan_position_is_equivalent_to_every_position a b :
  F32.is_nan (x a) = true ->
  Vec3_lt a b = false /\ Vec3_lt b a = false
  /\ Vec3_equiv a b = true /\ Vec3_equiv b a = true
  /\ Vec3_equiv (vec 0 0 0) (vec 1 0 0) = false.
Proof.
  intro N.
  assert (L1 : Vec3_lt a b = false).
  { unfold Vec3_lt, F32.ne. destruct (x a); try discriminate N. reflexivity. }
  assert (L2 : Vec3_lt b a = false).
  { unfold Vec3_lt, F32.ne. destruct (x a); try discriminate N.
    destruct (x b) as [s|s| |s m e]; reflexivity. }
  unfold Vec3_equiv. rewrite L1, L2.
  split; [reflexivity|]. split; [reflexivity|]. split; [reflexivity|].
  split; [reflexivity|]. vm_compute. reflexivity.
Qed.

Lemma nan_position_is_equivalent_to_every_position_witness :
  Vec3_lt (mkVec3 S754_nan F32.zero F32.zero) (vec 1 0 0) = false
  /\ Vec3_lt (vec 1 0 0) (mkVec3 S754_nan F32.zero F32.zero) = false
  /\ Vec3_equiv (mkVec3 S754_nan F32.zero F32.zero) (vec 1 0 0) = true
  /\ Vec3_equiv (vec 1 0 0) (mkVec3 S754_nan F32.zero F32.zero) = true
  /\ Vec3_equiv (vec 0 0 0) (vec 1 0 0) = false.
Proof.
  apply (nan_position_is_equivalent_to_every_position
           (mkVec3 S754_nan F32.zero F32.zero) (vec 1 0 0)).
  reflexivity.
Defined.

(* ================================================================== *)
(** * The distance the intersector returns *)
(* ================================================================== *)

(** X11.  A hit of [rayIntersect] is never at a distance of at most 1e-6, and
    unless the distance is a NaN it is greater than 1e-6 and hence
    positive, as the header promises. *)
Theorem rayIntersect_hit_is_beyond_eps r k ro rd t :
  rayIntersect r k ro rd = Some t ->
  F32.le t F32.c1em6 = false
  /\ (F32.is_nan t = false -> F32.gt t F32.c1em6 = true /\ F32.gt t F32.zero = true).
Proof.
  intro H. pose proof (rayIntersect_beyond_eps _ _ _ _ _ H) as B.
  split; [exact B|]. intro N.
  assert (G : F32.lt F32.c1em6 t = true).
  { destruct (F32.lt F32.c1em6 t) eqn:E; [reflexivity|].
    assert (Ne : F32.is_nan F32.c1em6 = false) by (vm_compute; reflexivity).
    rewrite (fle_total _ _ Ne N E) in B. discriminate B. }
  split; [exact G|]. unfold F32.gt.
  apply (flt_trans _ F32.c1em6 _); [vm_compute; reflexivity|exact G].
Qed.

Lemma rayIntersect_hit_is_beyond_eps_witness :
  F32.le (F32.decimal 15 1) F32.c1em6 = false
  /\ (F32.is_nan (F32.decimal 15 1) = false ->
      F32.gt (F32.decimal 15 1) F32.c1em6 = true /\ F32.gt (F32.decimal 15 1) F32.zero = true).
Proof.
  apply (rayIntersect_hit_is_beyond_eps simple_mesh 0
           (mkVec3 (F32.decimal 25 2) (F32.decimal 25 2) (F32.of_Z (-1))) (vec 0 0 1)).
  vm_compute. reflexivity.
Defined.

(* ================================================================== *)
(** * The classifier on small meshes, and the order of its result *)
(* ================================================================== *)

Lemma GreedyCount_le tEps last ds n : GreedyCount tEps last ds n -> n <= length ds.
Proof. induction 1; cbn [length]; lia. Qed.

Lemma distinctHits_le tEps hits : distinctHits tEps hits <= length hits.
Proof.
  pose proof (GreedyCount_le _ _ _ _ (distinctHits_greedy tEps hits)) as H.
  now rewrite length_map in H.
Qed.

Lemma flat_map_at_most_one (A B : Type) (g : A -> list B) l :
  (forall k, length (g k) <= 1) -> length (flat_map g l) <= length l.
Proof.
  intro H. induction l as [|a l IH]; cbn [flat_map length]; [lia|].
  rewrite length_app. specialize (H a). lia.
Qed.

Lemma flat_map_skip_one (A B : Type) (g : A -> list B) i l :
  NoDup l -> In i l -> g i = [] -> (forall k, length (g k) <= 1) ->
  S (length (flat_map g l)) <= length l.
Proof.
  intros ND Hi Gi H. induction l as [|a l IH]; [destruct Hi|].
  cbn [flat_map length]. rewrite length_app.
  inversion ND as [|? ? Hna ND']; subst.
  destruct Hi as [->|Hi].
  - rewrite Gi. cbn [length]. pose proof (flat_map_at_most_one _ _ g l H). lia.
  - specialize (IH ND' Hi). specialize (H a). lia.
Qed.

(** The ray of a facet is not tested against the facet itself, so it has
    at most one hit per other facet. *)
Lemma hitsOf_length r originOffset tMin i :
  i < triangleCount r ->
  S (length (hitsOf r originOffset tMin i)) <= triangleCount r.
Proof.
  intro L. unfold hitsOf. destruct (rayOf r originOffset i) as [ro rd].
  apply Nat.le_trans with (length (seq 0 (triangleCount r))); [|rewrite length_seq; lia].
  apply (flat_map_skip_one _ _ _ i).
  - apply seq_NoDup.
  - apply in_seq. lia.
  - now rewrite Nat.eqb_refl.
  - intro k. destruct (k =? i); [cbn; lia|].
    destruct (rayIntersect r k ro rd) as [t|]; [|cbn; lia].
    destruct (F32.gt t tMin); cbn; lia.
Qed.

(** X12.  A facet is retained only when its ray has at least two distinct hits,
    each on another facet: a mesh of fewer than three facets has no
    even-hit facet, and its fluid mesh is empty. *)
Theorem fewer_than_three_facets_give_no_fluid r originOffset tMin tEps :
  triangleCount r < 3 ->
  evenHitTriangles r originOffset tMin tEps = []
  /\ computeFluidMesh r originOffset tMin tEps
     = Some ([], ("No triangles." ++ newline)%string).
Proof.
  intro L3.
  assert (Ev : evenHitTriangles r originOffset tMin tEps = []).
  { rewrite evenHitTriangles_filter.
    destruct (filter (evenHit r originOffset tMin tEps) (seq 0 (triangleCount r)))
      as [|i l] eqn:F; [reflexivity|exfalso].
    assert (Hi : In i (filter (evenHit r originOffset tMin tEps) (seq 0 (triangleCount r))))
      by (rewrite F; now left).
    apply filter_In in Hi. destruct Hi as [Hi E]. apply in_seq in Hi.
    unfold evenHit in E. cbv zeta in E. apply andb_true_iff in E. destruct E as [P Q].
    apply Nat.ltb_lt in P.
    pose proof (distinctHits_le tEps (sort_hits (hitsOf r originOffset tMin i))) as D.
    rewrite <- (Permutation_length (sort_hits_perm (hitsOf r originOffset tMin i))) in D.
    pose proof (hitsOf_length r originOffset tMin i ltac:(lia)) as H.
    assert (D1 : distinctHits tEps (sort_hits (hitsOf r originOffset tMin i)) = 1) by lia.
    rewrite D1 in Q. discriminate Q. }
  split; [exact Ev|].
  assert (Ac : addCaps r [] = Some []).
  { unfold addCaps. simpl. destruct (vertices_ r); reflexivity. }
  unfold computeFluidMesh, fluidBeforeClean. rewrite Ev, Ac. reflexivity.
Qed.

Lemma fewer_than_three_facets_give_no_fluid_witness :
  evenHitTriangles fins_mesh F32.c1em4 F32.c1em2 F32.c1em4 = []
  /\ computeFluidMesh fins_mesh F32.c1em4 F32.c1em2 F32.c1em4
     = Some ([], ("No triangles." ++ newline)%string).
Proof.
  apply (fewer_than_three_facets_give_no_fluid fins_mesh).
  vm_compute. repeat constructor.
Defined.

Lemma StronglySorted_seq a n : StronglySorted lt (seq a n).
Proof.
  revert a. induction n as [|n IH]; intro a; cbn [seq]; constructor; [apply IH|].
  apply Forall_forall. intros k Hk. apply in_seq in Hk. lia.
Qed.

Lemma StronglySorted_filter (A : Type) (R : A -> A -> Prop) (p : A -> bool) l :
  StronglySorted R l -> StronglySorted R (filter p l).
Proof.
  induction 1 as [|a l S IH F]; cbn [filter]; [constructor|].
  destruct (p a); [|exact IH]. constructor; [exact IH|].
  rewrite Forall_forall in *. intros k Hk. apply filter_In in Hk. apply F, Hk.
Qed.

(** X13.  The list of even-hit facets is strictly increasing, hence without
    repetition, and every index in it is a facet of the mesh: it is the
    sorted, unique list that [writeAsciiStl] expects. *)
Theorem evenHitTriangles_is_increasing_and_in_range r originOffset tMin tEps :
  StronglySorted lt (evenHitTriangles r originOffset tMin tEps)
  /\ NoDup (evenHitTriangles r originOffset tMin tEps)
  /\ Forall (fun i => i < triangleCount r) (evenHitTriangles r originOffset tMin tEps).
Proof.
  rewrite evenHitTriangles_filter. split; [|split].
  - apply StronglySorted_filter, StronglySorted_seq.
  - apply NoDup_filter, seq_NoDup.
  - apply Forall_forall. intros i Hi. apply filter_In in Hi. destruct Hi as [Hi _].
    apply in_seq in Hi. lia.
Qed.

(* ================================================================== *)
(** * The figures of the watertightness report *)
(* ================================================================== *)

Lemma upd_bump_sum (K : Type) (cmp : K -> K -> comparison) k (m : list (K * nat)) :
  list_sum (map snd (upd cmp k bump m)) = S (list_sum (map snd m)).
Proof.
  unfold list_sum in *.
  induction m as [|[k' v] m IH]; cbn [upd map snd fold_right bump]; [lia|].
  destruct (cmp k k'); cbn [map snd fold_right bump]; lia.
Qed.

Lemma edge_counter_sum es :
  forall m,
  list_sum (map snd (fold_left (fun m e => upd pair_compare e bump m) es m))
  = list_sum (map snd m) + length es.
Proof.
  induction es as [|e es IH]; intro m; cbn [fold_left length]; [lia|].
  rewrite IH, upd_bump_sum. lia.
Qed.

Lemma triEdges_length ks : length (flat_map triEdges ks) = 3 * length ks.
Proof.
  induction ks as [|[[a b] c] ks IH]; cbn [flat_map triEdges length app]; lia.
Qed.

(** Every facet contributes three sides to the edge counter. *)
Lemma edgeCount_sum ks : list_sum (map snd (edgeCount ks)) = 3 * length ks.
Proof.
  unfold edgeCount. rewrite edgeCount_fold, edge_counter_sum, triEdges_length.
  cbn [map list_sum fold_right]. lia.
Qed.

Lemma edgeCount_positive ks kv : In kv (edgeCount ks) -> 1 <= snd kv.
Proof.
  destruct kv as [k v]. intro H. apply edgeCount_entries in H. destruct H as [H ->].
  cbn [snd]. now apply incidence_pos.
Qed.

(** The sum of the counters against the boundary and manifold counts. *)
Lemma counter_sum_bounds (m : EdgeMap nat) :
  (forall kv, In kv m -> 1 <= snd kv) ->
  2 * length m <= list_sum (map snd m) + count_if (fun kv => snd kv =? 1) m
  /\ count_if (fun kv => snd kv =? 1) m
     + count_if (fun kv => negb (snd kv =? 1) && (2 <? snd kv)) m <= length m
  /\ (count_if (fun kv => snd kv =? 1) m = 0 ->
      count_if (fun kv => negb (snd kv =? 1) && (2 <? snd kv)) m = 0 ->
      list_sum (map snd m) = 2 * length m).
Proof.
  unfold count_if, list_sum. induction m as [|[k v] m IH]; intro P.
  - cbn. repeat split; lia.
  - assert (Pv : 1 <= v) by exact (P (k, v) (or_introl eq_refl)).
    destruct IH as (I1 & I2 & I3); [intros kv H; apply P; now right|].
    cbn [filter map snd fold_right length].
    destruct (v =? 1) eqn:E1; cbn [negb andb length].
    + apply Nat.eqb_eq in E1. repeat split; intros; lia.
    + apply Nat.eqb_neq in E1. destruct (2 <? v) eqn:E2; cbn [length].
      * repeat split; intros; lia.
      * apply Nat.ltb_ge in E2. repeat split; intros; lia.
Qed.

(** X14.  The figures of the report fit together for every mesh: the boundary
    and the non-manifold edges are distinct edges, there are at most
    three edges per facet, and twice the number of edges is at most three
    times the number of facets plus the number of boundary edges. *)
Theorem watertight_report_is_consistent r :
  let w := watertightStats r in
  boundaryCount w + nonManifoldEdges w <= uniqueEdges w
  /\ uniqueEdges w <= 3 * triangleCount r
  /\ 2 * uniqueEdges w <= 3 * triangleCount r + boundaryCount w
  /\ duplicateTriangles w <= triangleCount r
  /\ degenerateCount w <= triangleCount r.
Proof.
  intro w. unfold w, watertightStats, triangleCount.
  cbn [boundaryCount nonManifoldEdges uniqueEdges duplicateTriangles degenerateCount].
  pose proof (edgeCount_sum (map tri_key (indexedTriangles_ r))) as S.
  rewrite length_map in S.
  destruct (counter_sum_bounds (edgeCount (map tri_key (indexedTriangles_ r)))
              (edgeCount_positive _)) as (B1 & B2 & _).
  assert (Pos : length (edgeCount (map tri_key (indexedTriangles_ r)))
                <= list_sum (map snd (edgeCount (map tri_key (indexedTriangles_ r))))).
  { generalize (edgeCount_positive (map tri_key (indexedTriangles_ r))).
    generalize (edgeCount (map tri_key (indexedTriangles_ r))).
    unfold list_sum. intro l.
    induction l as [|[k v] l IH]; intro P; cbn [map snd fold_right length]; [lia|].
    pose proof (P (k, v) (or_introl eq_refl)) as Pv. cbn [snd] in Pv.
    specialize (IH (fun kv H => P kv (or_intror H))). lia. }
  split; [exact B2|]. split; [lia|]. split; [lia|]. split.
  - clear S B1 B2 Pos. generalize (@nil Key3). induction (indexedTriangles_ r) as [|t l IH]; intro seen;
      cbn [countDuplicates length]; [lia|].
    destruct (kset_mem (sort3 (tri_key t)) seen).
    + specialize (IH seen). lia.
    + specialize (IH (sort3 (tri_key t) :: seen)). lia.
  - unfold count_if. apply filter_length_le.
Qed.

(** X15.  In a mesh that [checkWatertight] accepts every edge is shared by
    exactly two facets, so there are three edges for every two facets and
    the number of facets is even. *)
Theorem watertight_mesh_has_three_edges_per_two_facets r :
  fst (checkWatertight r) = true ->
  2 * uniqueEdges (watertightStats r) = 3 * triangleCount r
  /\ Nat.even (triangleCount r) = true.
Proof.
  unfold checkWatertight. destruct (indexedTriangles_ r) as [|t0 l0] eqn:E;
    [intro H; discriminate H|].
  cbn [fst]. clear E. intro W.
  unfold watertightFlag in W.
  apply andb_true_iff in W. destruct W as [W _].
  apply andb_true_iff in W. destruct W as [W Nm].
  apply andb_true_iff in W. destruct W as [_ Bd].
  apply Nat.eqb_eq in Nm, Bd.
  unfold watertightStats in *. unfold triangleCount.
  cbn [boundaryCount nonManifoldEdges uniqueEdges] in *.
  pose proof (edgeCount_sum (map tri_key (indexedTriangles_ r))) as S.
  rewrite length_map in S.
  destruct (counter_sum_bounds (edgeCount (map tri_key (indexedTriangles_ r)))
              (edgeCount_positive _)) as (_ & _ & B3).
  specialize (B3 Bd Nm).
  assert (Q : 2 * length (edgeCount (map tri_key (indexedTriangles_ r)))
              = 3 * length (indexedTriangles_ r)) by lia.
  split; [exact Q|].
  apply Nat.even_spec.
  exists (length (edgeCount (map tri_key (indexedTriangles_ r))) - length (indexedTriangles_ r)).
  lia.
Qed.

Lemma watertight_mesh_has_three_edges_per_two_facets_witness :
  2 * uniqueEdges (watertightStats tetra_mesh) = 3 * triangleCount tetra_mesh
  /\ Nat.even (triangleCount tetra_mesh) = true.
Proof.
  apply (watertight_mesh_has_three_edges_per_two_facets tetra_mesh).
  vm_compute. reflexivity.
Defined.

(* ================================================================== *)
(** * The boundary of a subset *)
(* ================================================================== *)

Lemma addTriEdges_fileEdge r m ti :
  addTriEdges r m ti
  = if ti <? triangleCount r then fold_left fileEdge (triDirected r ti) m else m.
Proof. reflexivity. Qed.

Lemma edgeToDirected_fold r triangleIndices :
  forall m,
  fold_left (addTriEdges r) triangleIndices m
  = fold_left fileEdge (subsetDirected r triangleIndices) m.
Proof.
  unfold subsetDirected.
  induction triangleIndices as [|ti l IH]; intro m; [reflexivity|].
  cbn [fold_left filter]. rewrite IH, addTriEdges_fileEdge.
  destruct (ti <? triangleCount r); [|reflexivity].
  cbn [flat_map]. now rewrite fold_left_app.
Qed.

Lemma filter_idem (A : Type) (p : A -> bool) l : filter p (filter p l) = filter p l.
Proof.
  induction l as [|a l IH]; [reflexivity|]. cbn [filter].
  destruct (p a) eqn:E; [|exact IH]. cbn [filter]. now rewrite E, IH.
Qed.

(** X16.  An index that is not a facet of the mesh is skipped by both loops
    of [addCaps] that read the subset: the result is that of the subset
    without it. *)
Theorem addCaps_skips_indices_out_of_range r triangleIndices :
  addCaps r triangleIndices
  = addCaps r (filter (fun i => i <? triangleCount r) triangleIndices).
Proof.
  assert (E : edgeToDirected r triangleIndices
              = edgeToDirected r (filter (fun i => i <? triangleCount r) triangleIndices)).
  { unfold edgeToDirected. rewrite !edgeToDirected_fold.
    unfold subsetDirected. now rewrite filter_idem. }
  unfold addCaps, traceBoundary, boundaryEdges. rewrite filter_idem, <- E. reflexivity.
Qed.

(** The entry of an undirected edge holds the directed sides that lie on
    it, in the order of the subset. *)
Lemma fileEdge_lookup des k :
  forall m, keys_sorted pair_compare m ->
  keys_sorted pair_compare (fold_left fileEdge des m)
  /\ olist (lookup pair_compare k (fold_left fileEdge des m))
     = olist (lookup pair_compare k m)
       ++ filter (fun e => pair_eqb (undirected e) k) des.
Proof.
  induction des as [|e des IH]; cbn [fold_left filter]; intros m S.
  - split; [assumption|now rewrite app_nil_r].
  - destruct (IH (fileEdge m e)) as [S' E]; [now apply pair_upd_sorted|].
    split; [assumption|]. rewrite E. unfold fileEdge.
    rewrite pair_lookup_upd by assumption.
    rewrite (pair_compare_eqb (undirected e) k), (pair_compare_antisym k (undirected e)).
    destruct (pair_compare k (undirected e)) eqn:C; cbn [CompOpp].
    + apply pair_compare_eq in C. subst k.
      cbn [olist]. rewrite olist_push_back, <- app_assoc. reflexivity.
    + reflexivity.
    + reflexivity.
Qed.

Lemma directed_eta e : mkDirectedEdge (from e) (to e) (triIdx e) = e.
Proof. now destruct e. Qed.

Lemma filter_singleton (A : Type) (p : A -> bool) l e :
  filter p l = [e] <-> In e l /\ p e = true /\ count_if p l = 1
                       /\ forall e', In e' l -> p e' = true -> e' = e.
Proof.
  unfold count_if. split.
  - intro F. assert (I : In e (filter p l)) by (rewrite F; now left).
    apply filter_In in I. destruct I as [I P].
    split; [assumption|]. split; [assumption|]. split; [now rewrite F|].
    intros e' I' P'. assert (H : In e' (filter p l)) by (apply filter_In; now split).
    rewrite F in H. destruct H as [H|[]]. now symmetry.
  - intros (I & P & C & U).
    destruct (filter p l) as [|a [|b l']] eqn:F; cbn [length] in C; try discriminate C.
    assert (H : In a (filter p l)) by (rewrite F; now left).
    apply filter_In in H. destruct H as [Ha Pa]. now rewrite (U a Ha Pa).
Qed.

Lemma edgeToDirected_entry r triangleIndices k :
  olist (lookup pair_compare k (edgeToDirected r triangleIndices))
  = filter (fun e => pair_eqb (undirected e) k) (subsetDirected r triangleIndices).
Proof.
  unfold edgeToDirected. rewrite edgeToDirected_fold.
  destruct (fileEdge_lookup (subsetDirected r triangleIndices) k []) as [_ E];
    [constructor|]. exact E.
Qed.

Lemma boundaryEdges_entries r triangleIndices e :
  In e (boundaryEdges r triangleIndices)
  <-> exists k, In (k, [e]) (edgeToDirected r triangleIndices).
Proof.
  unfold boundaryEdges. rewrite in_flat_map. split.
  - intros ([k es] & H & He). cbn [snd] in He.
    destruct es as [|e1 [|e2 es]]; [destruct He| |destruct He].
    destruct He as [<-|[]]. rewrite directed_eta. now exists k.
  - intros (k & H). exists (k, [e]). split; [assumption|].
    cbn [snd]. rewrite directed_eta. now left.
Qed.

(** X17.  The boundary edges of a subset are exactly the directed sides of its
    facets that share their undirected edge with no other side of the
    subset. *)
Theorem boundaryEdges_are_the_unshared_sides r triangleIndices e :
  In e (boundaryEdges r triangleIndices)
  <-> In e (subsetDirected r triangleIndices)
      /\ sharing (subsetDirected r triangleIndices) (undirected e) = 1.
Proof.
  destruct (edgeToDirected_inv r triangleIndices) as [S I].
  rewrite boundaryEdges_entries. split.
  - intros (k & H).
    assert (K : undirected e = k) by exact (I k [e] H e (or_introl eq_refl)).
    apply (pair_lookup_In _ _ _ _ S) in H.
    pose proof (edgeToDirected_entry r triangleIndices k) as E.
    rewrite H in E. cbn [olist] in E. symmetry in E.
    apply filter_singleton in E. destruct E as (He & _ & C & _).
    split; [assumption|]. unfold sharing. now rewrite K.
  - intros (He & C). exists (undirected e).
    apply (pair_lookup_In _ _ _ _ S).
    pose proof (edgeToDirected_entry r triangleIndices (undirected e)) as E.
    destruct (filter (fun e' => pair_eqb (undirected e') (undirected e))
                     (subsetDirected r triangleIndices)) as [|a [|b l]] eqn:F;
      unfold sharing, count_if in C; rewrite F in C; cbn [length] in C; try discriminate C.
    assert (Ha : In e (filter (fun e' => pair_eqb (undirected e') (undirected e))
                              (subsetDirected r triangleIndices))).
    { apply filter_In. split; [assumption|]. now apply pair_eqb_eq. }
    rewrite F in Ha. destruct Ha as [->|[]].
    destruct (lookup pair_compare (undirected e) (edgeToDirected r triangleIndices))
      as [l|]; cbn [olist] in E; [now rewrite E|discriminate E].
Qed.

(** ** The boundary edges and the edge counter *)

Lemma fileEdge_counts k e (m : EdgeMap (list DirectedEdge)) :
  map (fun kv => (fst kv, length (snd kv))) (upd pair_compare k (push_back e) m)
  = upd pair_compare k bump (map (fun kv => (fst kv, length (snd kv))) m).
Proof.
  induction m as [|[k' v] m IH]; cbn [upd map fst snd]; [reflexivity|].
  destruct (pair_compare k k'); cbn [map fst snd push_back bump length].
  - rewrite length_app. cbn [length]. now rewrite Nat.add_1_r.
  - reflexivity.
  - now rewrite IH.
Qed.

Lemma fileEdge_fold_counts des :
  forall m,
  map (fun kv => (fst kv, length (snd kv))) (fold_left fileEdge des m)
  = fold_left (fun m e => upd pair_compare e bump m) (map undirected des)
      (map (fun kv => (fst kv, length (snd kv))) m).
Proof.
  induction des as [|e des IH]; intro m; cbn [fold_left map]; [reflexivity|].
  rewrite IH. unfold fileEdge. now rewrite fileEdge_counts.
Qed.

Lemma subsetDirected_edges r triangleIndices :
  map undirected (subsetDirected r triangleIndices)
  = flat_map triEdges
      (map (fun i => tri_key (triAt r i))
           (filter (fun i => i <? triangleCount r) triangleIndices)).
Proof.
  unfold subsetDirected.
  induction (filter (fun i => i <? triangleCount r) triangleIndices) as [|ti l IH];
    [reflexivity|].
  cbn [flat_map map]. rewrite map_app, IH. reflexivity.
Qed.

(** The map of [addCaps] and the counter of [checkWatertight] and
    [cleanMesh] hold the same edges, the counter the length of the list. *)
Lemma edgeToDirected_counts r triangleIndices :
  map (fun kv => (fst kv, length (snd kv))) (edgeToDirected r triangleIndices)
  = edgeCount (map (fun i => tri_key (triAt r i))
                   (filter (fun i => i <? triangleCount r) triangleIndices)).
Proof.
  unfold edgeToDirected, edgeCount.
  rewrite edgeToDirected_fold, fileEdge_fold_counts, subsetDirected_edges, edgeCount_fold.
  reflexivity.
Qed.

Lemma boundaryEdges_count r triangleIndices :
  length (boundaryEdges r triangleIndices)
  = count_if (fun kv => snd kv =? 1)
      (edgeCount (map (fun i => tri_key (triAt r i))
                      (filter (fun i => i <? triangleCount r) triangleIndices))).
Proof.
  rewrite <- edgeToDirected_counts. unfold boundaryEdges, count_if.
  induction (edgeToDirected r triangleIndices) as [|[k es] m IH]; [reflexivity|].
  cbn [flat_map map filter fst snd]. rewrite length_app, IH.
  destruct es as [|e1 [|e2 es]]; reflexivity.
Qed.

Lemma map_nth_all (A : Type) (l : list A) d :
  map (fun i => nth i l d) (seq 0 (length l)) = l.
Proof.
  induction l as [|a l IH]; [reflexivity|].
  cbn [length seq map nth]. rewrite <- seq_shift, map_map. cbn [nth]. now rewrite IH.
Qed.

Lemma whole_mesh_keys r :
  map (fun i => tri_key (triAt r i))
      (filter (fun i => i <? triangleCount r) (seq 0 (triangleCount r)))
  = map tri_key (indexedTriangles_ r).
Proof.
  assert (F : filter (fun i => i <? triangleCount r) (seq 0 (triangleCount r))
              = seq 0 (triangleCount r)).
  { apply forallb_filter_id. apply forallb_forall. intros i Hi.
    apply in_seq in Hi. apply Nat.ltb_lt. lia. }
  rewrite F. unfold triAt, triangleCount.
  rewrite <- (map_map (fun i => nth i (indexedTriangles_ r) (mkIndexedTri 0 0 0)) tri_key).
  now rewrite map_nth_all.
Qed.

Lemma whole_mesh_boundary r :
  length (boundaryEdges r (seq 0 (triangleCount r))) = boundaryCount (watertightStats r).
Proof.
  rewrite boundaryEdges_count, whole_mesh_keys. reflexivity.
Qed.

(** X18.  On the whole mesh [addCaps] finds as many boundary edges as
    [checkWatertight] reports. *)
Theorem addCaps_and_checkWatertight_agree_on_the_boundary r :
  length (boundaryEdges r (seq 0 (triangleCount r))) = boundaryCount (watertightStats r).
Proof.
  rewrite boundaryEdges_count, whole_mesh_keys.
  unfold watertightStats. cbn [boundaryCount]. reflexivity.
Qed.

(** X19.  A mesh that [checkWatertight] accepts has no boundary to close:
    [addCaps] on all its facets returns the facets and no cap. *)
Theorem watertight_mesh_gets_no_caps r :
  fst (checkWatertight r) = true ->
  boundaryEdges r (seq 0 (triangleCount r)) = []
  /\ addCaps r (seq 0 (triangleCount r))
     = Some (map (getTriangle r) (seq 0 (triangleCount r))).
Proof.
  unfold checkWatertight. destruct (indexedTriangles_ r) as [|t0 l0] eqn:E;
    [intro H; discriminate H|].
  cbn [fst]. clear E. intro W.
  unfold watertightFlag in W.
  apply andb_true_iff in W. destruct W as [W _].
  apply andb_true_iff in W. destruct W as [W _].
  apply andb_true_iff in W. destruct W as [_ Bd].
  apply Nat.eqb_eq in Bd. rewrite <- whole_mesh_boundary in Bd.
  apply length_zero_iff_nil in Bd. split; [exact Bd|].
  unfold addCaps. rewrite Bd.
  assert (F : filter (fun i => i <? triangleCount r) (seq 0 (triangleCount r))
              = seq 0 (triangleCount r)).
  { apply forallb_filter_id. apply forallb_forall. intros i Hi.
    apply in_seq in Hi. apply Nat.ltb_lt. lia. }
  rewrite F. destruct (vertices_ r); reflexivity.
Qed.

Lemma watertight_mesh_gets_no_caps_witness :
  boundaryEdges tetra_mesh (seq 0 (triangleCount tetra_mesh)) = []
  /\ addCaps tetra_mesh (seq 0 (triangleCount tetra_mesh))
     = Some (map (getTriangle tetra_mesh) (seq 0 (triangleCount tetra_mesh))).
Proof.
  apply (watertight_mesh_gets_no_caps tetra_mesh).
  vm_compute. reflexivity.
Defined.

(* ================================================================== *)
(** * The number of caps *)
(* ================================================================== *)

Lemma index_of_lt v l :
  forall idx, index_of v l = Some idx -> idx < length l.
Proof.
  induction l as [|a l IH]; cbn [index_of length]; intros idx H; [discriminate H|].
  destruct (a =? v); [injection H as <-; lia|].
  destruct (index_of v l) as [i|]; [|discriminate H].
  injection H as <-. specialize (IH i eq_refl). lia.
Qed.

Lemma callsSize_snoc cs loop ti : callsSize (cs ++ [(loop, ti)]) = callsSize cs + length loop.
Proof.
  unfold callsSize. rewrite map_app, list_sum_app. cbn [map fst list_sum fold_right]. lia.
Qed.

(** Along one trace every consumed edge adds at most one vertex to the
    loops, recorded or still open. *)
Lemma traceLoop_size nm :
  forall fuel start loop triOnLoop cur st loop' triOnLoop' st',
  traceLoop nm fuel start loop triOnLoop cur st = Some (loop', triOnLoop', st') ->
  callsSize (calls st') + length loop' + length (used st)
  <= callsSize (calls st) + length loop + length (used st')
  /\ length (used st) <= length (used st').
Proof.
  induction fuel as [|fuel IH]; intros start loop triOnLoop cur st loop' triOnLoop' st' H;
    [discriminate H|].
  rewrite traceLoop_eq in H.
  destruct (cur =? start); [injection H as <- <- <-; lia|].
  destruct (nextUnused (used st) cur (successors nm cur)) as [nextV nextTri].
  destruct (nextV =? 0); [injection H as <- <- <-; lia|].
  destruct (index_of nextV loop) as [idx|] eqn:X.
  - destruct (nextV =? start).
    + injection H as <- <- <-. cbn [used calls length]. lia.
    + apply IH in H. cbn [used calls length] in H.
      rewrite callsSize_snoc, length_skipn, length_firstn in H.
      pose proof (index_of_lt _ _ _ X). lia.
  - apply IH in H. cbn [used calls length] in H.
    rewrite length_app in H. cbn [length] in H. lia.
Qed.

(** Over the whole tracing the loops hold at most two vertices per
    consumed edge. *)
Lemma traceAll_size bes nm :
  forall fuel st st',
  traceAll bes nm fuel st = Some st' ->
  callsSize (calls st') + 2 * length (used st)
  <= callsSize (calls st) + 2 * length (used st').
Proof.
  induction fuel as [|fuel IH]; intros st st' H; [discriminate H|].
  rewrite traceAll_eq in H.
  destruct (find (fun e => negb (pset_count (from e, to e) (used st))) bes) as [e|];
    [|injection H as <-; lia].
  destruct (traceLoop nm (S (length bes)) (from e) [from e; to e] [triIdx e; triIdx e]
              (to e) (mkTraceState ((from e, to e) :: used st) (calls st)))
    as [[[loop triOnLoop] st1]|] eqn:T; [|discriminate H].
  apply traceLoop_size in T. cbn [used calls length] in T.
  apply IH in H. cbn [used calls] in H. rewrite callsSize_snoc in H. lia.
Qed.

Lemma capTriangle_length C va vb adjNormal : length (capTriangle C va vb adjNormal) <= 1.
Proof.
  rewrite capTriangle_unfold. destruct (capSkipped C va vb); cbn [length]; lia.
Qed.

Lemma capOneLoop_length r loop ti : length (capOneLoop r loop ti) <= length loop.
Proof.
  unfold capOneLoop. destruct (length loop <? 3); [cbn [length]; lia|].
  cbv zeta.
  apply Nat.le_trans with (length (seq 0 (length loop))); [|now rewrite length_seq].
  apply flat_map_at_most_one. intro k. apply capTriangle_length.
Qed.

Lemma caps_length r cs :
  length (flat_map (fun c => capOneLoop r (fst c) (snd c)) cs) <= callsSize cs.
Proof.
  unfold callsSize. induction cs as [|[loop ti] cs IH]; [cbn; lia|].
  cbn [flat_map map fst snd list_sum fold_right]. rewrite length_app.
  pose proof (capOneLoop_length r loop ti). unfold list_sum in IH. lia.
Qed.

Lemma boundaryEdges_bound r triangleIndices :
  length (boundaryEdges r triangleIndices)
  <= 3 * length (filter (fun i => i <? triangleCount r) triangleIndices).
Proof.
  rewrite boundaryEdges_count.
  set (ks := map (fun i => tri_key (triAt r i))
                 (filter (fun i => i <? triangleCount r) triangleIndices)).
  pose proof (edgeCount_sum ks) as S. unfold ks at 2 in S. rewrite length_map in S.
  destruct (counter_sum_bounds (edgeCount ks) (edgeCount_positive ks)) as (B1 & B2 & _).
  lia.
Qed.

(** The caps are at most two for every boundary edge. *)
Lemma addCaps_size r triangleIndices :
  exists caps,
    addCaps r triangleIndices
    = Some (map (getTriangle r) (filter (fun i => i <? triangleCount r) triangleIndices)
            ++ caps)
    /\ length caps <= 2 * length (boundaryEdges r triangleIndices).
Proof.
  unfold addCaps.
  destruct (vertices_ r);
    [exists []; split; [now rewrite app_nil_r|cbn [length]; lia]|].
  destruct (boundaryEdges r triangleIndices) as [|b0 bl] eqn:Be;
    [exists []; split; [now rewrite app_nil_r|cbn [length]; lia]|].
  rewrite <- Be.
  destruct (traceBoundary_returns r triangleIndices) as (st & T & [ND Inc] & _).
  rewrite T. eexists. split; [reflexivity|].
  unfold traceBoundary in T. apply traceAll_size in T.
  cbn [used calls length] in T. unfold callsSize at 2 in T. cbn in T.
  pose proof (NoDup_incl_length ND Inc) as Lu. rewrite length_map in Lu.
  pose proof (caps_length r (calls st)). lia.
Qed.

(** X20.  [addCaps] returns the facets of the subset followed by at most two
    caps for every boundary edge, and a subset has at most three boundary
    edges per facet: the output is at most seven times the subset. *)
Theorem addCaps_adds_at_most_two_caps_per_boundary_edge r triangleIndices :
  let subset := filter (fun i => i <? triangleCount r) triangleIndices in
  exists caps,
    addCaps r triangleIndices = Some (map (getTriangle r) subset ++ caps)
    /\ length caps <= 2 * length (boundaryEdges r triangleIndices)
    /\ length (boundaryEdges r triangleIndices) <= 3 * length subset
    /\ length (map (getTriangle r) subset ++ caps) <= 7 * length subset.
Proof.
  intro subset.
  pose proof (boundaryEdges_bound r triangleIndices) as B. fold subset in B.
  destruct (addCaps_size r triangleIndices) as (caps & E & Lc). fold subset in E.
  exists caps.
  split; [exact E|]. split; [exact Lc|]. split; [exact B|].
  rewrite length_app, length_map. lia.
Qed.

(* ================================================================== *)
(** * Floating point: negation and the sign of zero *)
(* ================================================================== *)

(** The sign of a float enters a rounded operation only through the sign
    of its result, so negation commutes with multiplication and division
    exactly, and with addition and subtraction up to the sign of a zero
    result.  [fnorm a = fnorm b] says that [a] and [b] are the same float
    up to the sign of zero. *)
Section FloatSigns.
Variables prec emax : Z.

Lemma SFopp_involutive a : SFopp (SFopp a) = a.
Proof. destruct a as [s|s| |s m e]; cbn [SFopp]; now rewrite ?negb_involutive. Qed.

Lemma fnorm_cases a a' :
  fnorm a = fnorm a' ->
  a = a' \/ exists s s', a = S754_zero s /\ a' = S754_zero s'.
Proof.
  destruct a as [s|s| |s m e], a' as [s'|s'| |s' m' e']; cbn [fnorm]; intro H;
    try discriminate H; try (now left); right; eauto.
Qed.

Lemma fnorm_opp a a' : fnorm a = fnorm a' -> fnorm (SFopp a) = fnorm (SFopp a').
Proof.
  intro H. destruct (fnorm_cases _ _ H) as [->|(s & s' & -> & ->)]; reflexivity.
Qed.

Lemma fnorm_nonzero a a' :
  fnorm a = fnorm a' -> (forall s, a <> S754_zero s) -> a = a'.
Proof.
  intros H N. destruct (fnorm_cases _ _ H) as [E|(s & s' & E & _)]; [exact E|].
  now destruct (N s).
Qed.

Lemma binary_round_aux_opp s m e l :
  binary_round_aux prec emax (negb s) m e l = SFopp (binary_round_aux prec emax s m e l).
Proof.
  unfold binary_round_aux.
  destruct (shr_fexp prec emax m e l) as [mrs' e'].
  destruct (shr_fexp prec emax _ e' loc_Exact) as [mrs'' e''].
  destruct (shr_m mrs''); try reflexivity.
  destruct (e'' <=? emax - prec)%Z; reflexivity.
Qed.

Lemma binary_round_opp s m e :
  binary_round prec emax (negb s) m e = SFopp (binary_round prec emax s m e).
Proof.
  unfold binary_round. destruct (shl_align m e _) as [mz ez].
  apply binary_round_aux_opp.
Qed.

Lemma binary_normalize_opp m e :
  fnorm (binary_normalize prec emax (- m) e false)
  = fnorm (SFopp (binary_normalize prec emax m e false)).
Proof.
  destruct m as [|p|p]; cbn [Z.opp binary_normalize]; [reflexivity| |].
  - now rewrite (binary_round_opp false).
  - now rewrite (binary_round_opp false), SFopp_involutive.
Qed.

(** ** Multiplication and division *)

Lemma SFmul_comm a b : SFmul prec emax a b = SFmul prec emax b a.
Proof.
  destruct a as [s|s| |s m e], b as [s'|s'| |s' m' e']; unfold SFmul;
    rewrite ?(xorb_comm s s'); try reflexivity.
  now rewrite (Pos.mul_comm m m'), (Z.add_comm e e').
Qed.

Lemma SFmul_opp_r a b : SFmul prec emax a (SFopp b) = SFopp (SFmul prec emax a b).
Proof.
  destruct a as [s|s| |s m e], b as [s'|s'| |s' m' e']; unfold SFmul, SFopp;
    try reflexivity;
    try (destruct s, s'; reflexivity).
  destruct s, s'; cbn [xorb negb];
    first [exact (binary_round_aux_opp false _ _ _)|exact (binary_round_aux_opp true _ _ _)].
Qed.

Lemma SFmul_opp_l a b : SFmul prec emax (SFopp a) b = SFopp (SFmul prec emax a b).
Proof. now rewrite SFmul_comm, SFmul_opp_r, SFmul_comm. Qed.

Lemma SFmul_fnorm a a' b b' :
  fnorm a = fnorm a' -> fnorm b = fnorm b' ->
  fnorm (SFmul prec emax a b) = fnorm (SFmul prec emax a' b').
Proof.
  intros Ha Hb.
  destruct (fnorm_cases _ _ Ha) as [->|(s & s' & -> & ->)],
           (fnorm_cases _ _ Hb) as [->|(t & t' & -> & ->)]; [reflexivity| | |reflexivity].
  - destruct a' as [u|u| |u m e]; reflexivity.
  - destruct b' as [u|u| |u m e]; reflexivity.
Qed.

Lemma SFdiv_opp_l a b : SFdiv prec emax (SFopp a) b = SFopp (SFdiv prec emax a b).
Proof.
  destruct a as [s|s| |s m e], b as [s'|s'| |s' m' e']; unfold SFdiv, SFopp;
    try reflexivity;
    try (destruct s, s'; reflexivity).
  destruct (SFdiv_core_binary prec emax (Z.pos m) e (Z.pos m') e') as [[mz ez] lz].
  destruct s, s'; cbn [xorb negb];
    first [exact (binary_round_aux_opp false _ _ _)|exact (binary_round_aux_opp true _ _ _)].
Qed.

Lemma SFdiv_fnorm_l a a' b :
  fnorm a = fnorm a' -> fnorm (SFdiv prec emax a b) = fnorm (SFdiv prec emax a' b).
Proof.
  intro Ha. destruct (fnorm_cases _ _ Ha) as [->|(s & s' & -> & ->)]; [reflexivity|].
  destruct b as [u|u| |u m e]; reflexivity.
Qed.

Lemma SFsqrt_fnorm a a' :
  fnorm a = fnorm a' -> fnorm (SFsqrt prec emax a) = fnorm (SFsqrt prec emax a').
Proof.
  intro Ha. destruct (fnorm_cases _ _ Ha) as [->|(s & s' & -> & ->)]; reflexivity.
Qed.

(** ** Addition and subtraction *)

Lemma cond_Zopp_negb s m : cond_Zopp (negb s) m = (- cond_Zopp s m)%Z.
Proof. destruct s; cbn [cond_Zopp negb]; lia. Qed.

Lemma SFadd_opp a b :
  fnorm (SFadd prec emax (SFopp a) (SFopp b)) = fnorm (SFopp (SFadd prec emax a b)).
Proof.
  destruct a as [s|s| |s m e], b as [s'|s'| |s' m' e']; unfold SFadd, SFopp;
    try reflexivity;
    try (destruct s, s'; reflexivity).
  cbv zeta. rewrite !cond_Zopp_negb, <- Z.opp_add_distr.
  apply binary_normalize_opp.
Qed.

Lemma SFadd_fnorm a a' b b' :
  fnorm a = fnorm a' -> fnorm b = fnorm b' ->
  fnorm (SFadd prec emax a b) = fnorm (SFadd prec emax a' b').
Proof.
  intros Ha Hb.
  destruct (fnorm_cases _ _ Ha) as [->|(s & s' & -> & ->)],
           (fnorm_cases _ _ Hb) as [->|(t & t' & -> & ->)]; [reflexivity| | |].
  - destruct a' as [u|u| |u m e]; try reflexivity; destruct u, t, t'; reflexivity.
  - destruct b' as [u|u| |u m e]; try reflexivity; destruct u, s, s'; reflexivity.
  - destruct s, s', t, t'; reflexivity.
Qed.

Lemma SFsub_swap a b :
  fnorm (SFsub prec emax b a) = fnorm (SFopp (SFsub prec emax a b)).
Proof.
  destruct a as [s|s| |s m e], b as [s'|s'| |s' m' e']; unfold SFsub;
    try reflexivity;
    try (destruct s, s'; reflexivity).
  cbv zeta. rewrite (Z.min_comm e' e).
  rewrite <- binary_normalize_opp. f_equal. f_equal. lia.
Qed.

Lemma SFsub_fnorm a a' b b' :
  fnorm a = fnorm a' -> fnorm b = fnorm b' ->
  fnorm (SFsub prec emax a b) = fnorm (SFsub prec emax a' b').
Proof.
  intros Ha Hb.
  destruct (fnorm_cases _ _ Ha) as [->|(s & s' & -> & ->)],
           (fnorm_cases _ _ Hb) as [->|(t & t' & -> & ->)]; [reflexivity| | |].
  - destruct a' as [u|u| |u m e]; try reflexivity; destruct u, t, t'; reflexivity.
  - destruct b' as [u|u| |u m e]; try reflexivity; destruct u, s, s'; reflexivity.
  - destruct s, s', t, t'; reflexivity.
Qed.

(** The forms used below: the negation, up to the sign of zero, of a
    product, a quotient and a sum. *)
Lemma neg_mul_r a a' d d' :
  fnorm a' = fnorm a -> fnorm d' = fnorm (SFopp d) ->
  fnorm (SFmul prec emax a' d') = fnorm (SFopp (SFmul prec emax a d)).
Proof.
  intros Ha Hd. rewrite (SFmul_fnorm _ _ _ _ Ha Hd). now rewrite SFmul_opp_r.
Qed.

Lemma neg_mul_l a a' d d' :
  fnorm a' = fnorm (SFopp a) -> fnorm d' = fnorm d ->
  fnorm (SFmul prec emax a' d') = fnorm (SFopp (SFmul prec emax a d)).
Proof.
  intros Ha Hd. rewrite (SFmul_fnorm _ _ _ _ Ha Hd). now rewrite SFmul_opp_l.
Qed.

Lemma neg_mul_both a a' d d' :
  fnorm a' = fnorm (SFopp a) -> fnorm d' = fnorm (SFopp d) ->
  fnorm (SFmul prec emax a' d') = fnorm (SFmul prec emax a d).
Proof.
  intros Ha Hd. rewrite (SFmul_fnorm _ _ _ _ Ha Hd).
  now rewrite SFmul_opp_l, SFmul_opp_r, SFopp_involutive.
Qed.

Lemma neg_add a a' b b' :
  fnorm a' = fnorm (SFopp a) -> fnorm b' = fnorm (SFopp b) ->
  fnorm (SFadd prec emax a' b') = fnorm (SFopp (SFadd prec emax a b)).
Proof.
  intros Ha Hb. rewrite (SFadd_fnorm _ _ _ _ Ha Hb). apply SFadd_opp.
Qed.

Lemma neg_div_l a a' b :
  fnorm a' = fnorm (SFopp a) ->
  fnorm (SFdiv prec emax a' b) = fnorm (SFopp (SFdiv prec emax a b)).
Proof.
  intro Ha. rewrite (SFdiv_fnorm_l _ _ b Ha). now rewrite SFdiv_opp_l.
Qed.

End FloatSigns.

(** ** Comparison *)

Lemma SFcompare_fnorm a a' b b' :
  fnorm a = fnorm a' -> fnorm b = fnorm b' -> SFcompare a b = SFcompare a' b'.
Proof.
  intros Ha Hb.
  destruct (fnorm_cases _ _ Ha) as [->|(s & s' & -> & ->)],
           (fnorm_cases _ _ Hb) as [->|(t & t' & -> & ->)]; [reflexivity| | |reflexivity].
  - destruct a' as [u|u| |u m e]; reflexivity.
  - destruct b' as [u|u| |u m e]; reflexivity.
Qed.

Lemma SFcompare_opp a b : SFcompare (SFopp a) (SFopp b) = SFcompare b a.
Proof.
  destruct a as [s|s| |s m e], b as [s'|s'| |s' m' e']; unfold SFcompare, SFopp;
    try reflexivity;
    try (destruct s; reflexivity);
    try (destruct s'; reflexivity);
    try (destruct s, s'; reflexivity).
  destruct s, s'; cbn [negb]; try reflexivity;
    rewrite (Z.compare_antisym e e'); destruct (e ?= e')%Z; cbn [CompOpp];
    try reflexivity; rewrite Pos.compare_cont_antisym; reflexivity.
Qed.

Lemma SFltb_fnorm a a' b b' :
  fnorm a = fnorm a' -> fnorm b = fnorm b' -> SFltb a b = SFltb a' b'.
Proof. intros Ha Hb. unfold SFltb. now rewrite (SFcompare_fnorm _ _ _ _ Ha Hb). Qed.

Lemma SFleb_fnorm a a' b b' :
  fnorm a = fnorm a' -> fnorm b = fnorm b' -> SFleb a b = SFleb a' b'.
Proof. intros Ha Hb. unfold SFleb. now rewrite (SFcompare_fnorm _ _ _ _ Ha Hb). Qed.

Lemma SFltb_opp a b : SFltb (SFopp a) (SFopp b) = SFltb b a.
Proof. unfold SFltb. now rewrite SFcompare_opp. Qed.

Lemma SFltb_opp_l a b : SFltb (SFopp a) b = SFltb (SFopp b) a.
Proof. rewrite <- (SFopp_involutive b) at 1. apply SFltb_opp. Qed.

Lemma SFltb_opp_r a b : SFltb a (SFopp b) = SFltb b (SFopp a).
Proof. rewrite <- (SFopp_involutive a) at 1. apply SFltb_opp. Qed.

Lemma of_float_opp a : F64.of_float (SFopp a) = SFopp (F64.of_float a).
Proof.
  destruct a as [s|s| |s m e]; cbn [F64.of_float SFopp]; try reflexivity.
  apply binary_round_opp.
Qed.

Lemma of_float_fnorm a a' : fnorm a = fnorm a' -> fnorm (F64.of_float a) = fnorm (F64.of_float a').
Proof.
  intro Ha. destruct (fnorm_cases _ _ Ha) as [->|(s & s' & -> & ->)]; reflexivity.
Qed.

(* ================================================================== *)
(** * The volume does not depend on the winding *)
(* ================================================================== *)

Lemma tetra_swap a b c : fnorm (tetra a c b) = fnorm (SFopp (tetra a b c)).
Proof.
  unfold tetra, F32.add, F32.sub, F32.mul.
  apply neg_add; [apply neg_add|]; (apply neg_mul_r; [reflexivity|]).
  - rewrite (SFmul_comm _ _ (y c) (z b)), (SFmul_comm _ _ (z c) (y b)). apply SFsub_swap.
  - rewrite (SFmul_comm _ _ (z c) (x b)), (SFmul_comm _ _ (x c) (z b)). apply SFsub_swap.
  - rewrite (SFmul_comm _ _ (x c) (y b)), (SFmul_comm _ _ (y c) (x b)). apply SFsub_swap.
Qed.

Lemma volume_sum_swap verts l :
  forall s s',
  fnorm s' = fnorm (SFopp s) ->
  fnorm (fold_left
           (fun s id =>
              F64.add s
                (F64.div
                   (F64.of_float
                      (tetra (nth (i0 id) verts vzero) (nth (i1 id) verts vzero)
                             (nth (i2 id) verts vzero)))
                   F64.six))
           (map (fun t => mkIndexedTri (i0 t) (i2 t) (i1 t)) l) s')
  = fnorm (SFopp
             (fold_left
                (fun s id =>
                   F64.add s
                     (F64.div
                        (F64.of_float
                           (tetra (nth (i0 id) verts vzero) (nth (i1 id) verts vzero)
                                  (nth (i2 id) verts vzero)))
                        F64.six))
                l s)).
Proof.
  induction l as [|t l IH]; intros s s' H; cbn [map fold_left]; [exact H|].
  apply IH. cbn [i0 i1 i2]. unfold F64.add, F64.div.
  apply neg_add; [exact H|]. apply neg_div_l.
  rewrite (of_float_fnorm _ _ (tetra_swap _ _ _)). now rewrite of_float_opp.
Qed.

(** X21.  [volume] is the absolute value of the signed sum, so winding every
    facet the other way does not change it: the two volumes are the same
    double, up to the sign of a zero. *)
Theorem volume_does_not_depend_on_the_winding r :
  fnorm (volume (reverseWinding r)) = fnorm (volume r).
Proof.
  unfold volume, reverseWinding, vertexAt. cbn [indexedTriangles_ vertices_]. cbv zeta.
  pose proof (volume_sum_swap (vertices_ r) (indexedTriangles_ r) F64.zero F64.zero eq_refl)
    as H.
  revert H.
  match goal with
  | |- fnorm ?a = fnorm (SFopp ?b) -> _ => generalize a; generalize b
  end.
  intros S S' H. unfold F64.lt, F64.opp, F64.zero.
  destruct (fnorm_cases _ _ H) as [->|(s & s' & -> & E)].
  - destruct S as [s|s| |s m e]; try destruct s; reflexivity.
  - destruct S as [u|u| |u m e]; try discriminate E. destruct u; reflexivity.
Qed.

(* ================================================================== *)
(** * The winding check *)
(* ================================================================== *)

Lemma fold_left_nil_eq (A B : Type) (f : A -> B -> A) s : fold_left f [] s = s.
Proof. reflexivity. Qed.

Lemma fold_left_cons_eq (A B : Type) (f : A -> B -> A) b l s :
  fold_left f (b :: l) s = fold_left f l (f s b).
Proof. reflexivity. Qed.

Lemma windingStep_unfold r st i :
  windingStep r st i
  = if windingSkipped r i then st
    else if F32.gt (windingDot r i) tol
         then mkWindingState (S (ok st)) (wrong st) (opposite st)
         else if F32.lt (windingDot r i) (F32.opp tol)
              then mkWindingState (ok st) (S (wrong st))
                     (opposite st ++ [(i, windingDot r i)])
              else st.
Proof. unfold windingStep, windingSkipped, windingDot. cbv zeta. reflexivity. Qed.

(** The two tests of the loop exclude each other. *)
Lemma winding_tests_exclusive d :
  F32.gt d tol = true -> F32.lt d (F32.opp tol) = false.
Proof.
  intro G. destruct (F32.lt d (F32.opp tol)) eqn:L; [|reflexivity].
  pose proof (flt_trans _ _ _ G L) as T. vm_compute in T. discriminate T.
Qed.

(** Negating the dot product exchanges the two tests. *)
Lemma winding_tests_swap d d' :
  fnorm d' = fnorm (SFopp d) ->
  F32.gt d' tol = F32.lt d (F32.opp tol) /\ F32.lt d' (F32.opp tol) = F32.gt d tol.
Proof.
  intro H. unfold F32.gt, F32.lt, F32.opp. split.
  - rewrite (SFltb_fnorm tol tol d' (SFopp d) eq_refl H). apply SFltb_opp_r.
  - rewrite (SFltb_fnorm d' (SFopp d) (SFopp tol) (SFopp tol) H eq_refl). apply SFltb_opp.
Qed.

Lemma windingStep_cases r st i :
  windingStep r st i = st
  \/ windingStep r st i = mkWindingState (S (ok st)) (wrong st) (opposite st)
  \/ (windingStep r st i
      = mkWindingState (ok st) (S (wrong st)) (opposite st ++ [(i, windingDot r i)])
      /\ F32.lt (windingDot r i) (F32.opp tol) = true).
Proof.
  rewrite windingStep_unfold.
  destruct (windingSkipped r i); [now left|].
  destruct (F32.gt (windingDot r i) tol); [right; now left|].
  destruct (F32.lt (windingDot r i) (F32.opp tol)); [right; right; now split|now left].
Qed.

(** One round counts the facet at most once, and writes a line exactly
    when it counts the facet as wrong. *)
Lemma windingStep_counts r st i :
  ok (windingStep r st i) + wrong (windingStep r st i) <= ok st + wrong st + 1
  /\ ok st <= ok (windingStep r st i)
  /\ wrong st <= wrong (windingStep r st i)
  /\ (length (opposite st) = wrong st ->
      length (opposite (windingStep r st i)) = wrong (windingStep r st i))
  /\ (forall e, In e (opposite (windingStep r st i)) ->
        In e (opposite st)
        \/ (fst e = i /\ snd e = windingDot r i /\ F32.lt (snd e) (F32.opp tol) = true)).
Proof.
  destruct (windingStep_cases r st i) as [E|[E|[E L]]]; rewrite E; cbn [ok wrong opposite].
  - split; [lia|]. split; [lia|]. split; [lia|]. split; [auto|]. intros e He. now left.
  - split; [lia|]. split; [lia|]. split; [lia|]. split; [auto|]. intros e He. now left.
  - split; [lia|]. split; [lia|]. split; [lia|]. split.
    + intro H. rewrite length_app. cbn [length]. lia.
    + intros e He. apply in_app_or in He. destruct He as [He|[<-|[]]]; [now left|].
      right. cbn [fst snd]. split; [reflexivity|]. split; [reflexivity|exact L].
Qed.

(** The invariant of the loop: the counters add up to at most the number
    of facets visited, and there is one line for every facet counted as
    wrong, with the index of a visited facet and a dot product below
    [-tol]. *)
Lemma windingLoop_counts r l :
  forall st,
  ok (fold_left (windingStep r) l st) + wrong (fold_left (windingStep r) l st)
  <= ok st + wrong st + length l
  /\ (length (opposite st) = wrong st ->
      length (opposite (fold_left (windingStep r) l st))
      = wrong (fold_left (windingStep r) l st))
  /\ (forall e, In e (opposite (fold_left (windingStep r) l st)) ->
        In e (opposite st)
        \/ (In (fst e) l /\ snd e = windingDot r (fst e)
            /\ F32.lt (snd e) (F32.opp tol) = true)).
Proof.
  induction l as [|i l IH]; intro st.
  - rewrite fold_left_nil_eq. cbn [length].
    split; [lia|]. split; [auto|]. intros e He. now left.
  - rewrite !fold_left_cons_eq. cbn [length].
    pose proof (IH (windingStep r st i)) as I.
    pose proof (windingStep_counts r st i) as C.
    set (st1 := windingStep r st i) in *. clearbody st1.
    set (st2 := fold_left (windingStep r) l st1) in *. clearbody st2.
    destruct I as (I1 & I4 & I5). destruct C as (C1 & _ & _ & C4 & C5).
    split; [lia|]. split; [auto|].
    intros e He. destruct (I5 e He) as [H|(H1 & H2 & H3)].
    + destruct (C5 e H) as [H'|(H1 & H2 & H3)]; [now left|].
      right. split; [left; now symmetry|]. split; [now rewrite H1|exact H3].
    + right. split; [now right|]. now split.
Qed.

(** X22.  What the loop of [checkRightHandWinding] counts: the facets counted
    as OK and as wrong are at most the facets of the mesh, one line is
    written for every facet counted as wrong, and every line names a
    facet of the mesh whose dot product is below [-tol]. *)
Theorem checkRightHandWinding_counts_each_facet_once r :
  ok (windingLoop r) + wrong (windingLoop r) <= triangleCount r
  /\ length (opposite (windingLoop r)) = wrong (windingLoop r)
  /\ (forall e, In e (opposite (windingLoop r)) ->
        fst e < triangleCount r
        /\ snd e = windingDot r (fst e)
        /\ F32.lt (snd e) (F32.opp tol) = true).
Proof.
  unfold windingLoop.
  destruct (windingLoop_counts r (seq 0 (triangleCount r)) (mkWindingState 0 0 []))
    as (I1 & I4 & I5).
  cbn [ok wrong opposite length] in I1, I4, I5. rewrite length_seq in I1.
  split; [lia|]. split; [now apply I4|].
  intros e He. destruct (I5 e He) as [[]|(H1 & H2 & H3)].
  apply in_seq in H1. split; [lia|]. now split.
Qed.

(** ** Exchanging OK and wrong *)

(** When a change of the mesh keeps the skipped facets and negates every
    dot product, the two counters are exchanged. *)
Lemma windingStep_swap r r' i st st' :
  windingSkipped r' i = windingSkipped r i ->
  (windingSkipped r i = false ->
   fnorm (windingDot r' i) = fnorm (SFopp (windingDot r i))) ->
  ok st' = wrong st -> wrong st' = ok st ->
  ok (windingStep r' st' i) = wrong (windingStep r st i)
  /\ wrong (windingStep r' st' i) = ok (windingStep r st i).
Proof.
  intros Sk Dt E1 E2. rewrite !windingStep_unfold, Sk.
  destruct (windingSkipped r i) eqn:K; [now split|].
  destruct (winding_tests_swap _ _ (Dt eq_refl)) as [-> ->].
  destruct (F32.gt (windingDot r i) tol) eqn:G.
  - rewrite (winding_tests_exclusive _ G). cbn [ok wrong]. split; congruence.
  - destruct (F32.lt (windingDot r i) (F32.opp tol)); cbn [ok wrong]; split; congruence.
Qed.

Lemma windingLoop_swap r r' l :
  (forall i, windingSkipped r' i = windingSkipped r i) ->
  (forall i, windingSkipped r i = false ->
             fnorm (windingDot r' i) = fnorm (SFopp (windingDot r i))) ->
  forall st st',
  ok st' = wrong st -> wrong st' = ok st ->
  ok (fold_left (windingStep r') l st') = wrong (fold_left (windingStep r) l st)
  /\ wrong (fold_left (windingStep r') l st') = ok (fold_left (windingStep r) l st).
Proof.
  intros Sk Dt. induction l as [|i l IH]; intros st st' E1 E2.
  - rewrite !fold_left_nil_eq. now split.
  - rewrite !fold_left_cons_eq.
    destruct (windingStep_swap r r' i st st' (Sk i) (Dt i) E1 E2) as [F1 F2].
    now apply IH.
Qed.

Lemma nth_neg ns i :
  vnorm (nth i (map Vec3_neg ns) vzero) = vnorm (Vec3_neg (nth i ns vzero)).
Proof.
  destruct (Nat.lt_ge_cases i (length ns)) as [L|L].
  - rewrite (nth_indep _ vzero (Vec3_neg vzero)) by now rewrite length_map.
    now rewrite map_nth.
  - rewrite !nth_overflow by now rewrite ?length_map. reflexivity.
Qed.

Lemma dot3_neg_r n o o' :
  vnorm o' = vnorm (Vec3_neg o) -> fnorm (dot3 n o') = fnorm (SFopp (dot3 n o)).
Proof.
  unfold vnorm, Vec3_neg. cbn [x y z]. intros [= Hx Hy Hz].
  unfold dot3, F32.add, F32.mul.
  apply neg_add; [apply neg_add|]; apply neg_mul_r; try reflexivity; assumption.
Qed.

(** X23.  Negating every stored normal turns every facet counted as OK into one
    counted as wrong, and conversely. *)
Theorem negating_the_stored_normals_exchanges_the_counts r :
  ok (windingLoop (negateStoredNormals r)) = wrong (windingLoop r)
  /\ wrong (windingLoop (negateStoredNormals r)) = ok (windingLoop r).
Proof.
  unfold windingLoop.
  change (triangleCount (negateStoredNormals r)) with (triangleCount r).
  assert (G : forall i, getTriangle (negateStoredNormals r) i = getTriangle r i).
  { intro i. unfold getTriangle, triAt, vertexAt, negateStoredNormals.
    cbn [indexedTriangles_ vertices_]. reflexivity. }
  apply windingLoop_swap; [| |reflexivity|reflexivity].
  - intro i. unfold windingSkipped. cbv zeta. now rewrite G.
  - intros i _. unfold windingDot. cbv zeta. rewrite G.
    apply dot3_neg_r. unfold negateStoredNormals. cbn [originalFacetNormals_].
    apply nth_neg.
Qed.

Lemma edgeCross_swap a b c :
  fnorm (x (edgeCross a c b)) = fnorm (SFopp (x (edgeCross a b c)))
  /\ fnorm (y (edgeCross a c b)) = fnorm (SFopp (y (edgeCross a b c)))
  /\ fnorm (z (edgeCross a c b)) = fnorm (SFopp (z (edgeCross a b c))).
Proof.
  unfold edgeCross. cbv zeta. cbn [x y z]. unfold F32.sub, F32.mul.
  split; [|split].
  - rewrite (SFmul_comm _ _ (SFsub _ _ (y c) (y a)) (SFsub _ _ (z b) (z a))),
            (SFmul_comm _ _ (SFsub _ _ (z c) (z a)) (SFsub _ _ (y b) (y a))).
    apply SFsub_swap.
  - rewrite (SFmul_comm _ _ (SFsub _ _ (z c) (z a)) (SFsub _ _ (x b) (x a))),
            (SFmul_comm _ _ (SFsub _ _ (x c) (x a)) (SFsub _ _ (z b) (z a))).
    apply SFsub_swap.
  - rewrite (SFmul_comm _ _ (SFsub _ _ (x c) (x a)) (SFsub _ _ (y b) (y a))),
            (SFmul_comm _ _ (SFsub _ _ (y c) (y a)) (SFsub _ _ (x b) (x a))).
    apply SFsub_swap.
Qed.

Lemma vlen_neg n n' :
  fnorm (x n') = fnorm (SFopp (x n)) ->
  fnorm (y n') = fnorm (SFopp (y n)) ->
  fnorm (z n') = fnorm (SFopp (z n)) ->
  fnorm (vlen n') = fnorm (vlen n).
Proof.
  intros Hx Hy Hz. unfold vlen, norm2, F32.sqrt, F32.add, F32.mul.
  apply SFsqrt_fnorm. apply SFadd_fnorm; [apply SFadd_fnorm|]; now apply neg_mul_both.
Qed.

Lemma nth_reversed l i :
  nth i (map (fun t => mkIndexedTri (i0 t) (i2 t) (i1 t)) l) (mkIndexedTri 0 0 0)
  = mkIndexedTri (i0 (nth i l (mkIndexedTri 0 0 0))) (i2 (nth i l (mkIndexedTri 0 0 0)))
                 (i1 (nth i l (mkIndexedTri 0 0 0))).
Proof.
  exact (map_nth (fun t => mkIndexedTri (i0 t) (i2 t) (i1 t)) l (mkIndexedTri 0 0 0) i).
Qed.

Lemma getTriangle_reversed r i :
  v0 (getTriangle (reverseWinding r) i) = v0 (getTriangle r i)
  /\ v1 (getTriangle (reverseWinding r) i) = v2 (getTriangle r i)
  /\ v2 (getTriangle (reverseWinding r) i) = v1 (getTriangle r i).
Proof.
  unfold getTriangle, triAt, vertexAt, reverseWinding.
  cbn [indexedTriangles_ vertices_ v0 v1 v2].
  rewrite nth_reversed. cbn [i0 i1 i2]. repeat split.
Qed.

(** X24.  Winding every facet the other way, [v1] and [v2] exchanged,
    leaves the facets that the loop skips for a cross product of length
    zero the same, and turns every facet counted as OK into one counted
    as wrong, and conversely. *)
Theorem reversing_the_winding_exchanges_the_counts r :
  (forall i, windingSkipped (reverseWinding r) i = windingSkipped r i)
  /\ ok (windingLoop (reverseWinding r)) = wrong (windingLoop r)
  /\ wrong (windingLoop (reverseWinding r)) = ok (windingLoop r).
Proof.
  unfold windingLoop.
  assert (Tc : triangleCount (reverseWinding r) = triangleCount r).
  { unfold triangleCount, reverseWinding. cbn [indexedTriangles_]. apply length_map. }
  rewrite Tc.
  assert (Ln : forall i,
             fnorm (vlen (edgeCross (v0 (getTriangle (reverseWinding r) i))
                                    (v1 (getTriangle (reverseWinding r) i))
                                    (v2 (getTriangle (reverseWinding r) i))))
             = fnorm (vlen (edgeCross (v0 (getTriangle r i)) (v1 (getTriangle r i))
                                      (v2 (getTriangle r i))))).
  { intro i. destruct (getTriangle_reversed r i) as (-> & -> & ->).
    destruct (edgeCross_swap (v0 (getTriangle r i)) (v1 (getTriangle r i))
                (v2 (getTriangle r i))) as (Hx & Hy & Hz).
    now apply vlen_neg. }
  assert (Sk : forall i, windingSkipped (reverseWinding r) i = windingSkipped r i).
  { intro i. unfold windingSkipped. cbv zeta. unfold F32.le.
    apply SFleb_fnorm; [apply Ln|reflexivity]. }
  split; [exact Sk|].
  apply windingLoop_swap; [exact Sk| |reflexivity|reflexivity].
  - intros i K. unfold windingSkipped in K. cbv zeta in K.
    unfold windingDot. cbv zeta.
    assert (E : vlen (edgeCross (v0 (getTriangle (reverseWinding r) i))
                                (v1 (getTriangle (reverseWinding r) i))
                                (v2 (getTriangle (reverseWinding r) i)))
                = vlen (edgeCross (v0 (getTriangle r i)) (v1 (getTriangle r i))
                                  (v2 (getTriangle r i)))).
    { symmetry. apply fnorm_nonzero; [symmetry; apply Ln|].
      intros s Z. rewrite Z in K. destruct s; discriminate K. }
    rewrite E.
    change (originalFacetNormals_ (reverseWinding r)) with (originalFacetNormals_ r).
    destruct (getTriangle_reversed r i) as (-> & -> & ->).
    destruct (edgeCross_swap (v0 (getTriangle r i)) (v1 (getTriangle r i))
                (v2 (getTriangle r i))) as (Hx & Hy & Hz).
    unfold dot3, vscale_inv, F32.add, F32.mul, F32.div. cbn [x y z].
    apply neg_add; [apply neg_add|]; apply neg_mul_l; try reflexivity;
      now apply neg_div_l.
Qed.

(* ================================================================== *)
(** * The name of the solid *)
(* ================================================================== *)

Lemma pop_back_spec c s : (pop_back (String c s) ++ String (back (String c s)) EmptyString = String c s)%string.
Proof.
  revert c. induction s as [|d s IH]; intro c; [reflexivity|].
  change (pop_back (String c (String d s))) with (String c (pop_back (String d s))).
  change (back (String c (String d s))) with (back (String d s)).
  cbn [append]. now rewrite IH.
Qed.

Lemma pop_back_length c s : String.length (pop_back (String c s)) = String.length s.
Proof.
  revert c. induction s as [|d s IH]; intro c; [reflexivity|].
  change (pop_back (String c (String d s))) with (String c (pop_back (String d s))).
  cbn [String.length]. now rewrite IH.
Qed.

Lemma all_padding_app s t : all_padding (s ++ t) = all_padding s && all_padding t.
Proof.
  induction s as [|c s IH]; [reflexivity|]. cbn [append all_padding].
  now rewrite IH, andb_assoc.
Qed.

Lemma append_assoc s t u : ((s ++ t) ++ u = s ++ (t ++ u))%string.
Proof. induction s as [|c s IH]; [reflexivity|]. cbn [append]. now rewrite IH. Qed.

Lemma append_empty_r s : (s ++ EmptyString)%string = s.
Proof. induction s as [|c s IH]; [reflexivity|]. cbn [append]. now rewrite IH. Qed.

(** The loop removes the longest suffix of NULs and spaces. *)
Lemma trimName_spec fuel :
  forall name,
  String.length name <= fuel ->
  exists padding,
    name = (trimName fuel name ++ padding)%string
    /\ all_padding padding = true
    /\ (trimName fuel name = EmptyString \/ isPadding (back (trimName fuel name)) = false).
Proof.
  induction fuel as [|fuel IH]; intros name L.
  - destruct name as [|c s]; [|cbn [String.length] in L; lia].
    exists EmptyString. cbn [trimName]. split; [reflexivity|]. split; [reflexivity|now left].
  - destruct name as [|c s].
    + exists EmptyString. cbn [trimName]. split; [reflexivity|]. split; [reflexivity|now left].
    + cbn [trimName]. destruct (isPadding (back (String c s))) eqn:P.
      * destruct (IH (pop_back (String c s))) as (pad & E & A & T).
        { rewrite pop_back_length. cbn [String.length] in L. lia. }
        exists (pad ++ String (back (String c s)) EmptyString)%string.
        split; [|split; [|exact T]].
        -- rewrite <- append_assoc, <- E. symmetry. apply pop_back_spec.
        -- rewrite all_padding_app, A. cbn [all_padding]. now rewrite P.
      * exists EmptyString. split; [now rewrite append_empty_r|].
        split; [reflexivity|now right].
Qed.

(** X25.  The name written after [solid] is never empty and never ends in a
    NUL or a space: it is the header without its trailing NULs and
    spaces, or [triangles] when nothing else is left of the header. *)
Theorem solidName_is_the_trimmed_header header :
  solidName header <> EmptyString
  /\ isPadding (back (solidName header)) = false
  /\ ((exists padding,
         header = (solidName header ++ padding)%string /\ all_padding padding = true)
      \/ (all_padding header = true /\ solidName header = "triangles"%string)).
Proof.
  unfold solidName.
  destruct (trimName_spec (String.length header) header (le_n _)) as (pad & E & A & T).
  destruct (trimName (String.length header) header) as [|c s] eqn:N.
  - split; [discriminate|]. split; [reflexivity|]. right.
    split; [|reflexivity]. rewrite E. exact A.
  - split; [discriminate|]. split.
    + destruct T as [T|T]; [discriminate T|exact T].
    + left. exists pad. now split.
Qed.

(* ================================================================== *)
(** * The writers *)
(* ================================================================== *)

Section PrintingFacts.
Variable show_float : float -> string.

Lemma concat_empty_cons s l :
  String.concat EmptyString (s :: l) = (s ++ String.concat EmptyString l)%string.
Proof.
  destruct l as [|t l]; cbn [String.concat]; [now rewrite append_empty_r|reflexivity].
Qed.

Lemma write_loop (A : Type) (g : A -> string) l :
  forall f,
  fold_left (fun f a => (f ++ g a)%string) l f
  = (f ++ String.concat EmptyString (map g l))%string.
Proof.
  induction l as [|a l IH]; intro f.
  - cbn [fold_left map String.concat]. now rewrite append_empty_r.
  - rewrite fold_left_cons_eq, IH. cbn [map]. now rewrite concat_empty_cons, append_assoc.
Qed.

Lemma write_loop_filter (A : Type) (p : A -> bool) (g : A -> string) l :
  forall f,
  fold_left (fun f a => if p a then (f ++ g a)%string else f) l f
  = fold_left (fun f a => (f ++ g a)%string) (filter p l) f.
Proof.
  induction l as [|a l IH]; intro f; [reflexivity|].
  rewrite fold_left_cons_eq. cbn [filter]. destruct (p a); [|apply IH].
  rewrite fold_left_cons_eq. apply IH.
Qed.

(** X26.  The three writers write the same text for the same facets between
    their own first and last line, and [writeAsciiStl] with a list of
    indices writes nothing for an index that is not a facet of the
    mesh. *)
Theorem writers_write_the_same_facets r onlyIndices :
  let subset := filter (fun k => k <? triangleCount r) onlyIndices in
  writeAsciiStl_onlyIndices show_float r onlyIndices
  = ("solid even_hits" ++ newline
     ++ facetsText show_float (map (getTriangle r) subset)
     ++ "endsolid even_hits" ++ newline)%string
  /\ writeAsciiStlFromTriangles show_float (map (getTriangle r) subset)
     = ("solid fluid" ++ newline
        ++ facetsText show_float (map (getTriangle r) subset)
        ++ "endsolid fluid" ++ newline)%string
  /\ writeAsciiStl show_float r
     = ("solid " ++ solidName (header_ r) ++ newline
        ++ facetsText show_float (map (getTriangle r) (seq 0 (triangleCount r)))
        ++ "endsolid " ++ solidName (header_ r) ++ newline)%string.
Proof.
  intro subset. unfold facetsText. split; [|split].
  - unfold writeAsciiStl_onlyIndices.
    rewrite (write_loop_filter _ (fun k => k <? triangleCount r)
               (fun k => writeOneFacet show_float (getTriangle r k))).
    rewrite write_loop, map_map. fold subset. now rewrite !append_assoc.
  - unfold writeAsciiStlFromTriangles. rewrite write_loop. now rewrite !append_assoc.
  - unfold writeAsciiStl. cbv zeta.
    rewrite (write_loop _ (fun i => writeOneFacet show_float (getTriangle r i))), map_map.
    now rewrite !append_assoc.
Qed.

(** X27.  After [removeDuplicateVertices] there is one stored normal per
    facet, so [checkRightHandWinding] always ends its text with the
    summary of the two counters; on a mesh where the two sizes differ it
    writes nothing. *)
Theorem checkRightHandWinding_writes_the_summary r :
  (exists details,
     checkRightHandWinding show_float (removeDuplicateVertices r)
     = (details ++ "Right-hand rule: " ++ show (ok (windingLoop (removeDuplicateVertices r)))
        ++ " OK, " ++ show (wrong (windingLoop (removeDuplicateVertices r)))
        ++ " opposite winding" ++ newline)%string)
  /\ (forall r0, length (originalFacetNormals_ r0) <> triangleCount r0 ->
                 checkRightHandWinding show_float r0 = EmptyString).
Proof.
  split.
  - unfold checkRightHandWinding. rewrite removeDuplicateVertices_fields.
    cbn [originalFacetNormals_ indexedTriangles_]. rewrite !length_map.
    rewrite (indexAll_length (triangles_ r) ([], [])
               (fst (indexAll (triangles_ r) ([], [])))
               (snd (indexAll (triangles_ r) ([], []))))
      by now destruct (indexAll (triangles_ r) ([], [])).
    rewrite Nat.eqb_refl. cbn [negb]. cbv zeta. eexists. reflexivity.
  - intros r0 N. unfold checkRightHandWinding, triangleCount in *.
    apply Nat.eqb_neq in N. now rewrite N.
Qed.

End PrintingFacts.

(* ================================================================== *)
(** * Reading a binary file *)
(* ================================================================== *)

(** A [read] leaves the stream good exactly when it was good and held
    enough characters; otherwise it leaves [failbit] set. *)
Lemma sread_state n f :
  if good f && (n <=? length (unread f))
  then fst (sread n f) = firstn n (unread f)
       /\ snd (sread n f) = mkIStream (skipn n (unread f)) false false
  else failbit (snd (sread n f)) = true.
Proof.
  unfold sread. destruct (good f); cbn [andb]; [|reflexivity].
  destruct (n <=? length (unread f)); [split; reflexivity|reflexivity].
Qed.

Lemma good_fresh u : good (mkIStream u false false) = true.
Proof. reflexivity. Qed.

Lemma good_failed f : failbit f = true -> good f = false.
Proof. unfold good. now intros ->. Qed.

(** One round of the loop: the stream stays without [failbit] exactly
    when it was good and held the 48 bytes of the four vectors; the two
    attribute bytes may be missing, which sets [eofbit] only. *)
Lemma readFacet_state f :
  if good f && (48 <=? length (unread f))
  then failbit (snd (readFacet f)) = false
       /\ eofbit (snd (readFacet f)) = negb (50 <=? length (unread f))
       /\ length (unread (snd (readFacet f))) = length (unread f) - 50
  else failbit (snd (readFacet f)) = true.
Proof.
  unfold readFacet.
  pose proof (sread_state 12 f) as H1.
  destruct (sread 12 f) as [bn f1]. cbn [fst snd] in H1.
  pose proof (sread_state 12 f1) as H2.
  destruct (sread 12 f1) as [b0 f2]. cbn [fst snd] in H2.
  pose proof (sread_state 12 f2) as H3.
  destruct (sread 12 f2) as [b1 f3]. cbn [fst snd] in H3.
  pose proof (sread_state 12 f3) as H4.
  destruct (sread 12 f3) as [b2 f4]. cbn [fst snd] in H4.
  cbn [snd].
  assert (Bad : forall g, failbit g = true -> failbit (signore 2 g) = true).
  { intros g G. unfold signore. now rewrite (good_failed _ G). }
  destruct (good f) eqn:G; cbn [andb] in *.
  - destruct (12 <=? length (unread f)) eqn:L1.
    + destruct H1 as [_ ->]. rewrite good_fresh in H2. cbn [andb unread] in H2.
      rewrite length_skipn in H2. apply Nat.leb_le in L1.
      destruct (12 <=? length (unread f) - 12) eqn:L2.
      * destruct H2 as [_ ->]. rewrite good_fresh in H3. cbn [andb unread] in H3.
        rewrite !length_skipn in H3. apply Nat.leb_le in L2.
        destruct (12 <=? length (unread f) - 12 - 12) eqn:L3.
        -- destruct H3 as [_ ->]. rewrite good_fresh in H4. cbn [andb unread] in H4.
           rewrite !length_skipn in H4. apply Nat.leb_le in L3.
           destruct (12 <=? length (unread f) - 12 - 12 - 12) eqn:L4.
           ++ destruct H4 as [_ ->]. apply Nat.leb_le in L4.
              replace (48 <=? length (unread f)) with true
                by (symmetry; apply Nat.leb_le; lia).
              unfold signore. rewrite good_fresh. cbn [unread].
              rewrite !length_skipn.
              destruct (2 <=? length (unread f) - 12 - 12 - 12 - 12) eqn:L5.
              ** apply Nat.leb_le in L5. cbn [failbit eofbit unread].
                 rewrite !length_skipn.
                 replace (50 <=? length (unread f)) with true
                   by (symmetry; apply Nat.leb_le; lia).
                 repeat split; cbn [negb]; lia.
              ** apply Nat.leb_gt in L5. cbn [failbit eofbit unread length].
                 replace (50 <=? length (unread f)) with false
                   by (symmetry; apply Nat.leb_gt; lia).
                 repeat split; cbn [negb]; lia.
           ++ apply Nat.leb_gt in L4.
              replace (48 <=? length (unread f)) with false
                by (symmetry; apply Nat.leb_gt; lia).
              now apply Bad.
        -- apply Nat.leb_gt in L3.
           replace (48 <=? length (unread f)) with false
             by (symmetry; apply Nat.leb_gt; lia).
           rewrite (good_failed _ H3) in H4. cbn [andb] in H4. now apply Bad.
      * apply Nat.leb_gt in L2.
        replace (48 <=? length (unread f)) with false
          by (symmetry; apply Nat.leb_gt; lia).
        rewrite (good_failed _ H2) in H3. cbn [andb] in H3.
        rewrite (good_failed _ H3) in H4. cbn [andb] in H4. now apply Bad.
    + apply Nat.leb_gt in L1.
      replace (48 <=? length (unread f)) with false
        by (symmetry; apply Nat.leb_gt; lia).
      rewrite (good_failed _ H1) in H2. cbn [andb] in H2.
      rewrite (good_failed _ H2) in H3. cbn [andb] in H3.
      rewrite (good_failed _ H3) in H4. cbn [andb] in H4. now apply Bad.
  - rewrite (good_failed _ H1) in H2. cbn [andb] in H2.
    rewrite (good_failed _ H2) in H3. cbn [andb] in H3.
    rewrite (good_failed _ H3) in H4. cbn [andb] in H4. now apply Bad.
Qed.

Lemma readFacets_length n : forall f, length (fst (readFacets n f)) = n.
Proof.
  induction n as [|n IH]; intro f; [reflexivity|]. cbn [readFacets].
  destruct (readFacet f) as [t f1]. specialize (IH f1).
  destruct (readFacets n f1) as [ts f2]. cbn [fst length] in *. now rewrite IH.
Qed.

(** The loop over [n] facets ends without [failbit] exactly when the
    stream holds the [n] facets, the last one possibly without its two
    attribute bytes. *)
Lemma readFacets_state n :
  forall f,
  failbit f = false ->
  (failbit (snd (readFacets n f)) = false
   <-> n = 0 \/ (eofbit f = false /\ 50 * n <= length (unread f) + 2)).
Proof.
  induction n as [|n IH]; intros f F.
  - cbn [readFacets snd]. split; [now left|intros _; exact F].
  - cbn [readFacets]. pose proof (readFacet_state f) as R.
    destruct (readFacet f) as [t f1]. cbn [snd] in R.
    assert (Bad : failbit f1 = true -> failbit (snd (readFacets n f1)) = true).
    { clear. revert f1. induction n as [|n IHn]; intros f1 G; [exact G|].
      cbn [readFacets]. pose proof (readFacet_state f1) as R.
      rewrite (good_failed _ G) in R. cbn [andb] in R.
      destruct (readFacet f1) as [t f2]. cbn [snd] in R.
      specialize (IHn f2 R). destruct (readFacets n f2) as [ts f3]. exact IHn. }
    specialize (IH f1).
    destruct (readFacets n f1) as [ts f2]. cbn [snd] in *.
    unfold good in R. rewrite F in R. cbn [negb andb] in R.
    destruct (eofbit f) eqn:E; cbn [negb andb] in R.
    + rewrite (Bad R). split; [discriminate|]. intros [H|[H _]]; discriminate H.
    + destruct (48 <=? length (unread f)) eqn:L.
      * destruct R as (R1 & R2 & R3). specialize (IH R1). rewrite IH, R2, R3.
        apply Nat.leb_le in L.
        destruct (50 <=? length (unread f)) eqn:L'; cbn [negb].
        -- apply Nat.leb_le in L'. split.
           ++ intros [H|[_ H]]; right; split; try reflexivity; lia.
           ++ intros [H|[_ H]]; [discriminate H|].
              destruct n as [|n]; [now left|right; split; [reflexivity|lia]].
        -- apply Nat.leb_gt in L'. split.
           ++ intros [H|[H _]]; [|discriminate H]. right. split; [reflexivity|lia].
           ++ intros [H|[_ H]]; [discriminate H|]. left. lia.
      * apply Nat.leb_gt in L. rewrite (Bad R). split; [discriminate|].
        intros [H|[_ H]]; [discriminate H|lia].
Qed.

Lemma padTo_full k bs : length bs = k -> padTo k bs = bs.
Proof.
  intro L. unfold padTo. rewrite firstn_app, L, Nat.sub_diag.
  cbn [firstn]. rewrite app_nil_r. rewrite <- L. apply firstn_all.
Qed.

(** The binary branch on a file: what it needs to return [true], and
    what it then holds. *)
Lemma readBinary_fresh bytes :
  let n := le_bytes (firstn 4 (skipn 80 bytes)) in
  (readBinary (mkIStream bytes false false) <> None
   <-> 84 <= length bytes /\ (n <= 100000000)%N
       /\ (n = 0%N \/ 84 + 50 * N.to_nat n <= length bytes + 2))
  /\ (forall h ts,
        readBinary (mkIStream bytes false false) = Some (h, ts) ->
        h = string_of_list_ascii (firstn 80 bytes) /\ length ts = N.to_nat n).
Proof.
  intro n. unfold readBinary.
  pose proof (sread_state 80 (mkIStream bytes false false)) as H1.
  destruct (sread 80 (mkIStream bytes false false)) as [h f1]. cbn [fst snd] in H1.
  rewrite good_fresh in H1. cbn [andb unread] in H1.
  pose proof (sread_state 4 f1) as H2.
  destruct (sread 4 f1) as [nb f2]. cbn [fst snd] in H2.
  destruct (80 <=? length bytes) eqn:L1.
  - destruct H1 as [-> ->]. rewrite good_fresh in H2. cbn [andb unread] in H2.
    rewrite length_skipn in H2. apply Nat.leb_le in L1.
    destruct (4 <=? length bytes - 80) eqn:L2.
    + destruct H2 as [-> ->]. apply Nat.leb_le in L2. cbn [failbit orb].
      rewrite padTo_full by (rewrite length_firstn, length_skipn; lia).
      fold n.
      destruct (100000000 <? n)%N eqn:B.
      * apply N.ltb_lt in B. split; [|intros h ts H; discriminate H].
        split; [intro H; now destruct H|]. intros (_ & H & _). lia.
      * apply N.ltb_ge in B.
        pose proof (readFacets_state (N.to_nat n)
                      (mkIStream (skipn 4 (skipn 80 bytes)) false false) eq_refl) as S.
        pose proof (readFacets_length (N.to_nat n)
                      (mkIStream (skipn 4 (skipn 80 bytes)) false false)) as Ln.
        destruct (readFacets (N.to_nat n) (mkIStream (skipn 4 (skipn 80 bytes)) false false))
          as [ts f3]. cbn [fst snd eofbit unread] in S, Ln.
        rewrite !length_skipn in S.
        destruct (failbit f3) eqn:F3.
        -- split; [|intros h ts' H; discriminate H].
           split; [intro H; now destruct H|]. intros (_ & _ & H). exfalso.
           assert (X : true = false); [|discriminate X].
           apply S. destruct H as [H|H]; [left; lia|right; split; [reflexivity|lia]].
        -- split.
           ++ split; [|intros _; discriminate].
              intros _. split; [lia|]. split; [exact B|].
              destruct (proj1 S eq_refl) as [H|[_ H]]; [left; lia|right; lia].
           ++ intros h ts' [= <- <-]. split; [reflexivity|exact Ln].
    + apply Nat.leb_gt in L2. rewrite H2. cbn [orb].
      split; [|intros h' ts H; discriminate H].
      split; [intro H; now destruct H|]. intros (H & _). lia.
  - apply Nat.leb_gt in L1. rewrite (good_failed _ H1) in H2. cbn [andb] in H2.
    rewrite H2. cbn [orb]. split; [|intros h' ts H; discriminate H].
    split; [intro H; now destruct H|]. intros (H & _). lia.
Qed.

Lemma readBinary_failed f : failbit f = true -> readBinary f = None.
Proof.
  intro F. unfold readBinary.
  pose proof (sread_state 80 f) as H1. rewrite (good_failed _ F) in H1. cbn [andb] in H1.
  destruct (sread 80 f) as [h f1]. cbn [snd] in H1.
  pose proof (sread_state 4 f1) as H2. rewrite (good_failed _ H1) in H2. cbn [andb] in H2.
  destruct (sread 4 f1) as [nb f2]. cbn [snd] in H2. now rewrite H2.
Qed.

(** The probe of the first five characters changes nothing for the
    binary branch: a file too short for the probe is too short for the
    header. *)
Lemma readBinary_short bytes :
  length bytes < 84 -> readBinary (mkIStream bytes false false) = None.
Proof.
  intro L. destruct (readBinary_fresh bytes) as [H _].
  destruct (readBinary (mkIStream bytes false false)) as [p|]; [|reflexivity].
  assert (X : Some p <> None) by discriminate.
  apply H in X. lia.
Qed.

Lemma readBinary_afterProbe bytes :
  readBinary (afterProbe bytes) = readBinary (mkIStream bytes false false).
Proof.
  unfold afterProbe.
  pose proof (sread_state 5 (mkIStream bytes false false)) as P.
  destruct (sread 5 (mkIStream bytes false false)) as [buf f1]. cbn [fst snd] in P.
  rewrite good_fresh in P. cbn [andb unread] in P.
  destruct (5 <=? length bytes) eqn:L.
  - destruct P as [_ ->]. reflexivity.
  - apply Nat.leb_gt in L. rewrite P, readBinary_failed by reflexivity.
    symmetry. apply readBinary_short. lia.
Qed.

(** With the 80 characters of the header there, the binary branch goes
    on from character 80 and keeps the header as it is. *)
Lemma readBinary_long bytes :
  80 <= length bytes ->
  readBinary (mkIStream bytes false false)
  = let '(nb, f2) := sread 4 (mkIStream (skipn 80 bytes) false false) in
    if failbit f2 || (100000000 <? le_bytes (padTo 4 nb))%N then None else
    let '(ts, f3) := readFacets (N.to_nat (le_bytes (padTo 4 nb))) f2 in
    if failbit f3 then None else Some (string_of_list_ascii (firstn 80 bytes), ts).
Proof.
  intro L. unfold readBinary.
  pose proof (sread_state 80 (mkIStream bytes false false)) as H.
  rewrite good_fresh in H. cbn [andb unread] in H.
  apply Nat.leb_le in L. rewrite L in H.
  destruct (sread 80 (mkIStream bytes false false)) as [h f1]. cbn [fst snd] in H.
  destruct H as [-> ->]. reflexivity.
Qed.

Section ReadingFacts.
Variable readAscii : list ascii -> option (string * list Triangle).

(** X28.  A file that does not begin with [solid] is read as a binary file.
    [read] returns [true] exactly when the file holds the 80 bytes of
    the header, a facet count [n] of at most 100000000 and the [n]
    facets of 50 bytes, where the last two bytes of the last facet may be
    missing and anything after the facets is ignored; it then holds the
    80 bytes as the header and [n] triangles.  A count of zero is
    accepted: [read] returns [true] with no triangle. *)
Theorem read_accepts_a_binary_file bytes :
  startsWithSolid bytes = false ->
  let n := le_bytes (firstn 4 (skipn 80 bytes)) in
  (read readAscii (Some bytes) <> None
   <-> 84 <= length bytes /\ (n <= 100000000)%N
       /\ (n = 0%N \/ 84 + 50 * N.to_nat n <= length bytes + 2))
  /\ (forall h ts,
        read readAscii (Some bytes) = Some (h, ts) ->
        h = string_of_list_ascii (firstn 80 bytes) /\ length ts = N.to_nat n).
Proof.
  intros A n. unfold read. rewrite A. unfold afterProbe.
  pose proof (sread_state 5 (mkIStream bytes false false)) as P.
  destruct (sread 5 (mkIStream bytes false false)) as [buf f1]. cbn [fst snd] in P.
  rewrite good_fresh in P. cbn [andb unread] in P.
  destruct (5 <=? length bytes) eqn:L.
  - destruct P as [_ ->]. cbn [failbit]. apply readBinary_fresh.
  - apply Nat.leb_gt in L. rewrite P, readBinary_failed by reflexivity.
    split; [|intros h ts H; discriminate H].
    split; [intro H; now destruct H|]. intros (H & _). lia.
Qed.

(** X29.  The volume of a binary file does not depend on its header: two
    files that do not begin with [solid] and agree from byte 80 on give
    the same answer, [false] for both or the same volume. *)
Theorem volumeFromFile_does_not_read_the_header bytes bytes' :
  startsWithSolid bytes = false ->
  startsWithSolid bytes' = false ->
  skipn 80 bytes = skipn 80 bytes' ->
  volumeFromFile readAscii (Some bytes) = volumeFromFile readAscii (Some bytes').
Proof.
  intros A A' E. unfold volumeFromFile, read. rewrite A, A', !readBinary_afterProbe.
  pose proof (f_equal (@length ascii) E) as Ln. rewrite !length_skipn in Ln.
  destruct (Nat.lt_ge_cases (length bytes) 84) as [L|L].
  - rewrite (readBinary_short bytes), (readBinary_short bytes') by lia. reflexivity.
  - rewrite (readBinary_long bytes), (readBinary_long bytes') by lia.
    rewrite E.
    destruct (sread 4 (mkIStream (skipn 80 bytes') false false)) as [nb f2].
    destruct (failbit f2 || _)%bool; [reflexivity|].
    destruct (readFacets _ f2) as [ts f3].
    destruct (failbit f3); [reflexivity|].
    rewrite !removeDuplicateVertices_fields. cbn [triangles_ header_].
    apply f_equal, volume_reads_two_fields.
Qed.

End ReadingFacts.

Lemma volumeFromFile_does_not_read_the_header_witness :
  volumeFromFile (fun _ => None) (Some one_facet_file)
  = volumeFromFile (fun _ => None) (Some (repeat "x"%char 80 ++ skipn 80 one_facet_file)).
Proof.
  apply (volumeFromFile_does_not_read_the_header (fun _ => None) one_facet_file
           (repeat "x"%char 80 ++ skipn 80 one_facet_file)); reflexivity.
Defined.

Lemma read_accepts_a_binary_file_witness :
  (read (fun _ => None) (Some one_facet_file) <> None
   <-> 84 <= length one_facet_file
       /\ (le_bytes (firstn 4 (skipn 80 one_facet_file)) <= 100000000)%N
       /\ (le_bytes (firstn 4 (skipn 80 one_facet_file)) = 0%N
           \/ 84 + 50 * N.to_nat (le_bytes (firstn 4 (skipn 80 one_facet_file)))
              <= length one_facet_file + 2))
  /\ (forall h ts,
        read (fun _ => None) (Some one_facet_file) = Some (h, ts) ->
        h = string_of_list_ascii (firstn 80 one_facet_file)
        /\ length ts = N.to_nat (le_bytes (firstn 4 (skipn 80 one_facet_file)))).
Proof.
  apply (read_accepts_a_binary_file (fun _ => None) one_facet_file). reflexivity.
Defined.

(* ================================================================== *)
(** * The size of the fluid mesh *)
(* ================================================================== *)

Lemma cleanMesh_length_le ts : length (fst (cleanMesh ts)) <= length ts.
Proof.
  destruct (cleanMesh_cleanCore ts) as [-> _].
  destruct (cleanCore_kept ts) as (-> & _).
  destruct (indexAll ts ([], [])) as [keys st] eqn:I. cbn [fst snd].
  pose proof (indexAll_length _ _ _ _ I) as Lk.
  pose proof (fates_partition keys []) as P. fold (keptKeys keys) in P.
  pose proof (rebuild_length (snd st) (keptKeys keys)) as R. lia.
Qed.

Lemma flipFrom_length n l : length (flipFrom n l) = length l.
Proof.
  unfold flipFrom. rewrite length_app, length_map, <- length_app.
  now rewrite firstn_skipn.
Qed.

(** X30.  [computeFluidMesh] always returns, and the fluid mesh it returns has
    at most seven triangles for every even-hit facet: the facet, and at
    most two caps for each of its at most three boundary edges. *)
Theorem computeFluidMesh_returns_a_bounded_mesh r originOffset tMin tEps :
  exists outFluid text,
    computeFluidMesh r originOffset tMin tEps = Some (outFluid, text)
    /\ length outFluid <= 7 * length (evenHitTriangles r originOffset tMin tEps)
    /\ length outFluid <= 7 * triangleCount r.
Proof.
  unfold computeFluidMesh, fluidBeforeClean.
  destruct (addCaps_size r (evenHitTriangles r originOffset tMin tEps)) as (caps & E & Lc).
  rewrite evenHitTriangles_in_range in E. rewrite E.
  pose proof (boundaryEdges_bound r (evenHitTriangles r originOffset tMin tEps)) as B.
  rewrite evenHitTriangles_in_range in B.
  set (l := flipFrom (length (evenHitTriangles r originOffset tMin tEps))
              (map (getTriangle r) (evenHitTriangles r originOffset tMin tEps) ++ caps)).
  exists (fst (cleanMesh l)), (snd (cleanMesh l)).
  split; [now destruct (cleanMesh l)|].
  pose proof (cleanMesh_length_le l) as C. unfold l in C at 2.
  rewrite flipFrom_length, length_app, length_map in C.
  assert (Le : length (evenHitTriangles r originOffset tMin tEps) <= triangleCount r).
  { rewrite evenHitTriangles_filter.
    pose proof (filter_length_le (evenHit r originOffset tMin tEps) (seq 0 (triangleCount r)))
      as F. now rewrite length_seq in F. }
  split; lia.
Qed.
